(** * CGo: the rule engine (board.c) and the search engine (ai.c) in Rocq

    A shallow embedding of the Go rule engine, of the Monte Carlo tree
    search that drives the computer player, of the game handlers (game.c),
    of [randomInt] (utils.c) and of the click mapping of the window (gui.c),
    followed by the properties the specification states about them and by
    further properties of the code.

    Conventions of the embedding.
    - C [int] values are unbounded [Z]; signed overflow is undefined in C and
      is not modelled (a capture counter would need 2^31 captures). The one
      exception is the end of [determineWinner], which adds the capture
      counters of whatever board it is given to the area totals: these sums
      are written with [intAdd], the 32-bit two's complement sum.
    - [Stone board[19][19]] is a list of rows, indexed [board[y][x]]. Every
      access in the source is guarded by [isValidPosition] or by the loop
      bounds; the accessors repeat that guard, so an out-of-range read gives
      the default and an out-of-range write changes nothing.
    - Functions that take [Board*] and write through it return the new board
      next to their result.
    - [malloc] always succeeds.
    - The doubly linked snapshot list with its [current] cursor is a zipper:
      the nodes reached through [prev], the current node, the nodes reached
      through [next].
    - Recursion and [while] loops run on a fuel argument that is fixed by the
      board size; the lemmas of the section "Termination" show that this fuel
      is never used up. *)

From stdpp Require Import base list numbers.
From Stdlib Require Import ZArith Lia Bool Floats Uint63.
From Stdlib Require String.
Import String.StringSyntax.
Delimit Scope string_scope with string.

Local Open Scope Z_scope.
Set Warnings "-register-all".

(** ** board.h: data model *)

Definition BOARD_SIZE : Z := 19.

Inductive Stone : Type := EMPTY | BLACK | WHITE.

Definition stone_eqb (a b : Stone) : bool :=
  match a, b with
  | EMPTY, EMPTY | BLACK, BLACK | WHITE, WHITE => true
  | _, _ => false
  end.

#[global] Instance Stone_eq_dec : EqDecision Stone.
Proof. solve_decision. Defined.

Record Position : Type := mkPos { px : Z; py : Z }.

Definition pos_eqb (p q : Position) : bool :=
  (px p =? px q) && (py p =? py q).

#[global] Instance Position_eq_dec : EqDecision Position.
Proof. solve_decision. Defined.

(** [static bool isValidPosition(Position pos)] *)
Definition isValidPosition (pos : Position) : bool :=
  (0 <=? px pos) && (px pos <? BOARD_SIZE) && (0 <=? py pos) && (py pos <? BOARD_SIZE).

(** A [T a[19][19]] array: rows indexed by [y], cells by [x]. *)
Abbreviation Array2 A := (list (list A)) (only parsing).

Definition mkArray2 {A : Type} (v : A) : Array2 A :=
  replicate (Z.to_nat BOARD_SIZE) (replicate (Z.to_nat BOARD_SIZE) v).

Definition get2 {A : Type} (d : A) (a : Array2 A) (p : Position) : A :=
  if isValidPosition p then
    match a !! Z.to_nat (py p) with
    | Some row => match row !! Z.to_nat (px p) with Some v => v | None => d end
    | None => d
    end
  else d.

Definition set2 {A : Type} (a : Array2 A) (p : Position) (v : A) : Array2 A :=
  if isValidPosition p then
    match a !! Z.to_nat (py p) with
    | Some row => <[Z.to_nat (py p) := <[Z.to_nat (px p) := v]> row]> a
    | None => a
    end
  else a.

Abbreviation Grid := (list (list Stone)) (only parsing).
Abbreviation Marks := (list (list bool)) (only parsing).

Definition cell (g : Grid) (p : Position) : Stone := get2 EMPTY g p.
Definition marked (m : Marks) (p : Position) : bool := get2 false m p.
Definition noMarks : Marks := mkArray2 false.

(** The cells in the order of [for (y...) for (x...)]. *)
Definition range19 : list Z := seqZ 0 BOARD_SIZE.
Definition allCells : list Position :=
  flat_map (fun yy => map (fun xx => mkPos xx yy) range19) range19.

(** [BoardHistory]: one snapshot node (its [prev]/[next] links are the
    zipper below). *)
Record BoardHistory : Type := mkSnapshot {
  h_board : Grid;
  h_lastMove : Position;
  h_blackCaptures : Z;
  h_whiteCaptures : Z;
  h_blackLiberties : Z;
  h_whiteLiberties : Z
}.

(** The snapshot list seen from [board->current]: [h_prev] are the nodes
    reached by following [prev] (nearest first), [h_next] those reached by
    following [next]. [board->history] is the last node of [h_prev] (or the
    current one). *)
Record History : Type := mkHistory {
  h_prev : list BoardHistory;
  h_cur : BoardHistory;
  h_next : list BoardHistory
}.

Record Board : Type := mkBoard {
  board : Grid;
  currentPlayer : Stone;
  lastMove : Position;
  koPosition : Position;
  koActive : bool;
  blackCaptures : Z;
  whiteCaptures : Z;
  blackLiberties : Z;
  whiteLiberties : Z;
  history : History
}.

Definition with_board (b : Board) (g : Grid) : Board :=
  mkBoard g (currentPlayer b) (lastMove b) (koPosition b) (koActive b)
    (blackCaptures b) (whiteCaptures b) (blackLiberties b) (whiteLiberties b) (history b).
Definition with_currentPlayer (b : Board) (s : Stone) : Board :=
  mkBoard (board b) s (lastMove b) (koPosition b) (koActive b)
    (blackCaptures b) (whiteCaptures b) (blackLiberties b) (whiteLiberties b) (history b).
Definition with_lastMove (b : Board) (p : Position) : Board :=
  mkBoard (board b) (currentPlayer b) p (koPosition b) (koActive b)
    (blackCaptures b) (whiteCaptures b) (blackLiberties b) (whiteLiberties b) (history b).
Definition with_koPosition (b : Board) (p : Position) : Board :=
  mkBoard (board b) (currentPlayer b) (lastMove b) p (koActive b)
    (blackCaptures b) (whiteCaptures b) (blackLiberties b) (whiteLiberties b) (history b).
Definition with_koActive (b : Board) (k : bool) : Board :=
  mkBoard (board b) (currentPlayer b) (lastMove b) (koPosition b) k
    (blackCaptures b) (whiteCaptures b) (blackLiberties b) (whiteLiberties b) (history b).
Definition with_blackCaptures (b : Board) (n : Z) : Board :=
  mkBoard (board b) (currentPlayer b) (lastMove b) (koPosition b) (koActive b)
    n (whiteCaptures b) (blackLiberties b) (whiteLiberties b) (history b).
Definition with_whiteCaptures (b : Board) (n : Z) : Board :=
  mkBoard (board b) (currentPlayer b) (lastMove b) (koPosition b) (koActive b)
    (blackCaptures b) n (blackLiberties b) (whiteLiberties b) (history b).
Definition with_liberties (b : Board) (nb nw : Z) : Board :=
  mkBoard (board b) (currentPlayer b) (lastMove b) (koPosition b) (koActive b)
    (blackCaptures b) (whiteCaptures b) nb nw (history b).
Definition with_history (b : Board) (h : History) : Board :=
  mkBoard (board b) (currentPlayer b) (lastMove b) (koPosition b) (koActive b)
    (blackCaptures b) (whiteCaptures b) (blackLiberties b) (whiteLiberties b) h.

Definition noPosition : Position := mkPos (-1) (-1).

(** [(c == BLACK) ? WHITE : BLACK] *)
Definition otherPlayer (c : Stone) : Stone :=
  if stone_eqb c BLACK then WHITE else BLACK.

(** ** board.c: group analysis *)

(** [DX], [DY] *)
Definition DX : list Z := [-1; 0; 1; 0].
Definition DY : list Z := [0; -1; 0; 1].

(** The four [{pos.x + DX[i], pos.y + DY[i]}], for [i = 0..3]. *)
Definition neighbours (pos : Position) : list Position :=
  zip_with (fun dx dy => mkPos (px pos + dx) (py pos + dy)) DX DY.

(** Fuel for the recursion of [dfsMarkGroup]: one unit per cell. *)
Definition cellFuel : nat := Z.to_nat (BOARD_SIZE * BOARD_SIZE).

(** [static void dfsMarkGroup(board, pos, color, visited, group, groupSize)]:
    the state is [visited] and the [group] array filled so far. *)
Fixpoint dfsMarkGroup (fuel : nat) (g : Grid) (pos : Position) (color : Stone)
    (st : Marks * list Position) : Marks * list Position :=
  match fuel with
  | O => st
  | S fuel' =>
    let st1 := (set2 (fst st) pos true, snd st ++ [pos]) in
    fold_left (fun acc next =>
        if isValidPosition next && negb (marked (fst acc) next)
           && stone_eqb (cell g next) color
        then dfsMarkGroup fuel' g next color acc
        else acc)
      (neighbours pos) st1
  end.

(** [static int calculateGroupLiberties(board, group, groupSize)] *)
Definition calculateGroupLiberties (g : Grid) (group : list Position) : Z :=
  snd (fold_left (fun acc pos =>
         fold_left (fun acc' next =>
             if isValidPosition next && stone_eqb (cell g next) EMPTY
                && negb (marked (fst acc') next)
             then (set2 (fst acc') next true, snd acc' + 1)
             else acc')
           (neighbours pos) acc)
       group (noMarks, 0)).

(** [bool hasLiberty(Board* board, Position pos)] *)
Definition hasLiberty (g : Grid) (pos : Position) : bool :=
  if negb (isValidPosition pos) then false
  else
    let color := cell g pos in
    if stone_eqb color EMPTY then true
    else
      let group := snd (dfsMarkGroup cellFuel g pos color (noMarks, [])) in
      0 <? calculateGroupLiberties g group.

(** [int countLiberties(Board* board, Position pos)] *)
Definition countLiberties (g : Grid) (pos : Position) : Z :=
  if negb (isValidPosition pos) then 0
  else
    let color := cell g pos in
    if stone_eqb color EMPTY then 0
    else
      let group := snd (dfsMarkGroup cellFuel g pos color (noMarks, [])) in
      calculateGroupLiberties g group.

(** ** board.c: rule engine *)

(** [static BoardHistory* createHistoryNode(Board* board)] *)
Definition createHistoryNode (b : Board) : BoardHistory :=
  mkSnapshot (board b) (lastMove b) (blackCaptures b) (whiteCaptures b)
    (blackLiberties b) (whiteLiberties b).

(** [void initBoard(Board* board)] *)
Definition initBoard : Board :=
  let b := mkBoard (mkArray2 EMPTY) BLACK noPosition noPosition false 0 0 0 0
             (mkHistory [] (mkSnapshot (mkArray2 EMPTY) noPosition 0 0 0 0) []) in
  with_history b (mkHistory [] (createHistoryNode b) []).

(** The state of the scan in [captureDeadStones]: the board (grid and
    [koPosition] are written), [visited], [capturedCount]. *)
Record CaptureScan : Type := mkCaptureScan {
  cs_board : Board;
  cs_visited : Marks;
  cs_count : Z
}.

(** [for (i...) { board->board[group[i].y][group[i].x] = EMPTY; }] *)
Definition removeGroup (g : Grid) (group : list Position) : Grid :=
  fold_left (fun acc p => set2 acc p EMPTY) group g.

(** The body of the double loop of [captureDeadStones] at the cell [pos]. *)
Definition captureStep (color : Stone) (st : CaptureScan) (pos : Position) : CaptureScan :=
  let b := cs_board st in
  if stone_eqb (cell (board b) pos) color && negb (marked (cs_visited st) pos) then
    let r := dfsMarkGroup cellFuel (board b) pos color (cs_visited st, []) in
    let group := snd r in
    if calculateGroupLiberties (board b) group =? 0 then
      let b1 := with_koPosition b
                  (if Z.of_nat (length group) =? 1 then hd noPosition group else noPosition) in
      mkCaptureScan (with_board b1 (removeGroup (board b1) group)) (fst r)
        (cs_count st + Z.of_nat (length group))
    else mkCaptureScan b (fst r) (cs_count st)
  else st.

(** [int captureDeadStones(Board* board, Stone color)] *)
Definition captureDeadStones (b : Board) (color : Stone) : Z * Board :=
  let st := fold_left (captureStep color) allCells (mkCaptureScan b noMarks 0) in
  let b1 := cs_board st in
  let capturedCount := cs_count st in
  let b2 :=
    if stone_eqb color BLACK then with_whiteCaptures b1 (whiteCaptures b1 + capturedCount)
    else if stone_eqb color WHITE then with_blackCaptures b1 (blackCaptures b1 + capturedCount)
    else b1 in
  (capturedCount, b2).

(** [bool isKoMove(Board* board, Position pos)] *)
Definition isKoMove (b : Board) (pos : Position) : bool :=
  if negb (koActive b) then false
  else (px pos =? px (koPosition b)) && (py pos =? py (koPosition b)).

(** [bool isSuicideMove(Board* board, Position pos)]: the stone is written
    into the board, the liberty test runs, and the cell is written back. *)
Definition isSuicideMove (b : Board) (pos : Position) : bool * Board :=
  if negb (isValidPosition pos) || negb (stone_eqb (cell (board b) pos) EMPTY) then (false, b)
  else
    let originalColor := cell (board b) pos in
    let b1 := with_board b (set2 (board b) pos (currentPlayer b)) in
    let hasLib := hasLiberty (board b1) pos in
    let b2 := with_board b1 (set2 (board b1) pos originalColor) in
    (negb hasLib, b2).

(** [bool isValidMove(Board* board, Position pos)] *)
Definition isValidMove (b : Board) (pos : Position) : bool * Board :=
  if negb (isValidPosition pos) then (false, b)
  else if negb (stone_eqb (cell (board b) pos) EMPTY) then (false, b)
  else if isKoMove b pos then (false, b)
  else
    let r := isSuicideMove b pos in
    if fst r then (false, snd r) else (true, snd r).

(** The state of the scan in [calculateLiberties]. *)
Record LibertyScan : Type := mkLibertyScan {
  ls_visited : Marks;
  ls_black : Z;
  ls_white : Z
}.

Definition libertyStep (g : Grid) (st : LibertyScan) (pos : Position) : LibertyScan :=
  let c := cell g pos in
  if (stone_eqb c BLACK || stone_eqb c WHITE) && negb (marked (ls_visited st) pos) then
    let r := dfsMarkGroup cellFuel g pos c (ls_visited st, []) in
    let liberties := calculateGroupLiberties g (snd r) in
    if stone_eqb c BLACK then mkLibertyScan (fst r) (ls_black st + liberties) (ls_white st)
    else if stone_eqb c WHITE then mkLibertyScan (fst r) (ls_black st) (ls_white st + liberties)
    else mkLibertyScan (fst r) (ls_black st) (ls_white st)
  else st.

(** [void calculateLiberties(Board* board)] *)
Definition calculateLiberties (b : Board) : Board :=
  let st := fold_left (libertyStep (board b)) allCells (mkLibertyScan noMarks 0 0) in
  with_liberties b (ls_black st) (ls_white st).

(** [void saveBoardState(Board* board)]: the nodes after [current] are
    freed, the new node is linked behind [current] and becomes [current]. *)
Definition saveBoardState (b : Board) : Board :=
  let newNode := createHistoryNode b in
  let h := history b in
  with_history b (mkHistory (h_cur h :: h_prev h) newNode []).

(** Fuel for the [do ... while (capturedCount > 0)] loop of [placeStone]. *)
Definition loopFuel : nat := S cellFuel.

(** [do { capturedCount = captureDeadStones(...); totalCaptured += capturedCount; }
     while (capturedCount > 0);] *)
Fixpoint captureLoop (fuel : nat) (b : Board) (color : Stone) (totalCaptured : Z)
    : Z * Board :=
  match fuel with
  | O => (totalCaptured, b)
  | S fuel' =>
    let r := captureDeadStones b color in
    let total' := totalCaptured + fst r in
    if 0 <? fst r then captureLoop fuel' (snd r) color total' else (total', snd r)
  end.

(** [if (totalCaptured == 1) { ... board->koActive = true; }] *)
Definition koCheck (b : Board) (pos : Position) (totalCaptured : Z) : Board :=
  if totalCaptured =? 1 then
    let group := snd (dfsMarkGroup cellFuel (board b) pos (currentPlayer b) (noMarks, [])) in
    if (Z.of_nat (length group) =? 1) && (calculateGroupLiberties (board b) group =? 1)
    then with_koActive b true
    else b
  else b.

(** [bool placeStone(Board* board, Position pos)] *)
Definition placeStone (b : Board) (pos : Position) : bool * Board :=
  let v := isValidMove b pos in
  if negb (fst v) then (false, snd v)
  else
    let b0 := snd v in
    let b1 := with_board b0 (set2 (board b0) pos (currentPlayer b0)) in
    let b2 := with_lastMove b1 pos in
    let b3 := with_koPosition (with_koActive b2 false) noPosition in
    let opponentColor := otherPlayer (currentPlayer b3) in
    let r := captureLoop loopFuel b3 opponentColor 0 in
    let b4 := koCheck (snd r) pos (fst r) in
    let b5 := calculateLiberties b4 in
    let b6 := saveBoardState b5 in
    (true, with_currentPlayer b6 (otherPlayer (currentPlayer b6))).

(** The restore part shared by [undoMove] and [redoMove]: copy the snapshot
    into the board, switch the player, reset the ko fields. *)
Definition restoreFrom (b : Board) (h : History) : Board :=
  let n := h_cur h in
  mkBoard (h_board n) (otherPlayer (currentPlayer b)) (h_lastMove n) noPosition false
    (h_blackCaptures n) (h_whiteCaptures n) (h_blackLiberties n) (h_whiteLiberties n) h.

(** [bool undoMove(Board* board)] *)
Definition undoMove (b : Board) : bool * Board :=
  let h := history b in
  match h_prev h with
  | [] => (false, b)
  | p :: ps => (true, restoreFrom b (mkHistory ps p (h_cur h :: h_next h)))
  end.

(** [bool redoMove(Board* board)] *)
Definition redoMove (b : Board) : bool * Board :=
  let h := history b in
  match h_next h with
  | [] => (false, b)
  | n :: ns => (true, restoreFrom b (mkHistory (h_cur h :: h_prev h) n ns))
  end.

(** ** board.c: scoring *)

(** The state of one flood fill of [determineWinner]: [visited], the part
    of [queue] between [front] and [rear], [territorySize], [touchesBlack],
    [touchesWhite]. *)
Record Territory : Type := mkTerritory {
  t_visited : Marks;
  t_queue : list Position;
  t_size : Z;
  t_black : bool;
  t_white : bool
}.

(** The body of [for (d...)] for the neighbour [(nx, ny)]. *)
Definition territoryStep (g : Grid) (st : Territory) (n : Position) : Territory :=
  if (px n <? 0) || (BOARD_SIZE <=? px n) || (py n <? 0) || (BOARD_SIZE <=? py n) then st
  else if stone_eqb (cell g n) EMPTY && negb (marked (t_visited st) n) then
    mkTerritory (set2 (t_visited st) n true) (t_queue st ++ [n]) (t_size st + 1)
      (t_black st) (t_white st)
  else if stone_eqb (cell g n) BLACK then
    mkTerritory (t_visited st) (t_queue st) (t_size st) true (t_white st)
  else if stone_eqb (cell g n) WHITE then
    mkTerritory (t_visited st) (t_queue st) (t_size st) (t_black st) true
  else st.

(** [while (front < rear) { current = queue[front++]; for (d...) ... }] *)
Fixpoint territoryLoop (fuel : nat) (g : Grid) (st : Territory) : Territory :=
  match fuel with
  | O => st
  | S fuel' =>
    match t_queue st with
    | [] => st
    | current :: rest =>
      territoryLoop fuel' g
        (fold_left (territoryStep g) (neighbours current)
           (mkTerritory (t_visited st) rest (t_size st) (t_black st) (t_white st)))
    end
  end.

(** The state of the second pass of [determineWinner]. *)
Record ScoreScan : Type := mkScoreScan {
  ss_visited : Marks;
  ss_black : Z;
  ss_white : Z
}.

Definition scoreStep (g : Grid) (st : ScoreScan) (pos : Position) : ScoreScan :=
  if stone_eqb (cell g pos) EMPTY && negb (marked (ss_visited st) pos) then
    let t := territoryLoop loopFuel g
               (mkTerritory (set2 (ss_visited st) pos true) [pos] 1 false false) in
    if t_black t && negb (t_white t) then
      mkScoreScan (t_visited t) (ss_black st + t_size t) (ss_white st)
    else if negb (t_black t) && t_white t then
      mkScoreScan (t_visited t) (ss_black st) (ss_white st + t_size t)
    else mkScoreScan (t_visited t) (ss_black st) (ss_white st)
  else st.

(** First pass: the stones on the board. *)
Definition countStones (g : Grid) (color : Stone) : Z :=
  fold_left (fun n pos => if stone_eqb (cell g pos) color then n + 1 else n) allCells 0.

(** The range of [int]. *)
Definition INT_MIN : Z := -2147483648.
Definition INT_MAX : Z := 2147483647.

(** [a + b] as a 32-bit two's complement machine leaves it in an [int]:
    the sum, brought back into [INT_MIN .. INT_MAX] by a multiple of 2^32. *)
Definition intAdd (a b : Z) : Z := (a + b - INT_MIN) mod 4294967296 + INT_MIN.

(** The two totals of [determineWinner] before they are compared: the
    stones and the territory of the two passes (at most 361 each), then
    [blackPoints += board->whiteCaptures], [whitePoints += board->blackCaptures]
    and [whitePoints += 4]. *)
Definition finalPoints (b : Board) : Z * Z :=
  let st := fold_left (scoreStep (board b)) allCells
              (mkScoreScan noMarks (countStones (board b) BLACK) (countStones (board b) WHITE)) in
  let blackPoints := intAdd (ss_black st) (whiteCaptures b) in
  let whitePoints := intAdd (ss_white st) (blackCaptures b) in
  (blackPoints, intAdd whitePoints 4).

(** [int determineWinner(Board* board)]: [BLACK], [WHITE] or [0], which is
    the value of [EMPTY]. *)
Definition determineWinner (b : Board) : Stone :=
  let '(blackPoints, whitePoints) := finalPoints b in
  if whitePoints <? blackPoints then BLACK
  else if blackPoints <? whitePoints then WHITE
  else EMPTY.

(** ** ai.h, ai.c: the search tree *)

Definition DEFAULT_SIMULATION_COUNT : Z := 789.
(** [4.2], as the nearest binary64 value. *)
Definition DEFAULT_EXPLORATION_PARAM : float := 0x1.0cccccccccccdp+2%float.
Definition DEFAULT_MAX_DEPTH : Z := 50.
Definition MCTS_TIME_LIMIT : Z := 3000.
Definition MCTS_RANGE_SMALL : Z := 1.

Record AIConfig : Type := mkAIConfig {
  simulationCount : Z;
  explorationParameter : float;
  maxDepth : Z
}.

(** [void initAIConfig(AIConfig* config)] *)
Definition initAIConfig : AIConfig :=
  mkAIConfig DEFAULT_SIMULATION_COUNT DEFAULT_EXPLORATION_PARAM DEFAULT_MAX_DEPTH.

(** [MCTSNode]. [childrenCount] is the length of [children]. The [parent]
    pointer is not a field: a node is addressed from the root by the
    indices of the children on the way to it, and its parent is the node
    one index earlier. *)
Inductive MCTSNode : Type := mkNode {
  move : Position;
  player : Stone;
  visits : Z;
  wins : float;
  children : list MCTSNode
}.

Definition childrenCount (n : MCTSNode) : Z := Z.of_nat (length (children n)).

Definition with_children (n : MCTSNode) (cs : list MCTSNode) : MCTSNode :=
  mkNode (move n) (player n) (visits n) (wins n) cs.

(** [MCTSNode* createRootNode(Board* board)] *)
Definition createRootNode (b : Board) : MCTSNode :=
  mkNode noPosition (currentPlayer b) 0 0%float [].

(** [static MCTSNode* createChildNode(parent, move, player)] *)
Definition createChildNode (m : Position) (p : Stone) : MCTSNode :=
  mkNode m p 0 0%float [].

(** The node a path of child indices leads to. *)
Fixpoint nodeAt (n : MCTSNode) (path : list nat) : option MCTSNode :=
  match path with
  | [] => Some n
  | i :: rest =>
    match children n !! i with
    | Some c => nodeAt c rest
    | None => None
    end
  end.

(** A write through a node pointer. *)
Fixpoint updateAt (f : MCTSNode -> MCTSNode) (path : list nat) (n : MCTSNode) : MCTSNode :=
  match path with
  | [] => f n
  | i :: rest =>
    match children n !! i with
    | Some c => with_children n (<[i := updateAt f rest c]> (children n))
    | None => n
    end
  end.

(** The nodes met by following [parent] from the node at [path]: the node
    itself first, the root (whose [parent] is [NULL]) last. *)
Fixpoint parentChain (acc : list MCTSNode) (n : MCTSNode) (path : list nat) : list MCTSNode :=
  match path with
  | [] => n :: acc
  | i :: rest =>
    match children n !! i with
    | Some c => parentChain (n :: acc) c rest
    | None => n :: acc
    end
  end.

(** [(double)z] for a count. *)
Definition Z2F (z : Z) : float := PrimFloat.of_uint63 (Uint63.of_Z z).

(** [fst (isValidMove b pos)]: the legality test as the callers in ai.c use
    it (the board comes back as it was, lemma [isValidMove_restores]). *)
Definition validMove (b : Board) (pos : Position) : bool := fst (isValidMove b pos).

(** [static void getValidMovesInRange(board, centerX, centerY, range, positions, count)] *)
Definition getValidMovesInRange (b : Board) (centerX centerY range : Z) : list Position :=
  let offsets := seqZ (- range) (2 * range + 1) in
  flat_map (fun dx =>
      flat_map (fun dy =>
          let pos := mkPos (centerX + dx) (centerY + dy) in
          if (0 <=? px pos) && (px pos <? BOARD_SIZE) && (0 <=? py pos) && (py pos <? BOARD_SIZE)
             && validMove b pos
          then [pos] else [])
        offsets)
    offsets.

(** [int getLegalMoves(Board* board, Position* positions)] *)
Definition getLegalMoves (b : Board) : list Position :=
  filter (fun pos => validMove b pos = true) allCells.

(** [for (j...) if (legalMoves[j].x == pos.x && legalMoves[j].y == pos.y) exists = true;] *)
Definition existsIn (l : list Position) (pos : Position) : bool :=
  existsb (fun q => pos_eqb q pos) l.

(** The [starPoints] table of [expandNode]: eight star points, then tengen. *)
Definition starPoints9 : list Position :=
  [ mkPos 3 3; mkPos 3 (BOARD_SIZE - 4); mkPos (BOARD_SIZE - 4) 3;
    mkPos (BOARD_SIZE - 4) (BOARD_SIZE - 4);
    mkPos 3 (BOARD_SIZE / 2); mkPos (BOARD_SIZE / 2) 3;
    mkPos (BOARD_SIZE - 4) (BOARD_SIZE / 2); mkPos (BOARD_SIZE / 2) (BOARD_SIZE - 4);
    mkPos (BOARD_SIZE / 2) (BOARD_SIZE / 2) ].

(** The candidate list [legalMoves] of [expandNode], in its three tiers. *)
Definition candidateMoves (tempBoard : Board) : list Position :=
  let tier1 :=
    if (0 <=? px (lastMove tempBoard)) && (0 <=? py (lastMove tempBoard)) then
      getValidMovesInRange tempBoard (px (lastMove tempBoard)) (py (lastMove tempBoard))
        MCTS_RANGE_SMALL
    else [] in
  let tier2 :=
    if Z.of_nat (length tier1) <? 5 then
      fold_left (fun acc pos =>
          if validMove tempBoard pos then
            if existsIn acc pos then acc else acc ++ [pos]
          else acc)
        starPoints9 tier1
    else tier1 in
  if Z.of_nat (length tier2) <? 5 then
    (* both [break]s leave the scan as soon as the list holds 20 moves *)
    fold_left (fun acc pos =>
        if 20 <=? Z.of_nat (length acc) then acc
        else if existsIn acc pos then acc
        else if validMove tempBoard pos then acc ++ [pos]
        else acc)
      allCells tier2
  else tier2.

(** [for (i = moveCount - 1; i >= 0; i--) placeStone(&tempBoard, moves[i]->move);] *)
Definition applyMoves (b : Board) (moves : list MCTSNode) : Board :=
  fold_left (fun acc n => snd (placeStone acc (move n))) (rev moves) b.

(** [while (temp->parent) { moves[moveCount++] = temp; temp = temp->parent; }]
    on the chain of a node: every node of it but the root. *)
Definition collectMoves (chain : list MCTSNode) : list MCTSNode := removelast chain.

(** The loop that opens both [expandNode] and [simulateGame]:
    [current = node; while (current->parent) { collect; apply; current = current->parent; }].
    [chain] is the parent chain of [current]. (The array [moves] holds
    [DEFAULT_MAX_DEPTH] entries; deeper nodes are outside the model.) *)
Fixpoint reconstructBoard (tempBoard : Board) (chain : list MCTSNode) : Board :=
  match chain with
  | [] => tempBoard
  | current :: parents =>
    match parents with
    | [] => tempBoard
    | _ :: _ => reconstructBoard (applyMoves tempBoard (collectMoves chain)) parents
    end
  end.

(** The "edge" strategy of [expandNode]: the index of the move farthest
    from the last move. *)
Definition edgeIndex (legalMoves : list Position) (parentX parentY : Z) : nat :=
  snd (fold_left (fun '(maxDistance, selected) '(i, m) =>
         let dx := px m - parentX in
         let dy := py m - parentY in
         let distance := dx * dx + dy * dy in
         if maxDistance <? distance then (distance, i) else (maxDistance, selected))
       (imap (fun i m => (i, m)) legalMoves) (0, 0%nat)).

(** The "center" strategy of [expandNode]. *)
Definition centerIndex (tempBoard : Board) (nodePlayer : Stone) (legalMoves : list Position) : nat :=
  let centerX := BOARD_SIZE / 2 in
  let centerY := BOARD_SIZE / 2 in
  snd (fold_left (fun '(minDistance, selected) '(i, m) =>
         let dx := px m - centerX in
         let dy := py m - centerY in
         let connectedStones :=
           Z.of_nat (length (filter (fun n =>
               ((0 <=? px n) && (px n <? BOARD_SIZE) && (0 <=? py n) && (py n <? BOARD_SIZE)
                && stone_eqb (cell (board tempBoard) n) nodePlayer) = true)
             (neighbours m))) in
         let distance := dx * dx + dy * dy - connectedStones * 5 in
         if distance <? minDistance then (distance, i) else (minDistance, selected))
       (imap (fun i m => (i, m)) legalMoves) (BOARD_SIZE * BOARD_SIZE * 2, 0%nat)).

(** [MCTSNode* selectBestChild(MCTSNode* node, AIConfig* config)]: the
    index of the child, [None] for [NULL]. [bestScore] starts at
    [-INFINITY] ([None]) and then holds a visit count, which a [double]
    holds exactly. *)
Definition selectBestChild (node : MCTSNode) : option nat :=
  fst (fold_left (fun '(bestChild, bestScore) '(i, c) =>
         let better := match bestScore with
                       | None => true
                       | Some s => s <? visits c
                       end in
         if better then (Some i, Some (visits c)) else (bestChild, bestScore))
       (imap (fun i c => (i, c)) (children node)) (None, None)).

(** ** ai.c: the search *)

Section Search.

(** The values [rand()] returns after [srand] in [findBestMove], in the
    order of the calls; the values [SDL_GetTicks()] returns, in the order
    of the calls; [log] of math.h. *)
Variable randSeq : nat -> nat.
Variable ticks : nat -> Z.
Variable clog : float -> float.

(** [rand()]: the value and the position of the next one. *)
Definition rand (rs : nat) : Z * nat := (Z.of_nat (randSeq rs), S rs).

(** [SDL_GetTicks()], a [Uint32]. *)
Definition SDL_GetTicks (clk : nat) : Z * nat := (ticks clk mod 2 ^ 32, S clk).

(** [static double calculateUCT(MCTSNode* node, int parentVisits, double explorationParam)] *)
Definition calculateUCT (node : MCTSNode) (parentVisits : Z) (explorationParam : float) : float :=
  if visits node =? 0 then infinity
  else
    let exploitation := (wins node / Z2F (visits node))%float in
    let visitFactor :=
      PrimFloat.sqrt (2 - Z2F (visits node) / Z2F (parentVisits + 1))%float in
    let exploration :=
      (explorationParam * visitFactor
       * PrimFloat.sqrt (clog (Z2F parentVisits) / Z2F (visits node)))%float in
    (exploitation + exploration)%float.

(** The loop of [selectNode] that keeps the child of greatest UCT value:
    the index of [bestChild], [None] for [NULL]. *)
Definition bestUCTChild (node : MCTSNode) (config : AIConfig) : option nat :=
  fst (fold_left (fun (acc : option nat * float) (ic : nat * MCTSNode) =>
         let uct := calculateUCT (snd ic) (visits node) (explorationParameter config) in
         if PrimFloat.ltb (snd acc) uct then (Some (fst ic), uct) else acc)
       (imap (fun i c => (i, c)) (children node)) (None, neg_infinity)).

(** [MCTSNode* selectNode(MCTSNode* node, AIConfig* config)]: the path from
    [node] to the selected node. Where the source would pass a [NULL]
    [bestChild] on (no UCT value above [-INFINITY]), the descent stops. *)
Fixpoint selectNode (config : AIConfig) (node : MCTSNode) (rs : nat) {struct node}
    : list nat * nat :=
  match node with
  | mkNode _ _ nodeVisits _ kids =>
    if Z.of_nat (length kids) =? 0 then ([], rs)
    else
      let descend := map (fun c => selectNode config c) kids in
      let r := rand rs in
      if (fst r mod 100 <? 5) && (50 <? nodeVisits) then
        let r2 := rand (snd r) in
        let randomChild := Z.to_nat (fst r2 mod Z.of_nat (length kids)) in
        match descend !! randomChild with
        | Some k => let res := k (snd r2) in (randomChild :: fst res, snd res)
        | None => ([], snd r2)
        end
      else
        match bestUCTChild node config with
        | Some i =>
          match descend !! i with
          | Some k => let res := k (snd r) in (i :: fst res, snd res)
          | None => ([], snd r)
          end
        | None => ([], snd r)
        end
  end.

(** The choice of [selectedIndex] at the end of [expandNode]. *)
Definition chooseChild (tempBoard : Board) (nodePlayer : Stone) (legalMoves : list Position)
    (rs : nat) : nat * nat :=
  let legalMoveCount := Z.of_nat (length legalMoves) in
  let r := rand rs in
  let strategy := fst r mod 3 in
  if strategy =? 0 then
    let r2 := rand (snd r) in (Z.to_nat (fst r2 mod legalMoveCount), snd r2)
  else if (strategy =? 1) && (0 <=? px (lastMove tempBoard)) then
    (edgeIndex legalMoves (px (lastMove tempBoard)) (py (lastMove tempBoard)), snd r)
  else
    (centerIndex tempBoard nodePlayer legalMoves, snd r).

(** [MCTSNode* expandNode(MCTSNode* node, Board* board)]: [node] is the node
    at [path] under [root]; the result is the tree after the expansion, the
    path of the returned node, and the position in the random sequence. *)
Definition expandNode (root : MCTSNode) (path : list nat) (b : Board) (rs : nat)
    : MCTSNode * list nat * nat :=
  match nodeAt root path with
  | None => (root, path, rs)
  | Some node =>
    let tempBoard := reconstructBoard b (parentChain [] root path) in
    let legalMoves := candidateMoves tempBoard in
    if Z.of_nat (length legalMoves) =? 0 then (root, path, rs)
    else
      let nextPlayer := otherPlayer (player node) in
      let kids := map (fun m => createChildNode m nextPlayer) legalMoves in
      let root' := updateAt (fun n => with_children n kids) path root in
      let sel := chooseChild tempBoard (player node) legalMoves rs in
      (root', path ++ [fst sel], snd sel)
  end.

(** [for (attempts = 0; attempts < 10 && validMoveCount == 0; attempts++)]
    of [simulateGame]: random cells are tried until one is legal. *)
Fixpoint probeMoves (attempts : nat) (tempBoard : Board) (rs : nat) : list Position * nat :=
  match attempts with
  | O => ([], rs)
  | S attempts' =>
    let r1 := rand rs in
    let r2 := rand (snd r1) in
    let pos := mkPos (fst r1 mod BOARD_SIZE) (fst r2 mod BOARD_SIZE) in
    if validMove tempBoard pos then ([pos], snd r2)
    else probeMoves attempts' tempBoard (snd r2)
  end.

(** The state of the rollout loop of [simulateGame]. *)
Record Rollout : Type := mkRollout {
  ro_board : Board;
  ro_moveCount : Z;
  ro_prevBlack : Z;
  ro_prevWhite : Z;
  ro_rs : nat
}.

(** [while (moveCount < maxMoves) { ... }] of [simulateGame]; [moveCount]
    grows by one in every round, so [maxMoves] rounds are all there are. *)
Fixpoint rolloutLoop (fuel : nat) (maxMoves : Z) (st : Rollout) : Rollout :=
  match fuel with
  | O => st
  | S fuel' =>
    if negb (ro_moveCount st <? maxMoves) then st
    else
      let tempBoard := ro_board st in
      let near :=
        if (0 <=? px (lastMove tempBoard)) && (0 <=? py (lastMove tempBoard)) then
          getValidMovesInRange tempBoard (px (lastMove tempBoard)) (py (lastMove tempBoard))
            MCTS_RANGE_SMALL
        else [] in
      let found :=
        if Z.of_nat (length near) =? 0 then probeMoves 10 tempBoard (ro_rs st)
        else (near, ro_rs st) in
      let moves := fst found in
      if Z.of_nat (length moves) =? 0 then
        mkRollout tempBoard (ro_moveCount st) (ro_prevBlack st) (ro_prevWhite st) (snd found)
      else
        let r := rand (snd found) in
        let selectedMove := Z.to_nat (fst r mod Z.of_nat (length moves)) in
        let movePos := nth selectedMove moves noPosition in
        let tempBoard' := snd (placeStone tempBoard movePos) in
        let moveCount := ro_moveCount st + 1 in
        if (20 <? moveCount) && (moveCount mod 5 =? 0) then
          if negb ((blackCaptures tempBoard' =? ro_prevBlack st)
                   && (whiteCaptures tempBoard' =? ro_prevWhite st))
          then
            rolloutLoop fuel' maxMoves
              (mkRollout tempBoard' moveCount (blackCaptures tempBoard')
                 (whiteCaptures tempBoard') (snd r))
          else mkRollout tempBoard' moveCount (ro_prevBlack st) (ro_prevWhite st) (snd r)
        else
          rolloutLoop fuel' maxMoves
            (mkRollout tempBoard' moveCount (ro_prevBlack st) (ro_prevWhite st) (snd r))
  end.

(** [double simulateGame(MCTSNode* node, Board* board, AIConfig* config)]:
    the score ([1.0] or [0.0]) and the position in the random sequence. *)
Definition simulateGame (root : MCTSNode) (path : list nat) (b : Board) (rs : nat)
    : float * nat :=
  let tempBoard := reconstructBoard b (parentChain [] root path) in
  let nodePlayer := match nodeAt root path with Some n => player n | None => EMPTY end in
  let r := rand rs in
  let maxMoves := 40 + fst r mod 20 in
  let st := rolloutLoop (Z.to_nat maxMoves) maxMoves
              (mkRollout tempBoard 0 (blackCaptures tempBoard) (whiteCaptures tempBoard)
                 (snd r)) in
  let blackScore := blackCaptures (ro_board st) in
  let whiteScore := whiteCaptures (ro_board st) in
  let score :=
    if stone_eqb nodePlayer BLACK then (if whiteScore <? blackScore then 1%float else 0%float)
    else (if blackScore <? whiteScore then 1%float else 0%float) in
  (score, ro_rs st).

(** One step of [backpropagate] at [current]. *)
Definition backpropagateNode (nodePlayer : Stone) (result : float) (current : MCTSNode)
    : MCTSNode :=
  mkNode (move current) (player current) (visits current + 1)
    (if stone_eqb (player current) nodePlayer then (wins current + result)%float
     else (wins current + (1 - result))%float)
    (children current).

(** [void backpropagate(MCTSNode* node, double result)]: every node from
    the one at [path] up to the root is updated. *)
Fixpoint backpropagateFrom (nodePlayer : Stone) (result : float) (n : MCTSNode)
    (path : list nat) : MCTSNode :=
  let n' := backpropagateNode nodePlayer result n in
  match path with
  | [] => n'
  | i :: rest =>
    match children n !! i with
    | Some c =>
      with_children n' (<[i := backpropagateFrom nodePlayer result c rest]> (children n))
    | None => n'
    end
  end.

Definition backpropagate (root : MCTSNode) (path : list nat) (result : float) : MCTSNode :=
  match nodeAt root path with
  | Some node => backpropagateFrom (player node) result root path
  | None => root
  end.

(** The state of the loop of [runMCTS]: the tree, [iterations], and the
    positions in the random and clock sequences. *)
Record SearchState : Type := mkSearchState {
  s_root : MCTSNode;
  s_iterations : Z;
  s_rs : nat;
  s_clk : nat
}.

(** One round of the loop of [runMCTS]. *)
Definition mctsIteration (b : Board) (config : AIConfig) (st : SearchState) : SearchState :=
  let selected := selectNode config (s_root st) (s_rs st) in
  let expanded := expandNode (s_root st) (fst selected) b (snd selected) in
  let root1 := fst (fst expanded) in
  let result := simulateGame root1 (snd (fst expanded)) b (snd expanded) in
  let root2 := backpropagate root1 (snd (fst expanded)) (fst result) in
  mkSearchState root2 (s_iterations st + 1) (snd result) (s_clk st).

(** [while (iterations < config->simulationCount
            && (SDL_GetTicks() - startTime) < MCTS_TIME_LIMIT) { ... }];
    [iterations] grows by one in every round, so [simulationCount] rounds
    are all there are. *)
Fixpoint mctsLoop (fuel : nat) (b : Board) (config : AIConfig) (startTime : Z)
    (st : SearchState) : SearchState :=
  match fuel with
  | O => st
  | S fuel' =>
    if s_iterations st <? simulationCount config then
      let now := SDL_GetTicks (s_clk st) in
      let st1 := mkSearchState (s_root st) (s_iterations st) (s_rs st) (snd now) in
      if (fst now - startTime) mod 2 ^ 32 <? MCTS_TIME_LIMIT then
        mctsLoop fuel' b config startTime (mctsIteration b config st1)
      else st1
    else st
  end.

(** [void runMCTS(Board* board, AIConfig* config, MCTSNode* root)] *)
Definition runMCTS (b : Board) (config : AIConfig) (root : MCTSNode) (rs : nat)
    : SearchState :=
  let start := SDL_GetTicks 0%nat in
  mctsLoop (Z.to_nat (simulationCount config)) b config (fst start)
    (mkSearchState root 0 rs (snd start)).

(** What [findBestMove] returns, with the number of rounds [runMCTS] ran
    for it (0 when it was not called). *)
Record SearchResult : Type := mkSearchResult {
  bestMove : Position;
  searchIterations : Z
}.

(** The opening list of [findBestMove]: tengen, then the eight star points,
    each kept when it is legal. *)
Definition openingPoints : list Position :=
  let center := BOARD_SIZE / 2 in
  [ mkPos center center;
    mkPos 3 3; mkPos 3 (BOARD_SIZE - 4); mkPos (BOARD_SIZE - 4) 3;
    mkPos (BOARD_SIZE - 4) (BOARD_SIZE - 4);
    mkPos 3 center; mkPos center 3; mkPos (BOARD_SIZE - 4) center;
    mkPos center (BOARD_SIZE - 4) ].

Definition openingMoves (b : Board) : list Position :=
  filter (fun pos => validMove b pos = true) openingPoints.

(** [bestChild->move] after the search, [None] when [bestChild] is [NULL]. *)
Definition bestChildMove (root : MCTSNode) : option Position :=
  match selectBestChild root with
  | Some i => match children root !! i with Some c => Some (move c) | None => None end
  | None => None
  end.

(** [Position findBestMove(Board* board, AIConfig* config)] *)
Definition findBestMove (b : Board) (config : AIConfig) : SearchResult :=
  let root := createRootNode b in
  let firstMove := (px (lastMove b) <? 0) || (py (lastMove b) <? 0) in
  let opening := if firstMove then openingMoves b else [] in
  if firstMove && (0 <? Z.of_nat (length opening)) then
    let randomIndex := Z.to_nat (fst (rand 0%nat) mod Z.of_nat (length opening)) in
    mkSearchResult (nth randomIndex opening noPosition) 0
  else if (0 <=? px (lastMove b)) && (0 <=? py (lastMove b)) then
    let backupMoves :=
      getValidMovesInRange b (px (lastMove b)) (py (lastMove b)) MCTS_RANGE_SMALL in
    let backupCount := Z.of_nat (length backupMoves) in
    let st := runMCTS b config root 0%nat in
    match bestChildMove (s_root st) with
    | Some m => mkSearchResult m (s_iterations st)
    | None =>
      if 0 <? backupCount then
        let randomIndex := Z.to_nat (fst (rand (s_rs st)) mod backupCount) in
        mkSearchResult (nth randomIndex backupMoves noPosition) (s_iterations st)
      else mkSearchResult noPosition (s_iterations st)
    end
  else
    let validMoves := getLegalMoves b in
    let validMoveCount := Z.of_nat (length validMoves) in
    if validMoveCount =? 0 then mkSearchResult noPosition 0
    else
      let st := runMCTS b config root 0%nat in
      match bestChildMove (s_root st) with
      | Some m => mkSearchResult m (s_iterations st)
      | None =>
        let randomIndex := Z.to_nat (fst (rand (s_rs st)) mod validMoveCount) in
        mkSearchResult (nth randomIndex validMoves noPosition) (s_iterations st)
      end.

End Search.

(** ** utils.c *)

(** [int randomInt(int min, int max)]: [min + rand() % (max - min + 1)],
    given the value [r] that [rand()] returns. [%] is the remainder of the
    truncating division; the source divides by zero (undefined in C) when
    [max - min + 1] is 0. *)
Definition randomInt (r : Z) (min max : Z) : Z := min + Z.rem r (max - min + 1).

(** ** game.h, game.c: the game around the board *)

Inductive GameMode : Type := MODE_PVP | MODE_PVE.

Inductive GameState : Type := STATE_MENU | STATE_PLAYING | STATE_GAMEOVER | STATE_QUIT.

#[global] Instance GameMode_eq_dec : EqDecision GameMode.
Proof. solve_decision. Defined.

#[global] Instance GameState_eq_dec : EqDecision GameState.
Proof. solve_decision. Defined.

Definition mode_eqb (a b : GameMode) : bool :=
  match a, b with
  | MODE_PVP, MODE_PVP | MODE_PVE, MODE_PVE => true
  | _, _ => false
  end.

Definition state_eqb (a b : GameState) : bool :=
  match a, b with
  | STATE_MENU, STATE_MENU | STATE_PLAYING, STATE_PLAYING
  | STATE_GAMEOVER, STATE_GAMEOVER | STATE_QUIT, STATE_QUIT => true
  | _, _ => false
  end.

(** [struct Game]. [winner] holds the result of [determineWinner]: 0 is
    [EMPTY], 1 is [BLACK], 2 is [WHITE]. *)
Record Game : Type := mkGame {
  game_board : Board;
  mode : GameMode;
  state : GameState;
  showHints : bool;
  aiThinking : bool;
  winner : Stone
}.

Definition with_game_board (game : Game) (b : Board) : Game :=
  mkGame b (mode game) (state game) (showHints game) (aiThinking game) (winner game).
Definition with_aiThinking (game : Game) (t : bool) : Game :=
  mkGame (game_board game) (mode game) (state game) (showHints game) t (winner game).

(** [void initGame(Game* game)] *)
Definition initGame : Game := mkGame initBoard MODE_PVP STATE_PLAYING true false EMPTY.

(** [void endGameManually(Game* game)] *)
Definition endGameManually (game : Game) : Game :=
  if negb (state_eqb (state game) STATE_PLAYING) then game
  else
    let b := calculateLiberties (game_board game) in
    mkGame b (mode game) STATE_GAMEOVER (showHints game) (aiThinking game)
      (determineWinner b).

(** The counting loop of [updateGame]: [None] when the function returns
    from inside the loop (more than 10 empty cells), the final
    [emptyCount] otherwise. *)
Fixpoint countEmptyCells (g : Grid) (cells : list Position) (emptyCount : Z) : option Z :=
  match cells with
  | [] => Some emptyCount
  | pos :: rest =>
    if stone_eqb (cell g pos) EMPTY then
      if 10 <? emptyCount + 1 then None
      else countEmptyCells g rest (emptyCount + 1)
    else countEmptyCells g rest emptyCount
  end.

(** [void updateGame(Game* game)] *)
Definition updateGame (game : Game) : Game :=
  let game1 := with_game_board game (calculateLiberties (game_board game)) in
  match countEmptyCells (board (game_board game1)) allCells 0 with
  | None => game1
  | Some emptyCount => if emptyCount <=? 10 then endGameManually game1 else game1
  end.

(** [bool handlePlayerMove(Game* game, Position pos)] *)
Definition handlePlayerMove (game : Game) (pos : Position) : bool * Game :=
  if negb (state_eqb (state game) STATE_PLAYING) then (false, game)
  else if mode_eqb (mode game) MODE_PVE
          && stone_eqb (currentPlayer (game_board game)) WHITE then (false, game)
  else
    let r := placeStone (game_board game) pos in
    let game1 := with_game_board game (snd r) in
    if fst r then (true, updateGame game1) else (false, game1).

(** [void toggleGameMode(Game* game)] *)
Definition toggleGameMode (game : Game) : Game :=
  mkGame (game_board game)
    (if mode_eqb (mode game) MODE_PVP then MODE_PVE else MODE_PVP)
    (state game) (showHints game) (aiThinking game) (winner game).

(** [void toggleHints(Game* game)] *)
Definition toggleHints (game : Game) : Game :=
  mkGame (game_board game) (mode game) (state game) (negb (showHints game))
    (aiThinking game) (winner game).

(** [bool handleUndo(Game* game)] *)
Definition handleUndo (game : Game) : bool * Game :=
  if negb (state_eqb (state game) STATE_PLAYING) then (false, game)
  else
    let r := undoMove (game_board game) in
    let game1 := with_game_board game (snd r) in
    if fst r && mode_eqb (mode game1) MODE_PVE
       && stone_eqb (currentPlayer (game_board game1)) WHITE
    then
      let r2 := undoMove (game_board game1) in
      (fst r2, with_game_board game1 (snd r2))
    else (fst r, game1).

(** [bool handleRedo(Game* game)] *)
Definition handleRedo (game : Game) : bool * Game :=
  if negb (state_eqb (state game) STATE_PLAYING) then (false, game)
  else
    let r := redoMove (game_board game) in
    let game1 := with_game_board game (snd r) in
    if fst r && mode_eqb (mode game1) MODE_PVE
       && stone_eqb (currentPlayer (game_board game1)) WHITE
    then
      let r2 := redoMove (game_board game1) in
      (fst r2, with_game_board game1 (snd r2))
    else (fst r, game1).

(** [bool isGameOver(Game* game)] *)
Definition isGameOver (game : Game) : bool := state_eqb (state game) STATE_GAMEOVER.

(** [const char* getViolationHint(Game* game, Position pos)]: [None] is
    [NULL]. The call of [isSuicideMove] writes into the board and writes the
    old value back; the game comes back next to the message. *)
Definition getViolationHint (game : Game) (pos : Position) : option String.string * Game :=
  if negb (showHints game) then (None, game)
  else if (px pos <? 0) || (BOARD_SIZE <=? px pos) || (py pos <? 0) || (BOARD_SIZE <=? py pos)
  then (Some "违规行为：位置超出棋盘范围"%string, game)
  else if negb (stone_eqb (cell (board (game_board game)) pos) EMPTY)
  then (Some "违规行为：该位置已有棋子"%string, game)
  else if isKoMove (game_board game) pos
  then (Some "违规行为：打劫"%string, game)
  else
    let r := isSuicideMove (game_board game) pos in
    let game1 := with_game_board game (snd r) in
    if fst r then (Some "违规行为：自杀"%string, game1) else (None, game1).

Section GameAI.

(** The oracles of the section [Search]: the values of [rand()] after the
    [srand] of [findBestMove], the values of [SDL_GetTicks()], and [log]. *)
Variable randSeq : nat -> nat.
Variable ticks : nat -> Z.
Variable clog : float -> float.

(** [bool handleAIMove(Game* game)] *)
Definition handleAIMove (game : Game) : bool * Game :=
  if negb (state_eqb (state game) STATE_PLAYING)
     || negb (mode_eqb (mode game) MODE_PVE)
     || negb (stone_eqb (currentPlayer (game_board game)) WHITE)
  then (false, game)
  else
    let config := initAIConfig in
    let best := bestMove (findBestMove randSeq ticks clog (game_board game) config) in
    let r := placeStone (game_board game) best in
    let game1 := with_game_board game (snd r) in
    if fst r then (true, updateGame game1) else (false, game1).

(** [bool makeAIMoveForCurrentPlayer(Game* game)] (ai.c) *)
Definition makeAIMoveForCurrentPlayer (game : Game) : bool * Game :=
  if negb (state_eqb (state game) STATE_PLAYING) then (false, game)
  else
    let game0 := with_aiThinking game true in
    let config := initAIConfig in
    let best := bestMove (findBestMove randSeq ticks clog (game_board game0) config) in
    let r := placeStone (game_board game0) best in
    let game1 := with_game_board game0 (snd r) in
    let game2 := if fst r then updateGame game1 else game1 in
    (fst r, with_aiThinking game2 false).

End GameAI.

(** ** gui.h, gui.c: the board on the screen *)

Definition WINDOW_WIDTH : Z := 800.
Definition WINDOW_HEIGHT : Z := 600.
Definition BOARD_MARGIN : Z := 50.
Definition CELL_SIZE : Z := 26.

(** [SDL_Rect]: the fields [x], [y], [w], [h]. *)
Record SDL_Rect : Type := mkRect { rect_x : Z; rect_y : Z; rect_w : Z; rect_h : Z }.

(** The rectangles of [struct GUI] (the window, the renderer and the
    textures are SDL objects and are left out). *)
Record GUI : Type := mkGUI {
  logoRect : SDL_Rect;
  boardRect : SDL_Rect;
  statusRect : SDL_Rect;
  violationRect : SDL_Rect;
  controlsRect : SDL_Rect
}.

(** The layout that [initGUI] sets up once SDL is initialised. *)
Definition initGUI : GUI :=
  let logo := mkRect 730 10 60 60 in
  let brd := mkRect BOARD_MARGIN (BOARD_MARGIN + 60)
               (CELL_SIZE * (BOARD_SIZE - 1)) (CELL_SIZE * (BOARD_SIZE - 1)) in
  let status_x := BOARD_MARGIN + rect_w brd + 20 in
  let status := mkRect status_x (BOARD_MARGIN + 60) (WINDOW_WIDTH - status_x - 20) 150 in
  let violation := mkRect BOARD_MARGIN (BOARD_MARGIN + rect_h brd + 70) (rect_w brd) 30 in
  let controls := mkRect (BOARD_MARGIN + rect_w brd + 20) (BOARD_MARGIN + rect_h status + 80)
                    (rect_w status) 200 in
  mkGUI logo brd status violation controls.

(** The pixel at which [renderBoard] centres the stone of a cell:
    [boardRect.x + x * CELL_SIZE], [boardRect.y + y * CELL_SIZE]. *)
Definition stoneCentre (gui : GUI) (pos : Position) : Z * Z :=
  (rect_x (boardRect gui) + px pos * CELL_SIZE, rect_y (boardRect gui) + py pos * CELL_SIZE).

(** [bool screenToBoardPos(GUI* gui, int screenX, int screenY, Position* boardPos)]:
    [None] when it returns [false]. [/] is the truncating division of C. *)
Definition screenToBoardPos (gui : GUI) (screenX screenY : Z) : option Position :=
  let r := boardRect gui in
  if (screenX <? rect_x r - Z.quot CELL_SIZE 2)
     || (rect_x r + rect_w r + Z.quot CELL_SIZE 2 <? screenX)
     || (screenY <? rect_y r - Z.quot CELL_SIZE 2)
     || (rect_y r + rect_h r + Z.quot CELL_SIZE 2 <? screenY)
  then None
  else
    let boardX := Z.quot (screenX - rect_x r + Z.quot CELL_SIZE 2) CELL_SIZE in
    let boardY := Z.quot (screenY - rect_y r + Z.quot CELL_SIZE 2) CELL_SIZE in
    let boardX := if boardX <? 0 then 0 else boardX in
    let boardX := if BOARD_SIZE <=? boardX then BOARD_SIZE - 1 else boardX in
    let boardY := if boardY <? 0 then 0 else boardY in
    let boardY := if BOARD_SIZE <=? boardY then BOARD_SIZE - 1 else boardY in
    Some (mkPos boardX boardY).

(** ** Vocabulary of the properties *)

(** A [19 x 19] array. *)
Definition wf2 {A : Type} (a : Array2 A) : Prop :=
  length a = Z.to_nat BOARD_SIZE /\ Forall (fun row => length row = Z.to_nat BOARD_SIZE) a.

(** The rule-engine operations a game applies to its board. *)
Inductive Op : Type :=
| OpPlace (pos : Position)
| OpUndo
| OpRedo.

Definition runOp (b : Board) (op : Op) : Board :=
  match op with
  | OpPlace pos => snd (placeStone b pos)
  | OpUndo => snd (undoMove b)
  | OpRedo => snd (redoMove b)
  end.

(** The board a game reaches from [initBoard]. *)
Definition runOps (ops : list Op) : Board := fold_left runOp ops initBoard.

(** The moves of a game played from [initBoard], each of them accepted. *)
Fixpoint playAll (b : Board) (moves : list Position) : option Board :=
  match moves with
  | [] => Some b
  | m :: rest =>
    let r := placeStone b m in
    if fst r then playAll (snd r) rest else None
  end.

(** [n] calls of [undoMove], each of them successful. *)
Fixpoint undoTimes (n : nat) (b : Board) : option Board :=
  match n with
  | O => Some b
  | S n' =>
    let r := undoMove b in
    if fst r then undoTimes n' (snd r) else None
  end.

(** The board fields and the current snapshot agree. *)
Definition synced (b : Board) : Prop := createHistoryNode b = h_cur (history b).

(** The capture counters of [n1] are not above those of [n2]. *)
Definition capLe (n1 n2 : BoardHistory) : Prop :=
  h_blackCaptures n1 <= h_blackCaptures n2 /\ h_whiteCaptures n1 <= h_whiteCaptures n2.

Fixpoint monoPrev (cur : BoardHistory) (prev : list BoardHistory) : Prop :=
  match prev with
  | [] => True
  | p :: ps => capLe p cur /\ monoPrev p ps
  end.

Fixpoint monoNext (cur : BoardHistory) (next : list BoardHistory) : Prop :=
  match next with
  | [] => True
  | n :: ns => capLe cur n /\ monoNext n ns
  end.

(** The counter that [captureDeadStones] credits when [mover] captures. *)
Definition capturesOf (mover : Stone) (b : Board) : Z :=
  if stone_eqb mover BLACK then blackCaptures b else whiteCaptures b.

(** The reference reconstruction of the specification: the moves on the
    path from the root to the node, each played once, in that order. *)
Definition replayOnce (b : Board) (pathMoves : list Position) : Board :=
  fold_left (fun acc m => snd (placeStone acc m)) pathMoves b.

(** The moves on the path to a node, from the root's child down to the
    node, read off its parent chain. *)
Definition pathMoves (chain : list MCTSNode) : list Position :=
  map move (rev (removelast chain)).

(** The fields [captureDeadStones] never writes before its final counter
    update. *)
Definition sameFrame (b b' : Board) : Prop :=
  currentPlayer b' = currentPlayer b /\ lastMove b' = lastMove b /\
  koActive b' = koActive b /\
  blackCaptures b' = blackCaptures b /\ whiteCaptures b' = whiteCaptures b /\
  blackLiberties b' = blackLiberties b /\ whiteLiberties b' = whiteLiberties b /\
  history b' = history b.

(** The board of [placeStone] when the capture loop starts: the stone is
    written, [lastMove] is set, the ko fields are reset. *)
Definition placedBoard (b : Board) (pos : Position) : Board :=
  with_koPosition
    (with_koActive (with_lastMove (with_board b (set2 (board b) pos (currentPlayer b))) pos)
       false)
    noPosition.

(** What one scan of [captureDeadStones] has done when its count is 0, 1
    or more, relative to the board [b] the scan started from. *)
Definition scanShape (color : Stone) (b : Board) (st : CaptureScan) : Prop :=
  (cs_count st = 0 /\ board (cs_board st) = board b
   /\ koPosition (cs_board st) = koPosition b) \/
  (cs_count st = 1 /\ exists p, cell (board b) p = color
   /\ board (cs_board st) = set2 (board b) p EMPTY /\ koPosition (cs_board st) = p) \/
  2 <= cs_count st.

(** The invariant of a game: the board agrees with its current snapshot,
    and the capture counters do not decrease along the snapshot list. *)
Definition historyOk (b : Board) : Prop :=
  synced b /\ monoPrev (h_cur (history b)) (h_prev (history b))
  /\ monoNext (h_cur (history b)) (h_next (history b)).

(** The body of the loop over the four neighbours in [dfsMarkGroup]. *)
Definition dfsStep (fuel : nat) (g : Grid) (color : Stone)
    (acc : Marks * list Position) (next : Position) : Marks * list Position :=
  if isValidPosition next && negb (marked (fst acc) next) && stone_eqb (cell g next) color
  then dfsMarkGroup fuel g next color acc
  else acc.

(** A board on which a move captures one stone and leaves the stone just
    played alone with one liberty: a white stone without liberties stands
    at (5,5) (no game from [initBoard] leaves such a stone on the board),
    White also holds (1,0), and Black plays the corner (0,0). *)
Definition koExampleBoard : Board :=
  let grid :=
    fold_left (fun g '(p, s) => set2 g p s)
      [ (mkPos 5 5, WHITE); (mkPos 4 5, BLACK); (mkPos 6 5, BLACK);
        (mkPos 5 4, BLACK); (mkPos 5 6, BLACK); (mkPos 1 0, WHITE) ]
      (mkArray2 EMPTY) in
  mkBoard grid BLACK (mkPos 1 0) noPosition false 0 0 0 0
    (mkHistory [] (mkSnapshot grid (mkPos 1 0) 0 0 0 0) []).

(** The moves of the children of the root are legal on the board the
    search was started on. *)
Definition rootValid (b : Board) (root : MCTSNode) : Prop :=
  Forall (fun c => validMove b (move c) = true) (children root).

(** A snapshot without a last move holds the empty grid. *)
Definition snapOk (n : BoardHistory) : Prop :=
  (px (h_lastMove n) < 0 \/ py (h_lastMove n) < 0) -> h_board n = mkArray2 EMPTY.

(** A board without a last move is empty and has no ko restriction, and
    so are the snapshots of its history. *)
Definition openingInv (b : Board) : Prop :=
  ((px (lastMove b) < 0 \/ py (lastMove b) < 0) ->
     board b = mkArray2 EMPTY /\ koActive b = false) /\
  Forall snapOk (h_prev (history b)) /\ snapOk (h_cur (history b))
  /\ Forall snapOk (h_next (history b)).

(** Oracles for the closed examples: [rand()] always 0, a clock that
    stands still, and the identity for [log]. *)
Definition rand0 : nat -> nat := fun _ => 0%nat.
Definition ticks0 : nat -> Z := fun _ => 0.
Definition log0 : float -> float := fun v => v.

(** A clock that is past the time limit at its second reading. *)
Definition ticksLate : nat -> Z := fun n => match n with O => 0 | S _ => 5000 end.

(** The cells [visited] has not marked yet. *)
Definition unmarkedCount (m : Marks) : nat :=
  length (filter (fun p => marked m p = false) allCells).

(** A playable empty cell. *)
Definition emptyAt (g : Grid) (p : Position) : Prop :=
  isValidPosition p = true /\ cell g p = EMPTY.

(** [q] is reached from [p] through orthogonally adjacent empty cells: the
    two lie in the same maximal empty region. *)
Inductive emptyPath (g : Grid) : Position -> Position -> Prop :=
| emptyPath_refl (p : Position) : emptyAt g p -> emptyPath g p p
| emptyPath_step (p q r : Position) :
    emptyPath g p q -> r ∈ neighbours q -> emptyAt g r -> emptyPath g p r.

(** The empty region of [p] borders a stone of colour [c]. *)
Definition regionTouches (g : Grid) (p : Position) (c : Stone) : Prop :=
  exists q r, emptyPath g p q /\ r ∈ neighbours q /\ isValidPosition r = true
              /\ cell g r = c.

(** [p] is an empty cell whose region borders stones of colour [c] and no
    stone of the other colour. *)
Definition territoryOf (g : Grid) (c : Stone) (p : Position) : Prop :=
  emptyAt g p /\ regionTouches g p c /\ ~ regionTouches g p (otherPlayer c).

(** [m'] is a [visited] array that holds every mark of [m]. *)
Definition marksGrow (m m' : Marks) : Prop :=
  wf2 m' /\ forall q, marked m q = true -> marked m' q = true.

(** The stones of one colour on the grid. *)
Definition stoneCount (g : Grid) (color : Stone) : nat :=
  length (filter (fun p => cell g p = color) allCells).

(** The measure of the flood fill of [determineWinner]: cells not yet
    marked, and cells waiting in the queue. *)
Definition territoryMeasure (st : Territory) : nat :=
  (unmarkedCount (t_visited st) + length (t_queue st))%nat.

(** No empty region is split by the marks of [m]. *)
Definition regionClosed (g : Grid) (m : Marks) : Prop :=
  forall p q, marked m p = true -> emptyPath g p q -> marked m q = true.

(** What the neighbour [r] of a cell taken from the queue has led to. *)
Definition neighbourSeen (g : Grid) (st : Territory) (r : Position) : Prop :=
  (cell g r = EMPTY -> marked (t_visited st) r = true) /\
  (cell g r = BLACK -> t_black st = true) /\
  (cell g r = WHITE -> t_white st = true).

(** The invariant of one flood fill started at [start] on the marks [v0]:
    [popped] are the cells already taken from the queue, [chk d r] the
    pairs of a cell and a neighbour that were looked at. *)
Definition fillInv (g : Grid) (v0 : Marks) (start : Position) (popped : list Position)
    (chk : Position -> Position -> Prop) (st : Territory) : Prop :=
  wf2 (t_visited st) /\
  NoDup (popped ++ t_queue st) /\
  start ∈ popped ++ t_queue st /\
  (forall q, marked (t_visited st) q = true
             <-> marked v0 q = true \/ q ∈ popped ++ t_queue st) /\
  (forall q, q ∈ popped ++ t_queue st -> emptyPath g start q /\ marked v0 q = false) /\
  t_size st = Z.of_nat (length (popped ++ t_queue st)) /\
  (forall d r, chk d r -> isValidPosition r = true -> neighbourSeen g st r) /\
  (t_black st = true -> regionTouches g start BLACK) /\
  (t_white st = true -> regionTouches g start WHITE).

(** The invariant of the second pass of [determineWinner], after the cells
    [seen]: the marked cells are whole empty regions, and the points added
    to the two stone counts are the marked cells of each side's territory. *)
Definition scoreInv (g : Grid) (baseBlack baseWhite : Z) (seen : list Position)
    (st : ScoreScan) : Prop :=
  wf2 (ss_visited st) /\
  (forall p, marked (ss_visited st) p = true -> emptyAt g p) /\
  regionClosed g (ss_visited st) /\
  (forall p, p ∈ seen -> emptyAt g p -> marked (ss_visited st) p = true) /\
  exists tb tw,
    NoDup tb /\
    (forall p, p ∈ tb <-> marked (ss_visited st) p = true /\ territoryOf g BLACK p) /\
    ss_black st = baseBlack + Z.of_nat (length tb) /\
    NoDup tw /\
    (forall p, p ∈ tw <-> marked (ss_visited st) p = true /\ territoryOf g WHITE p) /\
    ss_white st = baseWhite + Z.of_nat (length tw).


(** ** Vocabulary of the game properties *)

(** What the event loop does to the game: the handlers of game.c and ai.c,
    the AI handlers with the oracles of their search. *)
Inductive GameOp : Type :=
| GoPlayerMove (pos : Position)
| GoAIMove (randSeq : nat -> nat) (ticks : nat -> Z) (clog : float -> float)
| GoAIForCurrent (randSeq : nat -> nat) (ticks : nat -> Z) (clog : float -> float)
| GoToggleMode
| GoToggleHints
| GoUndo
| GoRedo
| GoUpdate
| GoEnd
| GoHint (pos : Position).

Definition runGameOp (game : Game) (op : GameOp) : Game :=
  match op with
  | GoPlayerMove pos => snd (handlePlayerMove game pos)
  | GoAIMove randSeq ticks clog => snd (handleAIMove randSeq ticks clog game)
  | GoAIForCurrent randSeq ticks clog => snd (makeAIMoveForCurrentPlayer randSeq ticks clog game)
  | GoToggleMode => toggleGameMode game
  | GoToggleHints => toggleHints game
  | GoUndo => snd (handleUndo game)
  | GoRedo => snd (handleRedo game)
  | GoUpdate => updateGame game
  | GoEnd => endGameManually game
  | GoHint pos => snd (getViolationHint game pos)
  end.

(** The game reached from [initGame]. *)
Definition runGame (ops : list GameOp) : Game := fold_left runGameOp ops initGame.

(** Whose turn it is, read off the snapshot list: Black when an even
    number of snapshots lies before the current one. *)
Definition turnOf (b : Board) : Stone :=
  if Nat.even (length (h_prev (history b))) then BLACK else WHITE.

(** The empty cells of the grid. *)
Definition emptyCells (g : Grid) : nat := stoneCount g EMPTY.

(** ** Vocabulary of the group properties *)

(** [q] is reached from [p] through orthogonally adjacent cells that all
    hold [c]: the two lie in the same group (for [c = EMPTY], in the same
    empty region). *)
Inductive stonePath (g : Grid) (c : Stone) : Position -> Position -> Prop :=
| stonePath_refl (p : Position) :
    isValidPosition p = true -> cell g p = c -> stonePath g c p p
| stonePath_step (p q r : Position) :
    stonePath g c p q -> r ∈ neighbours q -> isValidPosition r = true -> cell g r = c ->
    stonePath g c p r.

(** [r] is a liberty of the group of [p]: an empty cell next to a stone of
    the group. *)
Definition libertyOf (g : Grid) (p r : Position) : Prop :=
  exists q, stonePath g (cell g p) p q /\ r ∈ neighbours q /\ emptyAt g r.

(** The marks of [m] do not cut a group of colour [c] in two: a marked
    stone of that colour has its neighbours of that colour marked. *)
Definition groupClosed (g : Grid) (c : Stone) (m : Marks) : Prop :=
  forall p n, marked m p = true -> cell g p = c -> n ∈ neighbours p ->
              isValidPosition n = true -> cell g n = c -> marked m n = true.

(** The invariant of the loop over the neighbours in [dfsMarkGroup] at
    [pos], started with the marks [m0] and the group [grp0]: [new] are the
    cells added after [pos]. *)
Definition dfsInv (g : Grid) (c : Stone) (m0 : Marks) (grp0 : list Position) (pos : Position)
    (bound : nat) (acc : Marks * list Position) (new : list Position) : Prop :=
  snd acc = grp0 ++ pos :: new /\ NoDup (pos :: new) /\ wf2 (fst acc) /\
  (forall q, marked (fst acc) q = true <-> marked m0 q = true \/ q ∈ pos :: new) /\
  (forall q, q ∈ pos :: new -> marked m0 q = false /\ stonePath g c pos q) /\
  (forall q n, q ∈ new -> n ∈ neighbours q -> isValidPosition n = true -> cell g n = c ->
               marked (fst acc) n = true) /\
  (unmarkedCount (fst acc) <= bound)%nat.

(** The invariant of the two loops of [calculateGroupLiberties] over the
    stones [group]: [libs] are the liberties counted so far, [seen q r] the
    pairs of a stone and a neighbour already looked at. *)
Definition libertyInv (g : Grid) (group : list Position) (libs : list Position)
    (seen : Position -> Position -> Prop) (acc : Marks * Z) : Prop :=
  wf2 (fst acc) /\ NoDup libs /\
  (forall r, marked (fst acc) r = true <-> r ∈ libs) /\
  snd acc = Z.of_nat (length libs) /\
  (forall r, r ∈ libs -> emptyAt g r /\ exists q, q ∈ group /\ r ∈ neighbours q) /\
  (forall q r, seen q r -> emptyAt g r -> r ∈ libs).

(** A stone of colour [c] whose group has no liberty. *)
Definition deadStone (g : Grid) (c : Stone) (p : Position) : Prop :=
  isValidPosition p = true /\ cell g p = c /\ ~ exists r, libertyOf g p r.

(** The invariant of the scan of [captureDeadStones] for the colour [c] on
    the grid [g0], after the cells [seen]: [removed] are the stones taken
    off the board so far. *)
Definition captureInv (g0 : Grid) (c : Stone) (seen : list Position) (st : CaptureScan)
    (removed : list Position) : Prop :=
  wf2 (cs_visited st) /\ NoDup removed /\
  (forall p, p ∈ removed <-> marked (cs_visited st) p = true /\ deadStone g0 c p) /\
  (forall p, p ∈ removed -> cell (board (cs_board st)) p = EMPTY) /\
  (forall p, p ∉ removed -> cell (board (cs_board st)) p = cell g0 p) /\
  (forall p, marked (cs_visited st) p = true -> cell g0 p = c) /\
  groupClosed g0 c (cs_visited st) /\
  (forall p, p ∈ seen -> cell g0 p = c -> marked (cs_visited st) p = true) /\
  cs_count st = Z.of_nat (length removed).

(** Every stone on the grid belongs to a group with a liberty. *)
Definition noDeadStones (g : Grid) : Prop :=
  forall p, isValidPosition p = true -> cell g p <> EMPTY -> exists r, libertyOf g p r.

Definition snapAlive (n : BoardHistory) : Prop :=
  wf2 (h_board n) /\ noDeadStones (h_board n).

(** The invariant of the boards of a game: the grid is a 19 x 19 array on
    which every group has a liberty, the player to move is the one the
    snapshot list gives, no ko restriction is in force, and the grids of
    the snapshots are of the same kind. *)
Definition boardAlive (b : Board) : Prop :=
  wf2 (board b) /\ noDeadStones (board b) /\ currentPlayer b = turnOf b /\
  koActive b = false /\
  snapAlive (h_cur (history b)) /\ Forall snapAlive (h_prev (history b)) /\
  Forall snapAlive (h_next (history b)).

(** ** Vocabulary of the search properties *)

(** Induction on the search tree: a property holds of every node when it
    holds of a node as soon as it holds of its children. *)
Fixpoint MCTSNode_tree_ind (P : MCTSNode -> Prop)
    (step : forall m p v w kids, List.Forall P kids -> P (mkNode m p v w kids))
    (n : MCTSNode) : P n :=
  match n with
  | mkNode m p v w kids =>
    step m p v w kids
      ((fix go (l : list MCTSNode) : List.Forall P l :=
          match l with
          | [] => @List.Forall_nil _ P
          | c :: l' => @List.Forall_cons _ P c l' (MCTSNode_tree_ind P step c) (go l')
          end) kids)
  end.

(** A path of child indices that leads to a node of the tree. *)
Definition validPath (root : MCTSNode) (path : list nat) : Prop :=
  exists n, nodeAt root path = Some n.

(** The sum of the liberty counts of the groups of colour [c] that the
    stones [reps] stand for. *)
Definition libertySum (g : Grid) (c : Stone) (reps : list Position) : Z :=
  foldr (fun p acc => countLiberties g p + acc) 0 (filter (fun p => cell g p = c) reps).

(** The invariant of the scan of [calculateLiberties] after the cells
    [seen]: [reps] are the stones a walk was started on, one in each group
    met so far. *)
Definition libertyScanInv (g : Grid) (seen reps : list Position) (st : LibertyScan) : Prop :=
  wf2 (ls_visited st) /\ NoDup reps /\
  (forall p, p ∈ reps -> isValidPosition p = true /\ cell g p <> EMPTY) /\
  (forall q, marked (ls_visited st) q = true
             <-> exists p, p ∈ reps /\ stonePath g (cell g p) p q) /\
  (forall p p', p ∈ reps -> p' ∈ reps -> stonePath g (cell g p) p p' -> p = p') /\
  (forall p, p ∈ seen -> cell g p <> EMPTY -> marked (ls_visited st) p = true) /\
  ls_black st = libertySum g BLACK reps /\ ls_white st = libertySum g WHITE reps.

(** A board without a last move whose center and star points are all
    taken (no game from [initBoard] has stones and no last move). *)
Definition starsTakenBoard : Board :=
  let grid := fold_left (fun g p => set2 g p BLACK) openingPoints (mkArray2 EMPTY) in
  mkBoard grid WHITE noPosition noPosition false 0 0 0 0
    (mkHistory [] (mkSnapshot grid noPosition 0 0 0 0) []).

(** A board without a last move on which two of the nine opening points
    are taken. *)
Definition openingExampleBoard : Board :=
  let grid := fold_left (fun g '(p, s) => set2 g p s)
                [(mkPos 9 9, BLACK); (mkPos 3 3, WHITE)] (mkArray2 EMPTY) in
  mkBoard grid BLACK noPosition noPosition false 0 0 0 0
    (mkHistory [] (mkSnapshot grid noPosition 0 0 0 0) []).

(** The board after Black's first move at (3,3), with [whiteCaptures] at
    the largest value of its type. *)
Definition overflowBoard : Board :=
  with_whiteCaptures (snd (placeStone initBoard (mkPos 3 3))) INT_MAX.
(** * Properties *)

Lemma cellFuel_succ : cellFuel = S (Nat.pred cellFuel).
Proof. reflexivity. Qed.

Lemma loopFuel_succ : loopFuel = S (S (Nat.pred cellFuel)).
Proof. reflexivity. Qed.

Lemma allCells_length : length allCells = cellFuel.
Proof. reflexivity. Qed.

Lemma isValidPosition_true (p : Position) :
  isValidPosition p = true <-> (0 <= px p < BOARD_SIZE /\ 0 <= py p < BOARD_SIZE).
Proof.
  unfold isValidPosition. rewrite !andb_true_iff, !Z.leb_le, !Z.ltb_lt. lia.
Qed.

(** The scans visit exactly the cells of the board. *)
Lemma allCells_valid (p : Position) : p ∈ allCells <-> isValidPosition p = true.
Proof.
  rewrite isValidPosition_true. unfold allCells, range19.
  rewrite list_elem_of_In, in_flat_map. split.
  - intros (yy & Hy & Hp). apply in_map_iff in Hp as (xx & <- & Hx).
    apply list_elem_of_In, elem_of_seqZ in Hx, Hy. cbn [px py]. lia.
  - intros [Hx Hy]. exists (py p). split.
    + apply list_elem_of_In, elem_of_seqZ. lia.
    + apply in_map_iff. exists (px p). split; [by destruct p|].
      apply list_elem_of_In, elem_of_seqZ. lia.
Qed.

Lemma neighbours_spec (p q : Position) :
  q ∈ neighbours p <->
  (q = mkPos (px p - 1) (py p) \/ q = mkPos (px p) (py p - 1)
   \/ q = mkPos (px p + 1) (py p) \/ q = mkPos (px p) (py p + 1)).
Proof.
  unfold neighbours, DX, DY. cbn [zip_with].
  rewrite !elem_of_cons, elem_of_nil.
  replace (px p + -1) with (px p - 1) by lia. replace (py p + -1) with (py p - 1) by lia.
  rewrite !Z.add_0_r. tauto.
Qed.

(** Adjacency is symmetric. *)
Lemma neighbours_sym (p q : Position) : q ∈ neighbours p -> p ∈ neighbours q.
Proof.
  rewrite !neighbours_spec. destruct p as [x y].
  intros [-> | [-> | [-> | ->]]]; cbn [px py].
  - right; right; left. f_equal; lia.
  - right; right; right. f_equal; lia.
  - left. f_equal; lia.
  - right; left. f_equal; lia.
Qed.

Lemma loopFuel_eq : loopFuel = S cellFuel.
Proof. reflexivity. Qed.


Lemma allCells_NoDup : NoDup allCells.
Proof. apply (bool_decide_unpack (NoDup allCells)). vm_compute. exact I. Qed.
(** The cell list and the fuel constants are unfolded by computation
    ([vm_compute]) only. *)
Opaque allCells cellFuel loopFuel.


(** ** Arrays *)


Lemma stone_eqb_eq (a b : Stone) : stone_eqb a b = true <-> a = b.
Proof. destruct a, b; simpl; split; congruence. Qed.

Lemma stone_eqb_refl (a : Stone) : stone_eqb a a = true.
Proof. by destruct a. Qed.

Lemma stone_eqb_neq (a b : Stone) : stone_eqb a b = false <-> a <> b.
Proof. destruct a, b; simpl; split; congruence. Qed.

Lemma pos_eqb_eq (p q : Position) : pos_eqb p q = true <-> p = q.
Proof.
  destruct p, q; unfold pos_eqb; simpl.
  rewrite andb_true_iff, !Z.eqb_eq. split; [intros [-> ->]; done | intros [= -> ->]; done].
Qed.

Lemma set2_restore {A : Type} (d : A) (a : Array2 A) (p : Position) (v : A) :
  set2 (set2 a p v) p (get2 d a p) = a.
Proof.
  unfold set2, get2. destruct (isValidPosition p); [|done].
  destruct (a !! Z.to_nat (py p)) as [row|] eqn:Hrow; [|by rewrite Hrow].
  pose proof (lookup_lt_Some _ _ _ Hrow) as Hlt.
  rewrite list_lookup_insert_eq by done.
  rewrite list_insert_insert_eq, list_insert_insert_eq.
  apply list_insert_id. rewrite Hrow. f_equal.
  destruct (row !! Z.to_nat (px p)) as [w|] eqn:Hx.
  - symmetry. by apply list_insert_id.
  - symmetry. apply list_insert_ge. by apply lookup_ge_None.
Qed.

Lemma wf2_set2 {A : Type} (a : Array2 A) (p : Position) (v : A) :
  wf2 a -> wf2 (set2 a p v).
Proof.
  intros [Hlen Hrows]. unfold set2.
  destruct (isValidPosition p); [|done].
  destruct (a !! Z.to_nat (py p)) as [row|] eqn:Hrow; [|done].
  split; [by rewrite length_insert|].
  apply Forall_insert; [done|]. rewrite length_insert.
  by eapply (Forall_lookup_1 _ _ _ _ Hrows Hrow).
Qed.

Lemma wf2_mkArray2 {A : Type} (v : A) : wf2 (mkArray2 v).
Proof.
  unfold wf2, mkArray2. split; [by rewrite length_replicate|].
  apply Forall_replicate. by rewrite length_replicate.
Qed.

Lemma get2_mkArray2 {A : Type} (d v : A) (p : Position) :
  isValidPosition p = true -> get2 d (mkArray2 v) p = v.
Proof.
  intros Hp. unfold get2, mkArray2. rewrite Hp.
  apply isValidPosition_true in Hp. unfold BOARD_SIZE in *.
  rewrite !lookup_replicate_2 by lia. done.
Qed.

Lemma get2_invalid {A : Type} (d : A) (a : Array2 A) (p : Position) :
  isValidPosition p = false -> get2 d a p = d.
Proof. intros Hp. unfold get2. by rewrite Hp. Qed.

Lemma get2_set2_same {A : Type} (d : A) (a : Array2 A) (p : Position) (v : A) :
  wf2 a -> isValidPosition p = true -> get2 d (set2 a p v) p = v.
Proof.
  intros [Hlen Hrows] Hp. unfold get2, set2. rewrite Hp.
  pose proof (proj1 (isValidPosition_true p) Hp) as [Hx Hy]. unfold BOARD_SIZE in *.
  destruct (a !! Z.to_nat (py p)) as [row|] eqn:Hrow.
  - rewrite list_lookup_insert_eq by (rewrite Hlen; lia).
    rewrite list_lookup_insert_eq; [done|].
    rewrite (Forall_lookup_1 _ _ _ _ Hrows Hrow). lia.
  - apply lookup_ge_None in Hrow. lia.
Qed.

Lemma get2_set2_other {A : Type} (d : A) (a : Array2 A) (p q : Position) (v : A) :
  p <> q -> get2 d (set2 a p v) q = get2 d a q.
Proof.
  intros Hne. unfold get2, set2.
  destruct (isValidPosition q) eqn:Hq; [|done].
  destruct (isValidPosition p) eqn:Hp; [|done].
  apply isValidPosition_true in Hp, Hq.
  destruct (a !! Z.to_nat (py p)) as [row|] eqn:Hrow; [|done].
  destruct (decide (Z.to_nat (py p) = Z.to_nat (py q))) as [Hy|Hy].
  - rewrite <- Hy, Hrow.
    rewrite list_lookup_insert_eq by (by eapply lookup_lt_Some).
    rewrite list_lookup_insert_ne; [done|].
    intros Hx. apply Hne. destruct p, q; simpl in *. f_equal; lia.
  - by rewrite list_lookup_insert_ne.
Qed.

(** A cell that reads as a stone can be written. *)
Lemma get2_set2_written {A : Type} (d : A) (a : Array2 A) (p : Position) (v : A) :
  get2 d a p <> d -> get2 d (set2 a p v) p = v.
Proof.
  unfold get2, set2. destruct (isValidPosition p) eqn:Hp; [|done].
  destruct (a !! Z.to_nat (py p)) as [row|] eqn:Hrow; [|done].
  destruct (row !! Z.to_nat (px p)) as [w|] eqn:Hx; [|done].
  intros _. rewrite list_lookup_insert_eq by (by eapply lookup_lt_Some).
  rewrite list_lookup_insert_eq by (by eapply lookup_lt_Some). done.
Qed.

Lemma with_board_same (b : Board) : with_board b (board b) = b.
Proof. by destruct b. Qed.

Lemma with_board_twice (b : Board) (g1 g2 : Grid) :
  with_board (with_board b g1) g2 = with_board b g2.
Proof. done. Qed.

(** ** The board after [placeStone] *)

(** Projections of a board through the field updates, and nothing else. *)
Ltac bsimpl :=
  cbn [fst snd negb board currentPlayer lastMove koPosition koActive blackCaptures
       whiteCaptures blackLiberties whiteLiberties history with_board with_currentPlayer
       with_lastMove with_koPosition with_koActive with_blackCaptures with_whiteCaptures
       with_liberties with_history saveBoardState calculateLiberties placedBoard
       createHistoryNode restoreFrom h_prev h_cur h_next h_board h_lastMove
       h_blackCaptures h_whiteCaptures h_blackLiberties h_whiteLiberties
       cs_board cs_visited cs_count].

Tactic Notation "bsimpl" "in" hyp_list(Hs) :=
  cbn [fst snd negb board currentPlayer lastMove koPosition koActive blackCaptures
       whiteCaptures blackLiberties whiteLiberties history with_board with_currentPlayer
       with_lastMove with_koPosition with_koActive with_blackCaptures with_whiteCaptures
       with_liberties with_history saveBoardState calculateLiberties placedBoard
       createHistoryNode restoreFrom h_prev h_cur h_next h_board h_lastMove
       h_blackCaptures h_whiteCaptures h_blackLiberties h_whiteLiberties
       cs_board cs_visited cs_count] in Hs.

(** [isSuicideMove] writes the stone and writes the old value back: the
    board it leaves is the board it was given. *)
Lemma isSuicideMove_restores (b : Board) (pos : Position) :
  snd (isSuicideMove b pos) = b.
Proof.
  unfold isSuicideMove.
  destruct (negb (isValidPosition pos) || negb (stone_eqb (cell (board b) pos) EMPTY));
    [done|].
  bsimpl. unfold cell. rewrite set2_restore. by destruct b.
Qed.

Lemma isValidMove_restores (b : Board) (pos : Position) :
  snd (isValidMove b pos) = b.
Proof.
  unfold isValidMove.
  destruct (negb (isValidPosition pos)); [done|].
  destruct (negb (stone_eqb (cell (board b) pos) EMPTY)); [done|].
  destruct (isKoMove b pos); [done|].
  destruct (fst (isSuicideMove b pos)); bsimpl; apply isSuicideMove_restores.
Qed.

Lemma placeStone_result (b : Board) (pos : Position) :
  fst (placeStone b pos) = validMove b pos.
Proof.
  unfold placeStone, validMove. by destruct (fst (isValidMove b pos)).
Qed.

Lemma placeStone_rejected (b : Board) (pos : Position) :
  validMove b pos = false -> placeStone b pos = (false, b).
Proof.
  unfold validMove. intros Hv. unfold placeStone. rewrite Hv.
  change (negb false) with true. cbv iota.
  by rewrite isValidMove_restores.
Qed.

(** An accepted move, step by step. *)
Lemma placeStone_eq (b : Board) (pos : Position) :
  validMove b pos = true ->
  placeStone b pos
  = (true,
     let r := captureLoop loopFuel (placedBoard b pos) (otherPlayer (currentPlayer b)) 0 in
     let b6 := saveBoardState (calculateLiberties (koCheck (snd r) pos (fst r))) in
     with_currentPlayer b6 (otherPlayer (currentPlayer b6))).
Proof.
  unfold validMove. intros Hv. unfold placeStone. rewrite Hv.
  change (negb true) with false. cbv iota.
  rewrite isValidMove_restores. reflexivity.
Qed.

Lemma sameFrame_refl (b : Board) : sameFrame b b.
Proof. by repeat split. Qed.

Lemma sameFrame_trans (b1 b2 b3 : Board) :
  sameFrame b1 b2 -> sameFrame b2 b3 -> sameFrame b1 b3.
Proof.
  unfold sameFrame. intros (?&?&?&?&?&?&?&?) (?&?&?&?&?&?&?&?).
  repeat split; congruence.
Qed.

Lemma captureStep_frame (color : Stone) (st : CaptureScan) (pos : Position) :
  sameFrame (cs_board st) (cs_board (captureStep color st pos)) /\
  cs_count st <= cs_count (captureStep color st pos).
Proof.
  unfold captureStep.
  destruct (_ && _); [|split; [apply sameFrame_refl|lia]].
  destruct (_ =? 0); bsimpl; (split; [by repeat split|lia]).
Qed.

Lemma captureScan_frame (color : Stone) (cells : list Position) (st : CaptureScan) :
  sameFrame (cs_board st) (cs_board (fold_left (captureStep color) cells st)) /\
  cs_count st <= cs_count (fold_left (captureStep color) cells st).
Proof.
  revert st. induction cells as [|p cells IH]; intros st; cbn [fold_left].
  - split; [apply sameFrame_refl|lia].
  - destruct (IH (captureStep color st p)) as [Hf Hc].
    destruct (captureStep_frame color st p) as [Hf1 Hc1].
    split; [by eapply sameFrame_trans|lia].
Qed.

Lemma captureDeadStones_board (b : Board) (color : Stone) :
  let st := fold_left (captureStep color) allCells (mkCaptureScan b noMarks 0) in
  fst (captureDeadStones b color) = cs_count st /\
  board (snd (captureDeadStones b color)) = board (cs_board st) /\
  koPosition (snd (captureDeadStones b color)) = koPosition (cs_board st).
Proof.
  unfold captureDeadStones. cbv zeta.
  generalize (fold_left (captureStep color) allCells (mkCaptureScan b noMarks 0)).
  intros st. destruct (stone_eqb color BLACK); [by repeat split|].
  destruct (stone_eqb color WHITE); by repeat split.
Qed.

(** [captureDeadStones] returns a count that is not negative, adds it to
    the counter of the capturing side, and keeps the player, the last move,
    the ko flag and the history. *)
Lemma captureDeadStones_counters (b : Board) (color : Stone) :
  let r := captureDeadStones b color in
  0 <= fst r /\
  blackCaptures b <= blackCaptures (snd r) /\ whiteCaptures b <= whiteCaptures (snd r) /\
  capturesOf (otherPlayer color) (snd r) = capturesOf (otherPlayer color) b
    + (if stone_eqb color EMPTY then 0 else fst r) /\
  currentPlayer (snd r) = currentPlayer b /\ lastMove (snd r) = lastMove b /\
  koActive (snd r) = koActive b /\ history (snd r) = history b.
Proof.
  unfold captureDeadStones. cbv zeta.
  pose proof (captureScan_frame color allCells (mkCaptureScan b noMarks 0)) as H.
  revert H. generalize (fold_left (captureStep color) allCells (mkCaptureScan b noMarks 0)).
  intros st [(Hp & Hl & Hk & Hb & Hw & _ & _ & Hh) Hc].
  bsimpl in Hp Hl Hk Hb Hw Hh Hc.
  destruct color; unfold capturesOf, otherPlayer, stone_eqb; bsimpl;
    repeat split; try done; try lia.
Qed.

Lemma captureLoop_counters (fuel : nat) (b : Board) (color : Stone) (total : Z) :
  let r := captureLoop fuel b color total in
  total <= fst r /\
  blackCaptures b <= blackCaptures (snd r) /\ whiteCaptures b <= whiteCaptures (snd r) /\
  currentPlayer (snd r) = currentPlayer b /\ lastMove (snd r) = lastMove b /\
  koActive (snd r) = koActive b /\ history (snd r) = history b.
Proof.
  revert b total. induction fuel as [|fuel IH]; intros b total; cbn [captureLoop].
  - bsimpl. repeat split; done || lia.
  - pose proof (captureDeadStones_counters b color) as H. cbv zeta in H.
    revert H. generalize (captureDeadStones b color).
    intros r (Hc & Hb & Hw & _ & Hp & Hl & Hk & Hh).
    destruct (0 <? fst r).
    + pose proof (IH (snd r) (total + fst r)) as H. cbv zeta in H.
      revert H. generalize (captureLoop fuel (snd r) color (total + fst r)).
      intros r' (Ht' & Hb' & Hw' & Hp' & Hl' & Hk' & Hh').
      repeat split; try lia; congruence.
    + bsimpl. repeat split; try lia; congruence.
Qed.

Lemma koCheck_frame (b : Board) (pos : Position) (total : Z) :
  board (koCheck b pos total) = board b /\
  koPosition (koCheck b pos total) = koPosition b /\
  sameFrame (with_koActive b false) (with_koActive (koCheck b pos total) false).
Proof.
  unfold koCheck. destruct (total =? 1); [|by repeat split].
  destruct (_ && _); by repeat split.
Qed.

Lemma placeStone_unfold (b : Board) (pos : Position) :
  validMove b pos = true ->
  let r := captureLoop loopFuel (placedBoard b pos) (otherPlayer (currentPlayer b)) 0 in
  let b' := snd (placeStone b pos) in
  board b' = board (snd r) /\ koPosition b' = koPosition (snd r) /\
  koActive b' = koActive (koCheck (snd r) pos (fst r)) /\
  blackCaptures b' = blackCaptures (snd r) /\ whiteCaptures b' = whiteCaptures (snd r) /\
  lastMove b' = pos /\ currentPlayer b' = otherPlayer (currentPlayer b) /\
  history b' = mkHistory (h_cur (history b) :: h_prev (history b)) (createHistoryNode b') [].
Proof.
  intros Hv. rewrite (placeStone_eq b pos Hv). cbv zeta.
  pose proof (captureLoop_counters loopFuel (placedBoard b pos)
                (otherPlayer (currentPlayer b)) 0) as H. cbv zeta in H.
  revert H.
  generalize (captureLoop loopFuel (placedBoard b pos) (otherPlayer (currentPlayer b)) 0).
  intros r (_ & _ & _ & Hp' & Hl' & _ & Hh').
  pose proof (koCheck_frame (snd r) pos (fst r)) as H.
  revert H. generalize (koCheck (snd r) pos (fst r)).
  intros b4 (Hb & Hk & (Hcp & Hlm & _ & Hbc & Hwc & _ & _ & Hh)).
  unfold calculateLiberties.
  generalize (fold_left (libertyStep (board b4)) allCells (mkLibertyScan noMarks 0 0)).
  intros ls.
  bsimpl in Hcp Hlm Hbc Hwc Hh Hp' Hl' Hh'. bsimpl.
  repeat split; try congruence.
  rewrite Hh, Hh'. reflexivity.
Qed.

(** The board after an accepted move. *)
Lemma placeStone_accepted (b : Board) (pos : Position) :
  validMove b pos = true ->
  let b' := snd (placeStone b pos) in
  history b' = mkHistory (h_cur (history b) :: h_prev (history b)) (createHistoryNode b') [] /\
  lastMove b' = pos /\
  currentPlayer b' = otherPlayer (currentPlayer b) /\
  blackCaptures b <= blackCaptures b' /\ whiteCaptures b <= whiteCaptures b'.
Proof.
  intros Hv.
  pose proof (placeStone_unfold b pos Hv) as H. cbv zeta in H.
  pose proof (captureLoop_counters loopFuel (placedBoard b pos)
                (otherPlayer (currentPlayer b)) 0) as H'. cbv zeta in H'.
  revert H H'.
  generalize (captureLoop loopFuel (placedBoard b pos) (otherPlayer (currentPlayer b)) 0).
  generalize (snd (placeStone b pos)).
  intros b' r (_ & _ & _ & Hbc & Hwc & Hl & Hp & Hh) (_ & Hb & Hw & _).
  bsimpl in Hb Hw. cbv zeta. rewrite Hbc, Hwc. done.
Qed.

(** ** C1: an illegal move changes nothing *)

(** C1. For every board and position: when [isValidMove] is false,
    [placeStone] returns false and the board it leaves is the board it was
    given, field by field (grid, player, last move, ko fields, capture and
    liberty counts, history); [placeStone] returns true exactly when
    [isValidMove] is true, and a call that changes the board is one of
    those. *)
Theorem placeStone_illegal_no_mutation (b : Board) (pos : Position) :
  (fst (isValidMove b pos) = false -> placeStone b pos = (false, b)) /\
  (fst (isValidMove b pos) = true -> fst (placeStone b pos) = true) /\
  (snd (placeStone b pos) <> b -> fst (isValidMove b pos) = true) /\
  (fst (isValidMove b pos) = true -> snd (placeStone b pos) <> b).
Proof.
  pose proof (placeStone_rejected b pos) as Hfalse. unfold validMove in Hfalse.
  split; [exact Hfalse|]. split.
  { intros Hv. rewrite placeStone_result. exact Hv. }
  split.
  { intros Hne. destruct (fst (isValidMove b pos)) eqn:Hv; [reflexivity|].
    rewrite Hfalse in Hne by reflexivity. exfalso. by apply Hne. }
  intros Hv Heq. pose proof (placeStone_accepted b pos Hv) as H. cbv zeta in H.
  rewrite Heq in H. destruct H as (Hh & _).
  apply (f_equal (fun h => length (h_prev h))) in Hh.
  cbn [h_prev length] in Hh. lia.
Qed.

(** ** The snapshot list *)

Lemma createHistoryNode_restoreFrom (b : Board) (h : History) :
  createHistoryNode (restoreFrom b h) = h_cur h.
Proof. unfold createHistoryNode, restoreFrom. simpl. by destruct (h_cur h). Qed.

Lemma undoMove_cases (b : Board) :
  (h_prev (history b) = [] /\ undoMove b = (false, b)) \/
  (exists p ps, h_prev (history b) = p :: ps /\
     undoMove b = (true, restoreFrom b (mkHistory ps p (h_cur (history b) :: h_next (history b))))).
Proof.
  unfold undoMove. destruct (h_prev (history b)) as [|p ps]; [by left|right; eauto].
Qed.

Lemma redoMove_cases (b : Board) :
  (h_next (history b) = [] /\ redoMove b = (false, b)) \/
  (exists n ns, h_next (history b) = n :: ns /\
     redoMove b = (true, restoreFrom b (mkHistory (h_cur (history b) :: h_prev (history b)) n ns))).
Proof.
  unfold redoMove. destruct (h_next (history b)) as [|n ns]; [by left|right; eauto].
Qed.

Lemma historyOk_init : historyOk initBoard.
Proof. by repeat split. Qed.

Lemma historyOk_placeStone (b : Board) (pos : Position) :
  historyOk b -> historyOk (snd (placeStone b pos)).
Proof.
  intros (Hs & Hp & Hn).
  destruct (validMove b pos) eqn:Hv; [|by rewrite placeStone_rejected].
  pose proof (placeStone_accepted b pos Hv) as H. cbv zeta in H. revert H.
  generalize (snd (placeStone b pos)). intros b' (Hh & _ & _ & Hb & Hw).
  unfold historyOk, synced. rewrite Hh. cbn [h_prev h_cur h_next monoPrev monoNext].
  repeat split; try done.
  - rewrite <- Hs. exact Hb.
  - rewrite <- Hs. exact Hw.
Qed.

Lemma historyOk_undoMove (b : Board) : historyOk b -> historyOk (snd (undoMove b)).
Proof.
  intros (Hs & Hp & Hn).
  destruct (undoMove_cases b) as [[_ ->]|(p & ps & Hps & ->)]; [done|].
  rewrite Hps in Hp. destruct Hp as [Hle Hp].
  unfold historyOk, synced. simpl. split; [by destruct p|]. split; [done|]. split; done.
Qed.

Lemma historyOk_redoMove (b : Board) : historyOk b -> historyOk (snd (redoMove b)).
Proof.
  intros (Hs & Hp & Hn).
  destruct (redoMove_cases b) as [[_ ->]|(n & ns & Hns & ->)]; [done|].
  rewrite Hns in Hn. destruct Hn as [Hle Hn].
  unfold historyOk, synced. simpl. split; [by destruct n|]. split; [|done]. split; done.
Qed.

Lemma historyOk_runOp (b : Board) (op : Op) : historyOk b -> historyOk (runOp b op).
Proof.
  destruct op; simpl;
    [apply historyOk_placeStone|apply historyOk_undoMove|apply historyOk_redoMove].
Qed.

Lemma historyOk_fold (ops : list Op) (b : Board) :
  historyOk b -> historyOk (fold_left runOp ops b).
Proof.
  revert b. induction ops as [|op ops IH]; intros b Hb; simpl; [done|].
  apply IH. by apply historyOk_runOp.
Qed.

Lemma historyOk_runOps (ops : list Op) : historyOk (runOps ops).
Proof. apply historyOk_fold, historyOk_init. Qed.

(** Undo, then redo, on a board that agrees with its current snapshot. *)
Lemma undo_then_redo (b b1 : Board) :
  synced b -> undoMove b = (true, b1) ->
  exists b2, redoMove b1 = (true, b2) /\
    board b2 = board b /\ lastMove b2 = lastMove b /\
    blackCaptures b2 = blackCaptures b /\ whiteCaptures b2 = whiteCaptures b /\
    blackLiberties b2 = blackLiberties b /\ whiteLiberties b2 = whiteLiberties b /\
    history b2 = history b.
Proof.
  intros Hs Hu.
  destruct (undoMove_cases b) as [[_ Hf]|(p & ps & Hps & Ht)]; [congruence|].
  rewrite Ht in Hu. injection Hu as <-.
  eexists. split; [reflexivity|].
  unfold synced, createHistoryNode in Hs. simpl. rewrite <- Hs. simpl.
  repeat split. rewrite <- Hps, Hs. by destruct (history b).
Qed.

(** C4. For every board a game reaches from [initBoard] (by any number of
    [placeStone], [undoMove] and [redoMove] calls, so in particular by at
    most 50 moves): when [undoMove] succeeds on it, the [redoMove] that
    follows succeeds too and gives back the grid, both capture counts and
    both liberty counts the board had before the undo. *)
Theorem undo_redo_roundtrip (ops : list Op) (b1 : Board) :
  undoMove (runOps ops) = (true, b1) ->
  exists b2, redoMove b1 = (true, b2) /\
    board b2 = board (runOps ops) /\
    blackCaptures b2 = blackCaptures (runOps ops) /\
    whiteCaptures b2 = whiteCaptures (runOps ops) /\
    blackLiberties b2 = blackLiberties (runOps ops) /\
    whiteLiberties b2 = whiteLiberties (runOps ops).
Proof.
  intros Hu.
  destruct (undo_then_redo (runOps ops) b1) as (b2 & Hr & Hg & _ & Hb & Hw & Hbl & Hwl & _);
    [apply historyOk_runOps|done|].
  exists b2. done.
Qed.

Lemma undo_redo_roundtrip_witness :
  exists b2,
    redoMove (snd (undoMove (runOps [OpPlace (mkPos 3 3); OpPlace (mkPos 3 4)]))) = (true, b2) /\
    board b2 = board (runOps [OpPlace (mkPos 3 3); OpPlace (mkPos 3 4)]) /\
    blackCaptures b2 = blackCaptures (runOps [OpPlace (mkPos 3 3); OpPlace (mkPos 3 4)]) /\
    whiteCaptures b2 = whiteCaptures (runOps [OpPlace (mkPos 3 3); OpPlace (mkPos 3 4)]) /\
    blackLiberties b2 = blackLiberties (runOps [OpPlace (mkPos 3 3); OpPlace (mkPos 3 4)]) /\
    whiteLiberties b2 = whiteLiberties (runOps [OpPlace (mkPos 3 3); OpPlace (mkPos 3 4)]).
Proof.
  apply (undo_redo_roundtrip [OpPlace (mkPos 3 3); OpPlace (mkPos 3 4)]).
  vm_compute. reflexivity.
Defined.

(** ** C5: a new move discards the redo list *)

Lemma redoMove_after_placeStone (b : Board) (pos : Position) (b' : Board) :
  placeStone b pos = (true, b') ->
  h_next (history b') = [] /\ redoMove b' = (false, b').
Proof.
  intros Hp.
  assert (Hv : validMove b pos = true).
  { rewrite <- placeStone_result, Hp. reflexivity. }
  pose proof (placeStone_accepted b pos Hv) as H. cbv zeta in H.
  rewrite Hp in H. cbn [snd] in H. destruct H as (Hh & _).
  assert (Hn : h_next (history b') = []) by (by rewrite Hh).
  split; [done|]. unfold redoMove. by rewrite Hn.
Qed.

(** C5. After one or more successful [undoMove] calls and then a successful
    [placeStone], no snapshot is left in front of the cursor: [redoMove]
    returns false and leaves the board as it is. *)
Theorem new_move_discards_redo (b b1 b2 : Board) (n : nat) (pos : Position) :
  (1 <= n)%nat ->
  undoTimes n b = Some b1 ->
  placeStone b1 pos = (true, b2) ->
  h_next (history b2) = [] /\ redoMove b2 = (false, b2).
Proof. intros _ _ Hp. by eapply redoMove_after_placeStone. Qed.

Lemma new_move_discards_redo_witness :
  let b := runOps [OpPlace (mkPos 3 3); OpPlace (mkPos 3 4); OpPlace (mkPos 4 4)] in
  let b1 := snd (undoMove (snd (undoMove b))) in
  let b2 := snd (placeStone b1 (mkPos 10 10)) in
  h_next (history b1) <> [] /\ h_next (history b2) = [] /\ redoMove b2 = (false, b2).
Proof.
  split; [by vm_compute|].
  apply (new_move_discards_redo
           (runOps [OpPlace (mkPos 3 3); OpPlace (mkPos 3 4); OpPlace (mkPos 4 4)])
           (snd (undoMove (snd (undoMove
              (runOps [OpPlace (mkPos 3 3); OpPlace (mkPos 3 4); OpPlace (mkPos 4 4)])))))
           _ 2 (mkPos 10 10)).
  - lia.
  - vm_compute. reflexivity.
  - vm_compute. reflexivity.
Defined.

(** ** C10: the capture counters *)



(** ** C3: the suicide test runs before any capture *)

Lemma libertyCount_nonneg (g : Grid) (group : list Position) :
  0 <= calculateGroupLiberties g group.
Proof.
  unfold calculateGroupLiberties.
  assert (H : forall l (acc : list (list bool) * Z), 0 <= snd acc ->
            0 <= snd (fold_left (fun acc' next =>
                if isValidPosition next && stone_eqb (cell g next) EMPTY
                   && negb (marked (fst acc') next)
                then (set2 (fst acc') next true, snd acc' + 1) else acc') l acc)).
  { induction l as [|n l IH]; intros acc Hacc; simpl; [done|].
    apply IH. destruct (_ && _); simpl; lia. }
  assert (H0 : 0 <= snd (noMarks, 0)) by (cbn [snd]; lia).
  revert H0. generalize (noMarks, 0).
  induction group as [|p group IH]; intros acc Hacc; cbn [fold_left]; [done|].
  apply IH. by apply H.
Qed.

(** On a stone, [hasLiberty] is the test "[countLiberties] is not zero". *)
Lemma hasLiberty_countLiberties (g : Grid) (pos : Position) :
  cell g pos <> EMPTY -> hasLiberty g pos = negb (countLiberties g pos =? 0).
Proof.
  intros Hc. unfold hasLiberty, countLiberties.
  destruct (isValidPosition pos) eqn:Hv; simpl.
  - destruct (stone_eqb (cell g pos) EMPTY) eqn:He; [by apply stone_eqb_eq in He|].
    set (n := calculateGroupLiberties _ _).
    pose proof (libertyCount_nonneg g
      (snd (dfsMarkGroup cellFuel g pos (cell g pos) (noMarks, [])))) as Hn.
    fold n in Hn. destruct (Z.ltb_spec 0 n), (Z.eqb_spec n 0); simpl; done || lia.
  - exfalso. apply Hc. unfold cell. by apply get2_invalid.
Qed.

(** C3. [isSuicideMove] answers, for an empty cell of the board, whether
    the mover's stone written there (no capture taken yet) belongs to a
    group without liberties. So there is a game from [initBoard] after
    which a move that would capture an adjacent opponent group, and have
    liberties once that group is off the board, is reported as suicide and
    rejected by [isValidMove] and [placeStone]. *)
Theorem suicide_before_capture :
  (forall b pos,
     isValidPosition pos = true -> cell (board b) pos = EMPTY ->
     fst (isSuicideMove b pos)
     = negb (hasLiberty (set2 (board b) pos (currentPlayer b)) pos)) /\
  (forall g pos, cell g pos <> EMPTY -> hasLiberty g pos = negb (countLiberties g pos =? 0)) /\
  (exists moves b pos q,
     playAll initBoard moves = Some b /\
     let mover := currentPlayer b in
     let placed := with_board b (set2 (board b) pos mover) in
     let afterCapture := captureDeadStones placed (otherPlayer mover) in
     q ∈ neighbours pos /\
     cell (board b) q = otherPlayer mover /\
     countLiberties (board placed) q = 0 /\
     0 < fst afterCapture /\
     cell (board (snd afterCapture)) q = EMPTY /\
     0 < countLiberties (board (snd afterCapture)) pos /\
     fst (isSuicideMove b pos) = true /\
     fst (isValidMove b pos) = false /\
     placeStone b pos = (false, b)).
Proof.
  split; [|split].
  - intros b pos Hv He. unfold isSuicideMove. rewrite Hv, He. done.
  - apply hasLiberty_countLiberties.
  - exists [mkPos 2 0; mkPos 1 0; mkPos 1 1; mkPos 0 1; mkPos 0 2; mkPos 10 10].
    eexists. exists (mkPos 0 0), (mkPos 1 0).
    split; [vm_compute; reflexivity|].
    split; [vm_compute; repeat constructor|].
    vm_compute. repeat split; congruence.
Qed.

(** ** C7: the board behind a search-tree node *)

Lemma applyMoves_replayOnce (b : Board) (chain : list MCTSNode) :
  applyMoves b (collectMoves chain) = replayOnce b (pathMoves chain).
Proof.
  unfold applyMoves, replayOnce, pathMoves, collectMoves.
  generalize (rev (removelast chain)). intros l. revert b.
  induction l as [|n l IH]; intros b; simpl; [done|]. apply IH.
Qed.

(** What the loop computes: it replays the path of the node, then the path
    of its parent, then the path of its grandparent, up to the root. *)
Lemma reconstructBoard_replays_every_prefix (b : Board) (current : MCTSNode)
    (parents : list MCTSNode) :
  reconstructBoard b (current :: parents)
  = match parents with
    | [] => b
    | _ :: _ => reconstructBoard (replayOnce b (pathMoves (current :: parents))) parents
    end.
Proof.
  destruct parents as [|m parents]; [reflexivity|].
  change (reconstructBoard b (current :: m :: parents))
    with (reconstructBoard (applyMoves b (collectMoves (current :: m :: parents)))
            (m :: parents)).
  by rewrite applyMoves_replayOnce.
Qed.

(** For the root and for its children the loop is the single replay. *)
Lemma reconstructBoard_depth_le_1 (b : Board) (chain : list MCTSNode) :
  (length chain <= 2)%nat -> reconstructBoard b chain = replayOnce b (pathMoves chain).
Proof.
  destruct chain as [|n [|r [|? ?]]]; simpl; intros Hlen; try done. lia.
Qed.

(** C7 fails on the code. White holds (0,0), Black (0,1) and (2,0), White
    to move. The node at depth 2 stands for White (1,0), then Black (1,1),
    which captures both white stones. The single replay leaves (1,0) empty
    with White to move. The loop of [expandNode] and [simulateGame] replays
    the path, and then the path of the parent again: (1,0) is empty now,
    White's stone is accepted a second time, and the board handed on has a
    white stone at (1,0) and Black to move. Both moves are candidates that
    [expandNode] generates at their nodes. *)
Theorem reconstruct_replays_parent_path_again :
  let b := runOps [OpPlace (mkPos 0 1); OpPlace (mkPos 0 0); OpPlace (mkPos 2 0)] in
  let n2 := createChildNode (mkPos 1 1) WHITE in
  let n1 := with_children (createChildNode (mkPos 1 0) BLACK) [n2] in
  let root := with_children (createRootNode b) [n1] in
  let chain := parentChain [] root [0%nat; 0%nat] in
  let used := reconstructBoard b chain in
  let reference := replayOnce b (pathMoves chain) in
  chain = [n2; n1; root] /\
  pathMoves chain = [mkPos 1 0; mkPos 1 1] /\
  mkPos 1 0 ∈ candidateMoves b /\
  mkPos 1 1 ∈ candidateMoves (replayOnce b [mkPos 1 0]) /\
  cell (board reference) (mkPos 1 0) = EMPTY /\ currentPlayer reference = WHITE /\
  cell (board used) (mkPos 1 0) = WHITE /\ currentPlayer used = BLACK /\
  used <> reference.
Proof.
  vm_compute. repeat split; try congruence; repeat constructor.
Qed.

(** ** C2: the ko restriction *)

Lemma dfsMarkGroup_S (fuel : nat) (g : Grid) (pos : Position) (color : Stone)
    (st : list (list bool) * list Position) :
  dfsMarkGroup (S fuel) g pos color st
  = fold_left (dfsStep fuel g color) (neighbours pos)
      (set2 (fst st) pos true, snd st ++ [pos]).
Proof. reflexivity. Qed.

(** [dfsMarkGroup] only appends to [group]. *)
Lemma dfsMarkGroup_extends (fuel : nat) (g : Grid) (pos : Position) (color : Stone)
    (st : list (list bool) * list Position) :
  exists rest, snd (dfsMarkGroup fuel g pos color st) = snd st ++ rest.
Proof.
  revert pos st. induction fuel as [|fuel IH]; intros pos st.
  - exists []. by rewrite app_nil_r.
  - rewrite dfsMarkGroup_S.
    assert (H : forall l acc, exists rest,
              snd (fold_left (dfsStep fuel g color) l acc) = snd acc ++ rest).
    { induction l as [|n l IHl]; intros acc; cbn [fold_left].
      - exists []. by rewrite app_nil_r.
      - destruct (IHl (dfsStep fuel g color acc n)) as [r1 Hr1]. rewrite Hr1.
        assert (exists r2, snd (dfsStep fuel g color acc n) = snd acc ++ r2) as [r2 Hr2].
        { unfold dfsStep. destruct (_ && _); [apply IH|]. exists []. by rewrite app_nil_r. }
        rewrite Hr2. exists (r2 ++ r1). by rewrite app_assoc. }
    destruct (H (neighbours pos) (set2 (fst st) pos true, snd st ++ [pos])) as [r Hr].
    rewrite Hr. cbn [snd]. exists (pos :: r). by rewrite <- app_assoc.
Qed.

(** With fuel left, the group starts with the cell the walk started at. *)
Lemma dfsMarkGroup_head (g : Grid) (pos : Position) (color : Stone)
    (m : list (list bool)) :
  exists rest, snd (dfsMarkGroup cellFuel g pos color (m, [])) = pos :: rest.
Proof.
  rewrite cellFuel_succ.
  destruct (dfsMarkGroup_extends (Nat.pred cellFuel) g pos color (m, [])) as [r0 _].
  rewrite dfsMarkGroup_S.
  assert (H : forall l acc, exists rest,
            snd (fold_left (dfsStep (Nat.pred cellFuel) g color) l acc) = snd acc ++ rest).
  { induction l as [|n l IHl]; intros acc; cbn [fold_left].
    - exists []. by rewrite app_nil_r.
    - destruct (IHl (dfsStep (Nat.pred cellFuel) g color acc n)) as [r1 Hr1]. rewrite Hr1.
      assert (exists r2, snd (dfsStep (Nat.pred cellFuel) g color acc n) = snd acc ++ r2)
        as [r2 Hr2].
      { unfold dfsStep. destruct (_ && _); [apply dfsMarkGroup_extends|].
        exists []. by rewrite app_nil_r. }
      rewrite Hr2. exists (r2 ++ r1). by rewrite app_assoc. }
  cbn [fst snd app].
  destruct (H (neighbours pos) (set2 m pos true, [pos])) as [r Hr].
  rewrite Hr. by exists r.
Qed.

Lemma captureStep_shape (color : Stone) (b : Board) (st : CaptureScan) (pos : Position) :
  scanShape color b st -> scanShape color b (captureStep color st pos).
Proof.
  intros Hs. unfold captureStep.
  destruct (stone_eqb (cell (board (cs_board st)) pos) color) eqn:Hc; [|exact Hs].
  destruct (negb (marked (cs_visited st) pos)); [|exact Hs].
  cbn [andb].
  destruct (dfsMarkGroup_head (board (cs_board st)) pos color (cs_visited st))
    as [rest Hg].
  revert Hg.
  generalize (dfsMarkGroup cellFuel (board (cs_board st)) pos color (cs_visited st, [])).
  intros r Hg. rewrite Hg.
  generalize (calculateGroupLiberties (board (cs_board st)) (pos :: rest)). intros libs.
  apply stone_eqb_eq in Hc.
  destruct (libs =? 0).
  - unfold scanShape. bsimpl. cbn [hd length].
    destruct Hs as [(Hn & Hb & Hk)|[(Hn & _)|Hn]].
    + destruct rest as [|q rest].
      * right; left. split; [cbn [length]; lia|]. exists pos.
        rewrite Hb in Hc. rewrite Hb.
        change (Z.of_nat 1 =? 1) with true. cbv iota. bsimpl.
        repeat split; exact Hc.
      * right; right. cbn [length]. lia.
    + right; right. lia.
    + right; right. lia.
  - unfold scanShape. bsimpl. exact Hs.
Qed.

Lemma captureScan_shape (color : Stone) (b : Board) (cells : list Position)
    (st : CaptureScan) :
  scanShape color b st -> scanShape color b (fold_left (captureStep color) cells st).
Proof.
  revert st. induction cells as [|p cells IH]; intros st Hs; cbn [fold_left]; [done|].
  by apply IH, captureStep_shape.
Qed.

Lemma captureDeadStones_shape (b : Board) (color : Stone) :
  let r := captureDeadStones b color in
  (fst r = 0 /\ board (snd r) = board b /\ koPosition (snd r) = koPosition b) \/
  (fst r = 1 /\ exists p, cell (board b) p = color
   /\ board (snd r) = set2 (board b) p EMPTY /\ koPosition (snd r) = p) \/
  2 <= fst r.
Proof.
  cbv zeta. pose proof (captureDeadStones_board b color) as H. cbv zeta in H.
  destruct H as (-> & -> & ->).
  apply (captureScan_shape color b allCells (mkCaptureScan b noMarks 0)).
  left. by repeat split.
Qed.

Lemma captureLoop_S (fuel : nat) (b : Board) (color : Stone) (total : Z) :
  captureLoop (S fuel) b color total
  = if 0 <? fst (captureDeadStones b color)
    then captureLoop fuel (snd (captureDeadStones b color)) color
           (total + fst (captureDeadStones b color))
    else (total + fst (captureDeadStones b color), snd (captureDeadStones b color)).
Proof. reflexivity. Qed.

(** A capture loop that totals one stone removed exactly one stone, in its
    first round, and [koPosition] is where that stone stood. *)
Lemma captureLoop_single (fuel : nat) (b : Board) (color : Stone) :
  fst (captureLoop (S (S fuel)) b color 0) = 1 ->
  exists p, cell (board b) p = color
    /\ board (snd (captureLoop (S (S fuel)) b color 0)) = set2 (board b) p EMPTY
    /\ koPosition (snd (captureLoop (S (S fuel)) b color 0)) = p.
Proof.
  rewrite captureLoop_S.
  pose proof (captureDeadStones_shape b color) as Hs. cbv zeta in Hs.
  revert Hs. generalize (captureDeadStones b color). intros r1 Hs.
  destruct (Z.ltb_spec 0 (fst r1)) as [Hpos|Hpos].
  - rewrite captureLoop_S.
    pose proof (captureDeadStones_shape (snd r1) color) as Hs2. cbv zeta in Hs2.
    pose proof (captureDeadStones_counters (snd r1) color) as Hc2. cbv zeta in Hc2.
    revert Hs2 Hc2. generalize (captureDeadStones (snd r1) color). intros r2 Hs2 (Hc2 & _).
    destruct (Z.ltb_spec 0 (fst r2)) as [Hpos2|Hpos2].
    + pose proof (captureLoop_counters fuel (snd r2) color (0 + fst r1 + fst r2)) as Ht.
      cbv zeta in Ht. revert Ht.
      generalize (captureLoop fuel (snd r2) color (0 + fst r1 + fst r2)).
      intros r3 (Ht & _) H1. lia.
    + cbn [fst snd]. intros H1.
      assert (H21 : fst r2 = 0) by lia.
      assert (H11 : fst r1 = 1) by lia.
      destruct Hs as [(Hc & _)|[(_ & p & Hp & Hb & Hk)|Hc]]; [lia| |lia].
      destruct Hs2 as [(_ & Hb2 & Hk2)|[(Hc2' & _)|Hc2']]; [|lia|lia].
      exists p. rewrite Hb2, Hk2. by repeat split.
  - cbn [fst snd]. intros H1.
    destruct Hs as [(Hc & _)|[(Hc & _)|Hc]]; lia.
Qed.

Lemma capturesOf_otherPlayer_twice (mover : Stone) (b : Board) :
  capturesOf (otherPlayer (otherPlayer mover)) b = capturesOf mover b.
Proof. by destruct mover. Qed.

Lemma otherPlayer_not_empty (c : Stone) : stone_eqb (otherPlayer c) EMPTY = false.
Proof. by destruct c. Qed.

(** The capture loop credits what it removed to the capturing side. *)
Lemma captureLoop_credit (fuel : nat) (b : Board) (color : Stone) (total : Z) :
  stone_eqb color EMPTY = false ->
  capturesOf (otherPlayer color) (snd (captureLoop fuel b color total))
  = capturesOf (otherPlayer color) b + (fst (captureLoop fuel b color total) - total).
Proof.
  intros Hc. revert b total. induction fuel as [|fuel IH]; intros b total.
  - cbn [captureLoop fst snd]. lia.
  - rewrite captureLoop_S.
    pose proof (captureDeadStones_counters b color) as H. cbv zeta in H.
    rewrite Hc in H. revert H. generalize (captureDeadStones b color).
    intros r (_ & _ & _ & Hcr & _).
    destruct (0 <? fst r).
    + rewrite IH, Hcr. lia.
    + cbn [fst snd]. rewrite Hcr. lia.
Qed.

Lemma isKoMove_inactive (b : Board) (q : Position) : koActive b = false -> isKoMove b q = false.
Proof. intros Hk. unfold isKoMove. by rewrite Hk. Qed.

Lemma isValidMove_ko (b : Board) : koActive b = true -> validMove b (koPosition b) = false.
Proof.
  intros Hk. unfold validMove, isValidMove.
  destruct (negb (isValidPosition (koPosition b))); [done|].
  destruct (negb (stone_eqb _ EMPTY)); [done|].
  unfold isKoMove. rewrite Hk, !Z.eqb_refl. done.
Qed.

(** The ko fields after an accepted move, from the capture loop. *)
Lemma placeStone_ko (b : Board) (pos : Position) :
  validMove b pos = true ->
  let mover := currentPlayer b in
  let b' := snd (placeStone b pos) in
  let r := captureLoop loopFuel (placedBoard b pos) (otherPlayer mover) 0 in
  let group := snd (dfsMarkGroup cellFuel (board b') pos mover (noMarks, [])) in
  capturesOf mover b' - capturesOf mover b = fst r /\
  board b' = board (snd r) /\ koPosition b' = koPosition (snd r) /\
  koActive b' = (fst r =? 1) && (Z.of_nat (length group) =? 1)
                && (calculateGroupLiberties (board b') group =? 1).
Proof.
  intros Hv. cbv zeta.
  pose proof (placeStone_unfold b pos Hv) as H. cbv zeta in H.
  pose proof (captureLoop_credit loopFuel (placedBoard b pos)
                (otherPlayer (currentPlayer b)) 0 (otherPlayer_not_empty _)) as Hcr.
  rewrite !capturesOf_otherPlayer_twice in Hcr.
  pose proof (captureLoop_counters loopFuel (placedBoard b pos)
                (otherPlayer (currentPlayer b)) 0) as Hcn. cbv zeta in Hcn.
  revert H Hcr Hcn.
  generalize (captureLoop loopFuel (placedBoard b pos) (otherPlayer (currentPlayer b)) 0).
  generalize (snd (placeStone b pos)).
  intros b' r (Hb & Hk & Ha & Hbc & Hwc & _) Hcr (_ & _ & _ & Hcp & _ & Hka & _).
  bsimpl in Hcp Hka.
  split.
  { unfold capturesOf in *. bsimpl in Hcr.
    destruct (stone_eqb (currentPlayer b) BLACK); lia. }
  split; [exact Hb|]. split; [exact Hk|].
  rewrite Ha. unfold koCheck. rewrite Hcp, <- Hb.
  generalize (dfsMarkGroup cellFuel (board b') pos (currentPlayer b) (noMarks, [])).
  intros gr. generalize (calculateGroupLiberties (board b') (snd gr)). intros libs.
  destruct (fst r =? 1); [|exact Hka]. cbn [andb].
  destruct ((Z.of_nat (length (snd gr)) =? 1) && (libs =? 1)); [reflexivity|exact Hka].
Qed.

(** C2. For every board on which [placeStone] succeeds, the ko flag after
    the move is set exactly when the move captured one stone in total (the
    mover's capture counter grew by 1) and the stone just played forms a
    group of size 1 with exactly 1 liberty. In that case [koPosition] is
    the cell of the captured stone: it held an opponent stone when the
    mover's stone was written, it is the one cell the captures emptied,
    and a play there by the next player is rejected by [isValidMove] and by
    [placeStone]. In every other case no position is a ko move after the
    move. *)
Theorem ko_after_single_capture (b b' : Board) (pos : Position) :
  placeStone b pos = (true, b') ->
  let mover := currentPlayer b in
  let placed := set2 (board b) pos mover in
  let captured := capturesOf mover b' - capturesOf mover b in
  let group := snd (dfsMarkGroup cellFuel (board b') pos mover (noMarks, [])) in
  let ko := (captured =? 1) && (Z.of_nat (length group) =? 1)
            && (calculateGroupLiberties (board b') group =? 1) in
  koActive b' = ko /\
  (ko = true ->
     cell placed (koPosition b') = otherPlayer mover /\
     board b' = set2 placed (koPosition b') EMPTY /\
     cell (board b') (koPosition b') = EMPTY /\
     fst (isValidMove b' (koPosition b')) = false /\
     placeStone b' (koPosition b') = (false, b')) /\
  (ko = false -> forall q, isKoMove b' q = false).
Proof.
  intros Hp. cbv zeta.
  assert (Hv : validMove b pos = true).
  { rewrite <- placeStone_result, Hp. reflexivity. }
  pose proof (placeStone_ko b pos Hv) as H. cbv zeta in H.
  rewrite Hp in H. cbn [snd] in H.
  pose proof (captureLoop_single (Nat.pred cellFuel) (placedBoard b pos)
                (otherPlayer (currentPlayer b))) as Hsingle.
  rewrite <- loopFuel_succ in Hsingle.
  revert H Hsingle.
  generalize (captureLoop loopFuel (placedBoard b pos) (otherPlayer (currentPlayer b)) 0).
  intros r (Hcap & Hb & Hk & Ha) Hsingle.
  rewrite Hcap.
  revert Ha.
  generalize (dfsMarkGroup cellFuel (board b') pos (currentPlayer b) (noMarks, [])).
  intros gr. generalize (calculateGroupLiberties (board b') (snd gr)). intros libs Ha.
  split; [exact Ha|]. split.
  - intros Hk1.
    assert (H1 : fst r = 1).
    { apply andb_true_iff in Hk1 as [Hk1 _]. apply andb_true_iff in Hk1 as [Hk1 _].
      by apply Z.eqb_eq. }
    destruct (Hsingle H1) as (p & Hpc & Hpb & Hpk).
    bsimpl in Hpc Hpb.
    rewrite Hk, Hpk, Hb, Hpb.
    assert (Hne : cell (set2 (board b) pos (currentPlayer b)) p <> EMPTY).
    { rewrite Hpc. by destruct (currentPlayer b). }
    assert (He : cell (set2 (set2 (board b) pos (currentPlayer b)) p EMPTY) p = EMPTY).
    { by apply get2_set2_written. }
    assert (Hvm : validMove b' p = false).
    { rewrite <- Hpk, <- Hk. apply isValidMove_ko. by rewrite Ha. }
    split; [exact Hpc|]. split; [reflexivity|]. split; [exact He|].
    split; [exact Hvm|]. by apply placeStone_rejected.
  - intros Hk0 q. apply isKoMove_inactive. by rewrite Ha.
Qed.

Lemma ko_after_single_capture_witness :
  let b' := snd (placeStone koExampleBoard (mkPos 0 0)) in
  koActive b' = true /\ koPosition b' = mkPos 5 5 /\
  cell (board koExampleBoard) (mkPos 5 5) = WHITE /\
  cell (board b') (koPosition b') = EMPTY /\
  placeStone b' (koPosition b') = (false, b').
Proof.
  cbv zeta.
  pose proof (ko_after_single_capture koExampleBoard
                (snd (placeStone koExampleBoard (mkPos 0 0))) (mkPos 0 0)) as H.
  cbv zeta in H.
  assert (Hp : placeStone koExampleBoard (mkPos 0 0)
               = (true, snd (placeStone koExampleBoard (mkPos 0 0))))
    by (vm_compute; reflexivity).
  destruct (H Hp) as (Hko & Htrue & _).
  match type of Htrue with
  | ?k = true -> _ => assert (Hk : k = true) by (vm_compute; reflexivity)
  end.
  destruct (Htrue Hk) as (_ & _ & He & _ & Hr).
  split; [vm_compute; reflexivity|].
  split; [vm_compute; reflexivity|].
  split; [vm_compute; reflexivity|].
  split; [exact He|exact Hr].
Defined.

(** The capture that starts a ko in a game is itself refused. Black holds
    (1,0), (0,1), (1,2); White holds (2,0), (1,1), (3,1), (2,2). Black at
    (2,1) would capture (1,1) and stand alone with one liberty, but before
    the capture the stone has no liberty, and [isValidMove] rejects it. *)
Example ko_capture_rejected_as_suicide :
  let moves := [ mkPos 1 0; mkPos 2 0; mkPos 0 1; mkPos 1 1; mkPos 1 2; mkPos 3 1;
                 mkPos 10 10; mkPos 2 2 ] in
  exists b, playAll initBoard moves = Some b /\
    currentPlayer b = BLACK /\
    countLiberties (board b) (mkPos 1 1) = 1 /\
    fst (isSuicideMove b (mkPos 2 1)) = true /\
    placeStone b (mkPos 2 1) = (false, b).
Proof.
  cbv zeta. eexists. split; [vm_compute; reflexivity|].
  vm_compute. repeat split; reflexivity.
Qed.

(** ** C8: the opening move *)

Lemma validMove_position (b : Board) (pos : Position) :
  validMove b pos = true -> isValidPosition pos = true.
Proof.
  unfold validMove, isValidMove. destruct (isValidPosition pos); [done|]. done.
Qed.

(** [isValidMove] reads the grid, the player and the ko fields only. *)
Lemma validMove_fields (b1 b2 : Board) (pos : Position) :
  board b1 = board b2 -> currentPlayer b1 = currentPlayer b2 ->
  koActive b1 = koActive b2 -> koPosition b1 = koPosition b2 ->
  validMove b1 pos = validMove b2 pos.
Proof.
  intros Hb Hc Hk Hp. unfold validMove, isValidMove, isKoMove, isSuicideMove.
  rewrite Hb, Hc, Hk, Hp.
  destruct (negb (isValidPosition pos)); [reflexivity|].
  destruct (negb (stone_eqb (cell (board b2) pos) EMPTY)); [reflexivity|].
  destruct (if negb (koActive b2) then false else _); [reflexivity|].
  cbn [orb fst snd].
  destruct (negb (hasLiberty _ pos)); reflexivity.
Qed.

Lemma openingInv_init : openingInv initBoard.
Proof.
  split; [intros _; split; reflexivity|].
  split; [constructor|]. split; [intros _; reflexivity|constructor].
Qed.

Lemma openingInv_placeStone (b : Board) (pos : Position) :
  openingInv b -> synced b -> openingInv (snd (placeStone b pos)).
Proof.
  intros (Hlive & Hprev & Hcur & Hnext) Hs.
  destruct (validMove b pos) eqn:Hv; [|by rewrite placeStone_rejected].
  pose proof (validMove_position b pos Hv) as Hpos.
  apply isValidPosition_true in Hpos.
  pose proof (placeStone_accepted b pos Hv) as H. cbv zeta in H. revert H.
  generalize (snd (placeStone b pos)). intros b' (Hh & Hl & _).
  unfold openingInv. rewrite Hh, Hl. cbn [h_prev h_cur h_next].
  split; [intros [?|?]; lia|].
  split; [by constructor|]. split; [|constructor].
  unfold snapOk, createHistoryNode. cbn [h_lastMove]. rewrite Hl. intros [?|?]; lia.
Qed.

Lemma openingInv_restore (b : Board) (h : History) :
  Forall snapOk (h_prev h) -> snapOk (h_cur h) -> Forall snapOk (h_next h) ->
  openingInv (restoreFrom b h).
Proof.
  intros Hp Hc Hn. unfold openingInv, restoreFrom. cbn [lastMove board koActive history].
  split; [|by repeat split]. intros Hnone. split; [by apply Hc|reflexivity].
Qed.

Lemma openingInv_runOp (b : Board) (op : Op) :
  openingInv b -> synced b -> openingInv (runOp b op).
Proof.
  intros Hi Hs. destruct op as [pos| |]; cbn [runOp].
  - by apply openingInv_placeStone.
  - destruct Hi as (Hlive & Hprev & Hcur & Hnext).
    destruct (undoMove_cases b) as [[_ ->]|(p & ps & Hps & ->)];
      [exact (conj Hlive (conj Hprev (conj Hcur Hnext)))|cbn [snd]].
    rewrite Hps in Hprev. inversion Hprev as [|? ? Hp Hps']; subst.
    apply openingInv_restore; cbn [h_prev h_cur h_next]; [done|done|by constructor].
  - destruct Hi as (Hlive & Hprev & Hcur & Hnext).
    destruct (redoMove_cases b) as [[_ ->]|(n & ns & Hns & ->)];
      [exact (conj Hlive (conj Hprev (conj Hcur Hnext)))|cbn [snd]].
    rewrite Hns in Hnext. inversion Hnext as [|? ? Hn Hns']; subst.
    apply openingInv_restore; cbn [h_prev h_cur h_next]; [by constructor|done|done].
Qed.

Lemma openingInv_fold (ops : list Op) (b : Board) :
  openingInv b -> historyOk b -> openingInv (fold_left runOp ops b).
Proof.
  revert b. induction ops as [|op ops IH]; intros b Hi Hh; cbn [fold_left]; [done|].
  apply IH; [apply openingInv_runOp; [done|apply Hh]|by apply historyOk_runOp].
Qed.

Lemma openingInv_runOps (ops : list Op) : openingInv (runOps ops).
Proof. apply openingInv_fold; [apply openingInv_init|apply historyOk_init]. Qed.

(** On an empty board without ko restriction the nine opening points are
    legal, whoever is to move. *)
Lemma openingMoves_empty_board (b : Board) :
  board b = mkArray2 EMPTY -> koActive b = false -> openingMoves b = openingPoints.
Proof.
  intros Hb Hk.
  set (b2 := mkBoard (mkArray2 EMPTY) (currentPlayer b) noPosition (koPosition b) false
               0 0 0 0 (mkHistory [] (mkSnapshot [] noPosition 0 0 0 0) [])).
  assert (Hv : forall pos, validMove b pos = validMove b2 pos).
  { intros pos. by apply validMove_fields. }
  unfold openingMoves.
  rewrite (list_filter_iff _ (fun pos => validMove b2 pos = true))
    by (intros pos; by rewrite Hv).
  unfold b2. generalize (koPosition b). intros kp.
  destruct (currentPlayer b); vm_compute; reflexivity.
Qed.

Lemma nth_filter_valid (b : Board) (l : list Position) (i : nat) :
  (i < length (filter (fun pos => validMove b pos = true) l))%nat ->
  validMove b (nth i (filter (fun pos => validMove b pos = true) l) noPosition) = true.
Proof.
  intros Hi. pose proof (nth_elem_of _ i noPosition Hi) as Hin.
  apply list_elem_of_filter in Hin. apply Hin.
Qed.

Lemma mod_index_lt (r : Z) (n : nat) :
  0 <= r -> (0 < n)%nat -> (Z.to_nat (r mod Z.of_nat n) < n)%nat.
Proof.
  intros Hr Hn. pose proof (Z.mod_pos_bound r (Z.of_nat n)). lia.
Qed.

(** The opening branch of [findBestMove]. *)
Lemma findBestMove_opening (randSeq : nat -> nat) (ticks : nat -> Z) (clog : float -> float)
    (b : Board) (config : AIConfig) :
  (px (lastMove b) < 0 \/ py (lastMove b) < 0) ->
  openingMoves b <> [] ->
  findBestMove randSeq ticks clog b config
  = mkSearchResult
      (nth (Z.to_nat (Z.of_nat (randSeq 0%nat) mod Z.of_nat (length (openingMoves b))))
         (openingMoves b) noPosition) 0.
Proof.
  intros Hnone Hne. unfold findBestMove. cbv zeta.
  assert (Hf : ((px (lastMove b) <? 0) || (py (lastMove b) <? 0)) = true).
  { apply orb_true_iff. rewrite !Z.ltb_lt. exact Hnone. }
  rewrite Hf. cbn [andb].
  destruct (openingMoves b) as [|p l] eqn:Ho; [done|].
  assert (Hlen : (0 <? Z.of_nat (length (p :: l))) = true).
  { apply Z.ltb_lt. cbn [length]. lia. }
  rewrite Hlen. reflexivity.
Qed.

(** In a game: on every board reached from [initBoard] that has no last
    move, all nine opening points (the center and the eight star points)
    are legal, and [findBestMove] returns the one whose index in that list
    is [rand() % 9]. [runMCTS] is not called. *)
Corollary findBestMove_first_move_of_game (randSeq : nat -> nat) (ticks : nat -> Z)
    (clog : float -> float) (ops : list Op) (config : AIConfig) :
  let b := runOps ops in
  (px (lastMove b) < 0 \/ py (lastMove b) < 0) ->
  let r := findBestMove randSeq ticks clog b config in
  openingMoves b = openingPoints /\ NoDup openingPoints /\ length openingPoints = 9%nat /\
  bestMove r = nth (Z.to_nat (Z.of_nat (randSeq 0%nat) mod 9)) openingPoints noPosition /\
  bestMove r ∈ openingPoints /\
  validMove b (bestMove r) = true /\
  searchIterations r = 0.
Proof.
  cbv zeta. intros Hnone.
  destruct (openingInv_runOps ops) as (Hlive & _).
  destruct (Hlive Hnone) as [Hb Hk].
  pose proof (openingMoves_empty_board _ Hb Hk) as Ho.
  assert (Hne : openingMoves (runOps ops) <> []) by (by rewrite Ho).
  rewrite (findBestMove_opening randSeq ticks clog _ config Hnone Hne).
  cbn [bestMove searchIterations].
  generalize dependent (runOps ops). intros b _ _ _ Hk Ho _.
  assert (Hi : (Z.to_nat (Z.of_nat (randSeq 0%nat) mod Z.of_nat (length (openingMoves b)))
                < length (openingMoves b))%nat).
  { apply mod_index_lt; [lia|]. rewrite Ho. vm_compute. lia. }
  split; [exact Ho|].
  split; [apply (bool_decide_unpack _); vm_compute; exact I|].
  split; [reflexivity|].
  split; [by rewrite Ho|].
  split; [rewrite <- Ho; by apply nth_elem_of|].
  split; [|reflexivity].
  unfold openingMoves in *. by apply nth_filter_valid.
Qed.

Lemma findBestMove_first_move_of_game_witness :
  let r := findBestMove (fun _ => 4%nat) ticks0 log0 (runOps []) initAIConfig in
  bestMove r = mkPos 15 15 /\ validMove (runOps []) (bestMove r) = true /\
  searchIterations r = 0.
Proof.
  cbv zeta.
  pose proof (findBestMove_first_move_of_game (fun _ => 4%nat) ticks0 log0 [] initAIConfig) as H.
  cbv zeta in H.
  assert (Hnone : px (lastMove (runOps [])) < 0 \/ py (lastMove (runOps [])) < 0)
    by (left; vm_compute; reflexivity).
  destruct (H Hnone) as (_ & _ & _ & Hm & _ & Hv & Hi).
  split; [rewrite Hm; vm_compute; reflexivity|]. split; [exact Hv|exact Hi].
Defined.

Lemma openingPoints_NoDup : NoDup openingPoints.
Proof. apply (bool_decide_unpack (NoDup openingPoints)). vm_compute. exact I. Qed.

(** C8, amended. On every board without a last move on which at least one
    of the nine opening points (the center and the eight star points) is
    legal, [findBestMove] returns an opening point that is legal on that
    board: the entry of index [rand() % count] in the list of the legal
    opening points, which holds each of them once, so that every legal
    opening point is the answer for one residue of the random value.
    [runMCTS] is not called: no search iteration runs. *)
Theorem findBestMove_first_move (randSeq : nat -> nat) (ticks : nat -> Z)
    (clog : float -> float) (b : Board) (config : AIConfig) :
  (px (lastMove b) < 0 \/ py (lastMove b) < 0) ->
  (exists p, p ∈ openingPoints /\ validMove b p = true) ->
  let r := findBestMove randSeq ticks clog b config in
  length openingPoints = 9%nat /\
  NoDup (openingMoves b) /\
  (forall p, p ∈ openingMoves b <-> p ∈ openingPoints /\ validMove b p = true) /\
  bestMove r
  = nth (Z.to_nat (Z.of_nat (randSeq 0%nat) mod Z.of_nat (length (openingMoves b))))
      (openingMoves b) noPosition /\
  bestMove r ∈ openingPoints /\
  validMove b (bestMove r) = true /\
  searchIterations r = 0 /\
  (forall p, p ∈ openingMoves b ->
     exists v : nat, forall randSeq' : nat -> nat, randSeq' 0%nat = v ->
       bestMove (findBestMove randSeq' ticks clog b config) = p).
Proof.
  cbv zeta. intros Hnone (p0 & Hp0 & Hv0).
  assert (Hmem : forall p, p ∈ openingMoves b <-> p ∈ openingPoints /\ validMove b p = true).
  { intros p. unfold openingMoves. rewrite list_elem_of_filter. tauto. }
  assert (Hne : openingMoves b <> []).
  { intros He. assert (Hin : p0 ∈ openingMoves b) by (by apply Hmem).
    rewrite He in Hin. by apply elem_of_nil in Hin. }
  rewrite (findBestMove_opening randSeq ticks clog b config Hnone Hne).
  cbn [bestMove searchIterations].
  assert (Hi : (Z.to_nat (Z.of_nat (randSeq 0%nat) mod Z.of_nat (length (openingMoves b)))
                < length (openingMoves b))%nat).
  { apply mod_index_lt; [lia|]. destruct (openingMoves b); [done|cbn [length]; lia]. }
  pose proof (nth_elem_of _ _ noPosition Hi) as Hin. apply Hmem in Hin as [Hin Hv].
  split; [reflexivity|].
  split; [apply list.NoDup_filter, openingPoints_NoDup|].
  split; [exact Hmem|].
  split; [reflexivity|].
  split; [exact Hin|].
  split; [exact Hv|].
  split; [reflexivity|].
  intros p Hp. apply list_elem_of_lookup in Hp as [i Hlook].
  exists i. intros randSeq' Hr.
  rewrite (findBestMove_opening randSeq' ticks clog b config Hnone Hne), Hr.
  cbn [bestMove]. pose proof (lookup_lt_Some _ _ _ Hlook) as Hlt.
  rewrite Z.mod_small by lia. rewrite Nat2Z.id. by apply nth_lookup_Some.
Qed.

Lemma findBestMove_first_move_witness :
  let b := openingExampleBoard in
  let r := findBestMove (fun _ => 4%nat) ticks0 log0 b initAIConfig in
  (px (lastMove b) < 0 \/ py (lastMove b) < 0) /\
  (exists p, p ∈ openingPoints /\ validMove b p = true) /\
  bestMove r = mkPos 9 3 /\ bestMove r ∈ openingPoints /\
  validMove b (bestMove r) = true /\ searchIterations r = 0.
Proof.
  cbv zeta.
  assert (Hnone : px (lastMove openingExampleBoard) < 0 \/ py (lastMove openingExampleBoard) < 0)
    by (left; vm_compute; reflexivity).
  assert (Hsome : exists p, p ∈ openingPoints /\ validMove openingExampleBoard p = true).
  { exists (mkPos 15 15). split; [|vm_compute; reflexivity].
    apply (bool_decide_unpack _). vm_compute. exact I. }
  pose proof (findBestMove_first_move (fun _ => 4%nat) ticks0 log0 openingExampleBoard
                initAIConfig Hnone Hsome) as H.
  cbv zeta in H. destruct H as (_ & _ & _ & Hm & Hin & Hv & Hi & _).
  split; [exact Hnone|]. split; [exact Hsome|].
  split; [vm_compute; reflexivity|]. split; [exact Hin|]. split; [exact Hv|exact Hi].
Defined.

(** The claim as stated fails when none of the nine points is legal: with
    a stone on each of them and no last move, [findBestMove] goes on to the
    search. With one iteration allowed it runs that iteration; with the
    default configuration and a clock already past the time limit it falls
    back on the first legal move; either way it answers (0,0), which is not
    an opening point. *)
Lemma findBestMove_opening_points_taken :
  let b := starsTakenBoard in
  let r := findBestMove rand0 ticks0 log0 b (mkAIConfig 1 DEFAULT_EXPLORATION_PARAM 50) in
  let r' := findBestMove rand0 ticksLate log0 b initAIConfig in
  lastMove b = noPosition /\ openingMoves b = [] /\
  bestMove r = mkPos 0 0 /\ searchIterations r = 1 /\ bestMove r' = mkPos 0 0 /\
  (bestMove r ∉ openingPoints) /\ (bestMove r' ∉ openingPoints).
Proof.
  cbv zeta.
  assert (Hr : findBestMove rand0 ticks0 log0 starsTakenBoard
                 (mkAIConfig 1 DEFAULT_EXPLORATION_PARAM 50)
               = mkSearchResult (mkPos 0 0) 1) by (vm_compute; reflexivity).
  assert (Hr' : findBestMove rand0 ticksLate log0 starsTakenBoard initAIConfig
                = mkSearchResult (mkPos 0 0) 0) by (vm_compute; reflexivity).
  rewrite Hr, Hr'. cbn [bestMove searchIterations].
  split; [reflexivity|]. split; [vm_compute; reflexivity|].
  split; [reflexivity|]. split; [reflexivity|]. split; [reflexivity|].
  assert (Hout : mkPos 0 0 ∉ openingPoints).
  { apply (bool_decide_unpack _). vm_compute. exact I. }
  by split.
Qed.

(** ** C9: the move [findBestMove] returns *)

Lemma Forall_flat_map_all {A B : Type} (P : B -> Prop) (f : A -> list B) (l : list A) :
  (forall a, Forall P (f a)) -> Forall P (flat_map f l).
Proof.
  intros Hf. induction l as [|a l IH]; cbn [flat_map]; [constructor|].
  apply Forall_app. split; [apply Hf|exact IH].
Qed.

Lemma getValidMovesInRange_valid (b : Board) (centerX centerY range : Z) :
  Forall (fun p => validMove b p = true) (getValidMovesInRange b centerX centerY range).
Proof.
  unfold getValidMovesInRange. cbv zeta.
  apply Forall_flat_map_all. intros dx. apply Forall_flat_map_all. intros dy.
  destruct (_ && validMove b _) eqn:Hc; [|constructor].
  apply andb_true_iff in Hc as [_ Hv]. constructor; [exact Hv|constructor].
Qed.

Lemma getLegalMoves_valid (b : Board) :
  Forall (fun p => validMove b p = true) (getLegalMoves b).
Proof.
  unfold getLegalMoves. apply Forall_forall. intros p Hp.
  apply list_elem_of_In, list_elem_of_filter in Hp. apply Hp.
Qed.

(** Every candidate of [expandNode] passed [isValidMove] on the
    reconstructed board. *)
Lemma candidateMoves_valid (tempBoard : Board) :
  Forall (fun p => validMove tempBoard p = true) (candidateMoves tempBoard).
Proof.
  unfold candidateMoves. cbv zeta.
  set (tier1 := if _ : bool then getValidMovesInRange _ _ _ _ else []).
  assert (H1 : Forall (fun p => validMove tempBoard p = true) tier1).
  { unfold tier1. destruct (_ && _); [apply getValidMovesInRange_valid|constructor]. }
  clearbody tier1.
  set (tier2 := if Z.of_nat (length tier1) <? 5 then _ else tier1).
  assert (H2 : Forall (fun p => validMove tempBoard p = true) tier2).
  { unfold tier2. destruct (_ <? 5); [|exact H1].
    revert H1. generalize tier1. clear.
    induction starPoints9 as [|s l IH]; intros acc Hacc; cbn [fold_left]; [exact Hacc|].
    apply IH. destruct (validMove tempBoard s) eqn:Hv; [|exact Hacc].
    destruct (existsIn acc s); [exact Hacc|].
    apply Forall_app. split; [exact Hacc|]. constructor; [exact Hv|constructor]. }
  clearbody tier2.
  destruct (_ <? 5); [|exact H2].
  revert H2. generalize tier2. clear.
  induction allCells as [|s l IH]; intros acc Hacc; cbn [fold_left]; [exact Hacc|].
  apply IH. destruct (20 <=? _); [exact Hacc|].
  destruct (existsIn acc s); [exact Hacc|].
  destruct (validMove tempBoard s) eqn:Hv; [|exact Hacc].
  apply Forall_app. split; [exact Hacc|]. constructor; [exact Hv|constructor].
Qed.

Lemma updateAt_move (f : MCTSNode -> MCTSNode) (path : list nat) (n : MCTSNode) :
  (forall m, move (f m) = move m) -> move (updateAt f path n) = move n.
Proof.
  intros Hf. destruct path as [|i rest]; cbn [updateAt]; [apply Hf|].
  destruct (children n !! i); reflexivity.
Qed.

Lemma backpropagateFrom_move (p : Stone) (result : float) (n : MCTSNode) (path : list nat) :
  move (backpropagateFrom p result n path) = move n.
Proof.
  destruct path as [|i rest]; cbn [backpropagateFrom]; [reflexivity|].
  destruct (children n !! i); reflexivity.
Qed.

Lemma rootValid_insert (b : Board) (root : MCTSNode) (i : nat) (c c' : MCTSNode) :
  rootValid b root -> children root !! i = Some c -> move c' = move c ->
  Forall (fun k => validMove b (move k) = true) (<[i := c']> (children root)).
Proof.
  intros Hr Hi Hm. apply Forall_insert; [exact Hr|].
  rewrite Hm. by eapply (Forall_lookup_1 _ _ _ _ Hr Hi).
Qed.

Lemma rootValid_updateAt (b : Board) (root : MCTSNode) (path : list nat)
    (f : MCTSNode -> MCTSNode) :
  rootValid b root -> path <> [] -> (forall m, move (f m) = move m) ->
  rootValid b (updateAt f path root).
Proof.
  intros Hr Hp Hf. destruct path as [|i rest]; [done|]. cbn [updateAt].
  destruct (children root !! i) as [c|] eqn:Hi; [|exact Hr].
  unfold rootValid. cbn [children with_children].
  eapply rootValid_insert; [exact Hr|exact Hi|]. by apply updateAt_move.
Qed.

Lemma rootValid_expandNode (randSeq : nat -> nat) (b : Board) (root : MCTSNode)
    (path : list nat) (rs : nat) :
  rootValid b root -> rootValid b (fst (fst (expandNode randSeq root path b rs))).
Proof.
  intros Hr. unfold expandNode.
  destruct (nodeAt root path) as [node|] eqn:Hn; [|exact Hr]. cbv zeta.
  destruct (Z.of_nat (length (candidateMoves _)) =? 0); [exact Hr|]. cbn [fst].
  destruct path as [|i rest].
  - cbn [updateAt parentChain]. unfold rootValid. cbn [children with_children].
    change (reconstructBoard b [root]) with b.
    apply Forall_fmap. unfold compose. cbn [move createChildNode].
    apply candidateMoves_valid.
  - apply rootValid_updateAt; [exact Hr|done|reflexivity].
Qed.

Lemma rootValid_backpropagate (b : Board) (root : MCTSNode) (path : list nat)
    (result : float) :
  rootValid b root -> rootValid b (backpropagate root path result).
Proof.
  intros Hr. unfold backpropagate.
  destruct (nodeAt root path) as [node|]; [|exact Hr].
  destruct path as [|i rest]; cbn [backpropagateFrom]; [exact Hr|].
  destruct (children root !! i) as [c|] eqn:Hi; [|exact Hr].
  unfold rootValid. cbn [children with_children backpropagateNode].
  eapply rootValid_insert; [exact Hr|exact Hi|]. apply backpropagateFrom_move.
Qed.

Lemma rootValid_mctsIteration (randSeq : nat -> nat) (clog : float -> float) (b : Board)
    (config : AIConfig) (st : SearchState) :
  rootValid b (s_root st) -> rootValid b (s_root (mctsIteration randSeq clog b config st)).
Proof.
  intros Hr. unfold mctsIteration. cbv zeta. cbn [s_root].
  apply rootValid_backpropagate, rootValid_expandNode, Hr.
Qed.

Lemma rootValid_mctsLoop (randSeq : nat -> nat) (ticks : nat -> Z) (clog : float -> float)
    (fuel : nat) (b : Board) (config : AIConfig) (startTime : Z) (st : SearchState) :
  rootValid b (s_root st) ->
  rootValid b (s_root (mctsLoop randSeq ticks clog fuel b config startTime st)).
Proof.
  revert st. induction fuel as [|fuel IH]; intros st Hr; cbn [mctsLoop]; [exact Hr|].
  destruct (s_iterations st <? simulationCount config); [|exact Hr]. cbv zeta.
  destruct (_ <? MCTS_TIME_LIMIT); [|exact Hr].
  apply IH. apply rootValid_mctsIteration. exact Hr.
Qed.

Lemma rootValid_runMCTS (randSeq : nat -> nat) (ticks : nat -> Z) (clog : float -> float)
    (b : Board) (config : AIConfig) (rs : nat) :
  rootValid b (s_root (runMCTS randSeq ticks clog b config (createRootNode b) rs)).
Proof.
  unfold runMCTS. cbv zeta. apply rootValid_mctsLoop. constructor.
Qed.

Lemma bestChildMove_valid (b : Board) (root : MCTSNode) (m : Position) :
  rootValid b root -> bestChildMove root = Some m -> validMove b m = true.
Proof.
  intros Hr. unfold bestChildMove.
  destruct (selectBestChild root) as [i|]; [|done].
  destruct (children root !! i) as [c|] eqn:Hi; [|done].
  intros [= <-]. by eapply (Forall_lookup_1 _ _ _ _ Hr Hi).
Qed.

Lemma nth_Forall_valid (b : Board) (l : list Position) (r : Z) :
  Forall (fun p => validMove b p = true) l -> 0 <= r -> (0 < length l)%nat ->
  validMove b (nth (Z.to_nat (r mod Z.of_nat (length l))) l noPosition) = true.
Proof.
  intros Hl Hr Hn.
  pose proof (nth_elem_of l _ noPosition (mod_index_lt r (length l) Hr Hn)) as Hin.
  rewrite Forall_forall in Hl. apply Hl. by apply list_elem_of_In.
Qed.

(** C9 fails on the code. After Black (1,0), White (0,1), Black (1,1) and
    White (0,0) the last move is (0,0) and the three cells of the board
    next to it are taken, so the window of [getValidMovesInRange] holds no
    move, while 357 moves are legal on the board. With a configuration of 0
    iterations, or with the default configuration when the clock has
    passed the time limit before the first iteration, the root has no
    child; the branch for a board with a last move has only the window to
    fall back on (the last branch falls back on [getLegalMoves]), and
    [findBestMove] returns (-1,-1), which [isValidMove] rejects. *)
Theorem findBestMove_returns_sentinel :
  let b := runOps [OpPlace (mkPos 1 0); OpPlace (mkPos 0 1); OpPlace (mkPos 1 1);
                   OpPlace (mkPos 0 0)] in
  let r := findBestMove rand0 ticks0 log0 b (mkAIConfig 0 DEFAULT_EXPLORATION_PARAM 50) in
  let r' := findBestMove rand0 ticksLate log0 b initAIConfig in
  length (getLegalMoves b) = 357%nat /\
  getValidMovesInRange b (px (lastMove b)) (py (lastMove b)) MCTS_RANGE_SMALL = [] /\
  bestMove r = noPosition /\ bestMove r' = noPosition /\
  fst (isValidMove b (bestMove r)) = false /\
  fst (isValidMove b (bestMove r')) = false.
Proof. vm_compute. repeat split; reflexivity. Qed.

(** Whatever the random values, the clock and the rollouts are, the
    position [findBestMove] returns is the "no move" position (-1,-1) or
    is accepted by [isValidMove] on the board it was computed from. *)
Lemma findBestMove_valid_or_sentinel (randSeq : nat -> nat) (ticks : nat -> Z)
    (clog : float -> float) (b : Board) (config : AIConfig) :
  bestMove (findBestMove randSeq ticks clog b config) = noPosition \/
  fst (isValidMove b (bestMove (findBestMove randSeq ticks clog b config))) = true.
Proof.
  fold (validMove b (bestMove (findBestMove randSeq ticks clog b config))).
  unfold findBestMove. cbv zeta.
  pose proof (rootValid_runMCTS randSeq ticks clog b config 0) as Hroot.
  revert Hroot. generalize (runMCTS randSeq ticks clog b config (createRootNode b) 0).
  intros st Hroot.
  destruct ((px (lastMove b) <? 0) || (py (lastMove b) <? 0)) eqn:Hfirst; cbn [andb].
  - destruct (0 <? Z.of_nat (length (openingMoves b))) eqn:Hlen.
    + right. cbn [bestMove]. unfold openingMoves.
      apply nth_filter_valid. apply mod_index_lt; [unfold rand; cbn [fst]; lia|].
      apply Z.ltb_lt in Hlen. unfold openingMoves in Hlen. lia.
    + apply orb_true_iff in Hfirst. rewrite !Z.ltb_lt in Hfirst.
      assert (Hsecond : (0 <=? px (lastMove b)) && (0 <=? py (lastMove b)) = false).
      { apply andb_false_iff. rewrite !Z.leb_gt. tauto. }
      rewrite Hsecond.
      destruct (Z.of_nat (length (getLegalMoves b)) =? 0) eqn:Hcount; [by left|].
      right. destruct (bestChildMove (s_root st)) as [m|] eqn:Hbest; cbn [bestMove].
      * by eapply bestChildMove_valid.
      * apply nth_Forall_valid; [apply getLegalMoves_valid|unfold rand; cbn [fst]; lia|].
        apply Z.eqb_neq in Hcount. lia.
  - destruct ((0 <=? px (lastMove b)) && (0 <=? py (lastMove b))) eqn:Hsecond.
    + destruct (bestChildMove (s_root st)) as [m|] eqn:Hbest; cbn [bestMove].
      * right. by eapply bestChildMove_valid.
      * destruct (0 <? Z.of_nat (length (getValidMovesInRange _ _ _ _))) eqn:Hlen;
          cbn [bestMove]; [right|by left].
        apply nth_Forall_valid;
          [apply getValidMovesInRange_valid|unfold rand; cbn [fst]; lia|].
        apply Z.ltb_lt in Hlen. lia.
    + destruct (Z.of_nat (length (getLegalMoves b)) =? 0) eqn:Hcount; [by left|].
      right. destruct (bestChildMove (s_root st)) as [m|] eqn:Hbest; cbn [bestMove].
      * by eapply bestChildMove_valid.
      * apply nth_Forall_valid; [apply getLegalMoves_valid|unfold rand; cbn [fst]; lia|].
        apply Z.eqb_neq in Hcount. lia.
Qed.

(** ** Termination: the fuel is never used up *)

Lemma marked_true_valid (m : list (list bool)) (q : Position) :
  marked m q = true -> isValidPosition q = true.
Proof.
  unfold marked, get2. destruct (isValidPosition q); [done|]. done.
Qed.

Lemma marked_set_same (m : list (list bool)) (p : Position) :
  wf2 m -> isValidPosition p = true -> marked (set2 m p true) p = true.
Proof. intros Hw Hp. by apply get2_set2_same. Qed.

Lemma marked_set_other (m : list (list bool)) (p q : Position) :
  p <> q -> marked (set2 m p true) q = marked m q.
Proof. intros Hne. by apply get2_set2_other. Qed.

Lemma marked_set_mono (m : list (list bool)) (p q : Position) :
  wf2 m -> marked m q = true -> marked (set2 m p true) q = true.
Proof.
  intros Hw Hq. destruct (decide (p = q)) as [->|Hne].
  - apply marked_set_same; [done|]. by eapply marked_true_valid.
  - by rewrite marked_set_other.
Qed.

Lemma marked_set_iff (m : list (list bool)) (p q : Position) :
  wf2 m -> isValidPosition p = true ->
  (marked (set2 m p true) q = true <-> marked m q = true \/ q = p).
Proof.
  intros Hw Hp. destruct (decide (p = q)) as [->|Hne].
  - rewrite marked_set_same by done. tauto.
  - rewrite marked_set_other by done. split; [tauto|]. intros [?|?]; [done|congruence].
Qed.

Lemma marksGrow_refl (m : list (list bool)) : wf2 m -> marksGrow m m.
Proof. intros Hw. by split. Qed.

Lemma marksGrow_trans (m1 m2 m3 : list (list bool)) :
  marksGrow m1 m2 -> marksGrow m2 m3 -> marksGrow m1 m3.
Proof. intros [_ H12] [Hw H23]. split; [done|]. intros q Hq. by apply H23, H12. Qed.

Lemma marksGrow_set (m : list (list bool)) (p : Position) :
  wf2 m -> marksGrow m (set2 m p true).
Proof. intros Hw. split; [by apply wf2_set2|]. intros q. by apply marked_set_mono. Qed.

Lemma unmarkedCount_le_fuel (m : list (list bool)) : (unmarkedCount m <= cellFuel)%nat.
Proof. unfold unmarkedCount. rewrite <- allCells_length. apply length_filter. Qed.

Lemma unmarkedCount_mono (m m' : list (list bool)) :
  marksGrow m m' -> (unmarkedCount m' <= unmarkedCount m)%nat.
Proof.
  intros [_ Hg]. unfold unmarkedCount.
  rewrite <- (list_filter_filter_l (fun p => marked m' p = false)
                (fun p => marked m p = false)).
  - apply length_filter.
  - intros q Hq. destruct (marked m q) eqn:Hm; [|done]. apply Hg in Hm. congruence.
Qed.

(** Marking an unmarked cell of the board uses up one unit. *)
Lemma unmarkedCount_set (m : list (list bool)) (p : Position) :
  wf2 m -> isValidPosition p = true -> marked m p = false ->
  (unmarkedCount (set2 m p true) < unmarkedCount m)%nat.
Proof.
  intros Hw Hp Hm. unfold unmarkedCount.
  rewrite <- (list_filter_filter_l (fun q => marked (set2 m p true) q = false)
                (fun q => marked m q = false)).
  - apply (length_filter_lt _ _ p).
    + apply list_elem_of_filter. split; [done|]. by apply allCells_valid.
    + rewrite marked_set_same by done. done.
  - intros q Hq. destruct (marked m q) eqn:Hmq; [|done].
    apply (marked_set_mono m p q Hw) in Hmq. congruence.
Qed.

(** [dfsMarkGroup] keeps the marks it was given. *)
Lemma dfsMarkGroup_grows (fuel : nat) (g : Grid) (pos : Position) (color : Stone)
    (st : list (list bool) * list Position) :
  wf2 (fst st) -> marksGrow (fst st) (fst (dfsMarkGroup fuel g pos color st)).
Proof.
  revert pos st. induction fuel as [|fuel IH]; intros pos st Hw.
  - by apply marksGrow_refl.
  - rewrite dfsMarkGroup_S.
    assert (H : forall l acc, wf2 (fst acc) ->
              marksGrow (fst acc) (fst (fold_left (dfsStep fuel g color) l acc))).
    { induction l as [|n l IHl]; intros acc Hacc; cbn [fold_left].
      - by apply marksGrow_refl.
      - assert (Hstep : marksGrow (fst acc) (fst (dfsStep fuel g color acc n))).
        { unfold dfsStep. destruct (_ && _); [by apply IH|by apply marksGrow_refl]. }
        eapply marksGrow_trans; [exact Hstep|]. apply IHl. apply Hstep. }
    eapply marksGrow_trans; [apply (marksGrow_set (fst st) pos Hw)|].
    apply (H (neighbours pos) (set2 (fst st) pos true, snd st ++ [pos])).
    by apply wf2_set2.
Qed.

(** The result of [dfsMarkGroup] does not depend on the fuel once there is
    one unit for every unmarked cell: the recursion ends by itself. *)
Lemma dfsMarkGroup_fuel (fuel1 fuel2 : nat) (g : Grid) (pos : Position) (color : Stone)
    (st : list (list bool) * list Position) :
  wf2 (fst st) -> isValidPosition pos = true -> marked (fst st) pos = false ->
  (unmarkedCount (fst st) <= fuel1)%nat -> (unmarkedCount (fst st) <= fuel2)%nat ->
  dfsMarkGroup fuel1 g pos color st = dfsMarkGroup fuel2 g pos color st.
Proof.
  revert fuel2 pos st. induction fuel1 as [|fuel1 IH]; intros fuel2 pos st Hw Hp Hm H1 H2.
  - pose proof (unmarkedCount_set (fst st) pos Hw Hp Hm). lia.
  - destruct fuel2 as [|fuel2].
    { pose proof (unmarkedCount_set (fst st) pos Hw Hp Hm). lia. }
    rewrite !dfsMarkGroup_S.
    pose proof (unmarkedCount_set (fst st) pos Hw Hp Hm) as Hlt.
    assert (H : forall l acc, wf2 (fst acc) ->
              (unmarkedCount (fst acc) <= fuel1)%nat ->
              (unmarkedCount (fst acc) <= fuel2)%nat ->
              fold_left (dfsStep fuel1 g color) l acc
              = fold_left (dfsStep fuel2 g color) l acc).
    { induction l as [|n l IHl]; intros acc Hacc Ha1 Ha2; cbn [fold_left]; [done|].
      assert (Hstep : dfsStep fuel1 g color acc n = dfsStep fuel2 g color acc n).
      { unfold dfsStep.
        destruct (isValidPosition n) eqn:Hn; [|done].
        destruct (marked (fst acc) n) eqn:Hmn; [done|].
        destruct (stone_eqb (cell g n) color); [|done].
        cbn [negb andb]. by apply IH. }
      rewrite Hstep. apply IHl.
      - unfold dfsStep. destruct (_ && _); [|done]. by apply dfsMarkGroup_grows.
      - assert (Hg : marksGrow (fst acc) (fst (dfsStep fuel2 g color acc n))).
        { unfold dfsStep. destruct (_ && _);
            [by apply dfsMarkGroup_grows|by apply marksGrow_refl]. }
        apply unmarkedCount_mono in Hg. lia.
      - assert (Hg : marksGrow (fst acc) (fst (dfsStep fuel2 g color acc n))).
        { unfold dfsStep. destruct (_ && _);
            [by apply dfsMarkGroup_grows|by apply marksGrow_refl]. }
        apply unmarkedCount_mono in Hg. lia. }
    apply H; cbn [fst]; [by apply wf2_set2|lia|lia].
Qed.

(** [cellFuel] is enough for every walk the rule engine starts: a walk that
    starts on an unmarked cell of the board gives the same result with any
    larger fuel. *)
Theorem dfsMarkGroup_terminates (extra : nat) (g : Grid) (pos : Position) (color : Stone)
    (m : list (list bool)) (group : list Position) :
  wf2 m -> isValidPosition pos = true -> marked m pos = false ->
  dfsMarkGroup (cellFuel + extra) g pos color (m, group)
  = dfsMarkGroup cellFuel g pos color (m, group).
Proof.
  intros Hw Hp Hm. pose proof (unmarkedCount_le_fuel m) as Hle.
  apply dfsMarkGroup_fuel; cbn [fst]; [done|done|done|lia|lia].
Qed.

(** A write changes the cell or, outside the array, nothing. *)
Lemma set2_written_or_same {A : Type} (d : A) (a : list (list A)) (p : Position) (v : A) :
  get2 d (set2 a p v) p = v \/ set2 a p v = a.
Proof.
  unfold get2, set2. destruct (isValidPosition p); [|by right].
  destruct (a !! Z.to_nat (py p)) as [row|] eqn:Hrow; [|by right].
  destruct (row !! Z.to_nat (px p)) as [w|] eqn:Hx.
  - left. rewrite list_lookup_insert_eq by (by eapply lookup_lt_Some).
    rewrite list_lookup_insert_eq by (by eapply lookup_lt_Some). done.
  - right. rewrite (list_insert_ge row) by (by apply lookup_ge_None).
    by apply list_insert_id.
Qed.

Lemma cell_remove (g : Grid) (p q : Position) (color : Stone) :
  color <> EMPTY -> cell (set2 g p EMPTY) q = color -> cell g q = color.
Proof.
  intros Hc Hq. destruct (decide (p = q)) as [->|Hne].
  - destruct (set2_written_or_same EMPTY g q EMPTY) as [Hw|Hs].
    + unfold cell in Hq. congruence.
    + by rewrite Hs in Hq.
  - unfold cell in *. by rewrite get2_set2_other in Hq.
Qed.

Lemma stoneCount_remove (g : Grid) (p : Position) (color : Stone) :
  color <> EMPTY -> (stoneCount (set2 g p EMPTY) color <= stoneCount g color)%nat.
Proof.
  intros Hc. unfold stoneCount.
  rewrite <- (list_filter_filter_l (fun q => cell (set2 g p EMPTY) q = color)
                (fun q => cell g q = color)).
  - apply length_filter.
  - intros q. by apply cell_remove.
Qed.

Lemma stoneCount_remove_stone (g : Grid) (p : Position) (color : Stone) :
  color <> EMPTY -> cell g p = color ->
  (stoneCount (set2 g p EMPTY) color < stoneCount g color)%nat.
Proof.
  intros Hc Hp. unfold stoneCount.
  rewrite <- (list_filter_filter_l (fun q => cell (set2 g p EMPTY) q = color)
                (fun q => cell g q = color)).
  - apply (length_filter_lt _ _ p).
    + apply list_elem_of_filter. split; [done|]. apply allCells_valid.
      destruct (isValidPosition p) eqn:Hv; [done|].
      unfold cell in Hp. rewrite get2_invalid in Hp by done. congruence.
    + unfold cell. rewrite get2_set2_written; [congruence|].
      unfold cell in Hp. congruence.
  - intros q. by apply cell_remove.
Qed.

Lemma stoneCount_removeGroup (g : Grid) (group : list Position) (color : Stone) :
  color <> EMPTY -> (stoneCount (removeGroup g group) color <= stoneCount g color)%nat.
Proof.
  intros Hc. unfold removeGroup. revert g.
  induction group as [|p group IH]; intros g; cbn [fold_left]; [lia|].
  pose proof (IH (set2 g p EMPTY)). pose proof (stoneCount_remove g p color Hc). lia.
Qed.

Lemma stoneCount_le_fuel (g : Grid) (color : Stone) : (stoneCount g color <= cellFuel)%nat.
Proof. unfold stoneCount. rewrite <- allCells_length. apply length_filter. Qed.

(** A step of the capture scan never adds a stone of the scanned colour,
    and removes at least one whenever it raises the count. *)
Lemma captureStep_stones (color : Stone) (st : CaptureScan) (pos : Position) :
  color <> EMPTY ->
  (stoneCount (board (cs_board (captureStep color st pos))) color
   <= stoneCount (board (cs_board st)) color)%nat /\
  (cs_count st < cs_count (captureStep color st pos) ->
   (stoneCount (board (cs_board (captureStep color st pos))) color
    < stoneCount (board (cs_board st)) color)%nat).
Proof.
  intros Hne. unfold captureStep.
  destruct (stone_eqb (cell (board (cs_board st)) pos) color) eqn:Hc;
    cbn [andb]; [|split; [lia|intros; lia]].
  destruct (negb (marked (cs_visited st) pos)); [|split; [lia|intros; lia]].
  apply stone_eqb_eq in Hc.
  destruct (dfsMarkGroup_head (board (cs_board st)) pos color (cs_visited st))
    as [rest Hg].
  revert Hg.
  generalize (dfsMarkGroup cellFuel (board (cs_board st)) pos color (cs_visited st, [])).
  intros r Hg. rewrite Hg.
  generalize (calculateGroupLiberties (board (cs_board st)) (pos :: rest)). intros libs.
  destruct (libs =? 0); bsimpl; [|split; [lia|intros; lia]].
  assert (Hlt : (stoneCount (removeGroup (board (cs_board st)) (pos :: rest)) color
                 < stoneCount (board (cs_board st)) color)%nat).
  { change (removeGroup (board (cs_board st)) (pos :: rest))
      with (removeGroup (set2 (board (cs_board st)) pos EMPTY) rest).
    pose proof (stoneCount_removeGroup (set2 (board (cs_board st)) pos EMPTY) rest color Hne).
    pose proof (stoneCount_remove_stone (board (cs_board st)) pos color Hne Hc). lia. }
  split; [lia|intros _; exact Hlt].
Qed.

Lemma captureScan_stones (color : Stone) (cells : list Position) (st : CaptureScan) :
  color <> EMPTY ->
  (stoneCount (board (cs_board (fold_left (captureStep color) cells st))) color
   <= stoneCount (board (cs_board st)) color)%nat /\
  (cs_count st < cs_count (fold_left (captureStep color) cells st) ->
   (stoneCount (board (cs_board (fold_left (captureStep color) cells st))) color
    < stoneCount (board (cs_board st)) color)%nat).
Proof.
  intros Hne. revert st. induction cells as [|p cells IH]; intros st; cbn [fold_left].
  - split; [lia|intros; lia].
  - destruct (IH (captureStep color st p)) as [Hle Hlt].
    destruct (captureStep_stones color st p Hne) as [Hle1 Hlt1].
    destruct (captureStep_frame color st p) as [_ Hc1].
    split; [lia|]. intros Hgt.
    destruct (Z.ltb_spec (cs_count st) (cs_count (captureStep color st p))) as [H|H].
    + specialize (Hlt1 H). lia.
    + assert (H' : cs_count (captureStep color st p)
                   < cs_count (fold_left (captureStep color) cells (captureStep color st p)))
        by lia.
      specialize (Hlt H'). lia.
Qed.

(** A round of the capture loop that removes something leaves fewer stones
    of the captured colour on the board. *)
Lemma captureDeadStones_stones (b : Board) (color : Stone) :
  color <> EMPTY -> 0 < fst (captureDeadStones b color) ->
  (stoneCount (board (snd (captureDeadStones b color))) color
   < stoneCount (board b) color)%nat.
Proof.
  intros Hne. pose proof (captureDeadStones_board b color) as H. cbv zeta in H.
  destruct H as (-> & -> & _).
  pose proof (captureScan_stones color allCells (mkCaptureScan b noMarks 0) Hne) as [_ Hlt].
  exact Hlt.
Qed.

(** The result of the capture loop does not depend on the fuel once there
    is one unit more than stones of the captured colour. *)
Lemma captureLoop_fuel (fuel1 fuel2 : nat) (b : Board) (color : Stone) (total : Z) :
  color <> EMPTY ->
  (stoneCount (board b) color < fuel1)%nat -> (stoneCount (board b) color < fuel2)%nat ->
  captureLoop fuel1 b color total = captureLoop fuel2 b color total.
Proof.
  intros Hne. revert fuel2 b total.
  induction fuel1 as [|fuel1 IH]; intros fuel2 b total H1 H2; [lia|].
  destruct fuel2 as [|fuel2]; [lia|].
  rewrite !captureLoop_S.
  pose proof (captureDeadStones_stones b color Hne) as Hlt. revert Hlt.
  generalize (captureDeadStones b color). intros r Hlt.
  destruct (Z.ltb_spec 0 (fst r)) as [Hpos|Hpos]; [|reflexivity].
  specialize (Hlt Hpos). apply IH; lia.
Qed.

(** [loopFuel] is enough for the [do ... while] loop of [placeStone]: with
    any larger fuel the loop gives the same result. *)
Theorem captureLoop_terminates (extra : nat) (b : Board) (mover : Stone) (total : Z) :
  captureLoop (loopFuel + extra) b (otherPlayer mover) total
  = captureLoop loopFuel b (otherPlayer mover) total.
Proof.
  pose proof (stoneCount_le_fuel (board b) (otherPlayer mover)) as Hle.
  apply captureLoop_fuel; [by destruct mover|rewrite loopFuel_eq; lia|rewrite loopFuel_eq; lia].
Qed.

(** The [visited] array of the capture scan stays a [19 x 19] array, so
    every walk the scan starts is within [dfsMarkGroup_terminates]. *)
Lemma captureScan_visited_wf (color : Stone) (cells : list Position) (st : CaptureScan) :
  wf2 (cs_visited st) -> wf2 (cs_visited (fold_left (captureStep color) cells st)).
Proof.
  revert st. induction cells as [|p cells IH]; intros st Hw; cbn [fold_left]; [done|].
  apply IH. unfold captureStep. destruct (_ && _); [|done].
  pose proof (dfsMarkGroup_grows cellFuel (board (cs_board st)) p color
                (cs_visited st, []) Hw) as [Hw' _].
  revert Hw'. generalize (dfsMarkGroup cellFuel (board (cs_board st)) p color
                            (cs_visited st, [])). intros r Hw'.
  destruct (_ =? 0); exact Hw'.
Qed.

Lemma libertyScan_visited_wf (g : Grid) (cells : list Position) (st : LibertyScan) :
  wf2 (ls_visited st) -> wf2 (ls_visited (fold_left (libertyStep g) cells st)).
Proof.
  revert st. induction cells as [|p cells IH]; intros st Hw; cbn [fold_left]; [done|].
  apply IH. unfold libertyStep. destruct (_ && _); [|done].
  pose proof (dfsMarkGroup_grows cellFuel g p (cell g p) (ls_visited st, []) Hw) as [Hw' _].
  revert Hw'. generalize (dfsMarkGroup cellFuel g p (cell g p) (ls_visited st, [])).
  intros r Hw'. cbv zeta.
  destruct (stone_eqb (cell g p) BLACK); [exact Hw'|].
  destruct (stone_eqb (cell g p) WHITE); exact Hw'.
Qed.

(** ** Scoring *)

Lemma countStones_stoneCount (g : Grid) (color : Stone) :
  countStones g color = Z.of_nat (stoneCount g color).
Proof.
  unfold countStones, stoneCount.
  assert (H : forall l acc,
            fold_left (fun n pos => if stone_eqb (cell g pos) color then n + 1 else n) l acc
            = acc + Z.of_nat (length (filter (fun p => cell g p = color) l))).
  { induction l as [|p l IH]; intros acc; cbn [fold_left].
    - rewrite filter_nil. cbn [length]. lia.
    - rewrite IH, filter_cons. destruct (decide (cell g p = color)) as [Hc|Hc].
      + apply stone_eqb_eq in Hc. rewrite Hc. cbn [length]. lia.
      + apply stone_eqb_neq in Hc. rewrite Hc. lia. }
  rewrite H. lia.
Qed.

Lemma emptyPath_empty_r (g : Grid) (p q : Position) : emptyPath g p q -> emptyAt g q.
Proof. by destruct 1. Qed.

Lemma emptyPath_empty_l (g : Grid) (p q : Position) : emptyPath g p q -> emptyAt g p.
Proof. induction 1; done. Qed.

Lemma emptyPath_trans (g : Grid) (p q r : Position) :
  emptyPath g p q -> emptyPath g q r -> emptyPath g p r.
Proof.
  intros Hpq Hqr. induction Hqr as [q Hq|q r s Hqr IH Hn Hs]; [done|].
  eapply emptyPath_step; [by apply IH|done|done].
Qed.

Lemma emptyPath_sym (g : Grid) (p q : Position) : emptyPath g p q -> emptyPath g q p.
Proof.
  induction 1 as [p Hp|p q r Hpq IH Hn Hr]; [by constructor|].
  eapply emptyPath_trans; [|exact IH].
  eapply emptyPath_step; [by constructor|by apply neighbours_sym|].
  by eapply emptyPath_empty_r.
Qed.

Lemma regionTouches_path (g : Grid) (p q : Position) (c : Stone) :
  emptyPath g p q -> regionTouches g p c -> regionTouches g q c.
Proof.
  intros Hpq (s & r & Hps & Hn & Hv & Hc). exists s, r.
  split; [|done]. eapply emptyPath_trans; [by apply emptyPath_sym|done].
Qed.

Lemma territoryOf_path (g : Grid) (c : Stone) (p q : Position) :
  emptyPath g p q -> territoryOf g c p -> territoryOf g c q.
Proof.
  intros Hpq (Hp & Ht & Hn). split; [by eapply emptyPath_empty_r|].
  split; [by eapply regionTouches_path|].
  intros Ht'. apply Hn. eapply regionTouches_path; [by apply emptyPath_sym|done].
Qed.

Lemma marked_noMarks (p : Position) : marked noMarks p = false.
Proof.
  unfold marked, noMarks. destruct (isValidPosition p) eqn:Hv.
  - by apply get2_mkArray2.
  - by apply get2_invalid.
Qed.

Lemma fillInv_weaken (g : Grid) (v0 : list (list bool)) (start : Position)
    (popped : list Position) (chk chk' : Position -> Position -> Prop) (st : Territory) :
  (forall d r, chk' d r -> chk d r) ->
  fillInv g v0 start popped chk st -> fillInv g v0 start popped chk' st.
Proof.
  intros Hsub (H1 & H2 & H3 & H4 & H5 & H6 & H7 & H8 & H9).
  assert (H7' : forall d r, chk' d r -> isValidPosition r = true -> neighbourSeen g st r).
  { intros d r Hc. apply (H7 d r). by apply Hsub. }
  exact (conj H1 (conj H2 (conj H3 (conj H4 (conj H5 (conj H6 (conj H7' (conj H8 H9)))))))).
Qed.

(** The bounds test of the flood fill is [isValidPosition]. *)
Lemma bounds_test (n : Position) :
  (px n <? 0) || (BOARD_SIZE <=? px n) || (py n <? 0) || (BOARD_SIZE <=? py n)
  = negb (isValidPosition n).
Proof.
  unfold isValidPosition.
  destruct (Z.ltb_spec (px n) 0), (Z.leb_spec BOARD_SIZE (px n)),
    (Z.ltb_spec (py n) 0), (Z.leb_spec BOARD_SIZE (py n)),
    (Z.leb_spec 0 (px n)), (Z.ltb_spec (px n) BOARD_SIZE),
    (Z.leb_spec 0 (py n)), (Z.ltb_spec (py n) BOARD_SIZE); cbn [orb andb negb];
    reflexivity || lia.
Qed.

Lemma neighbourSeen_mono (g : Grid) (st st' : Territory) (r : Position) :
  (forall q, marked (t_visited st) q = true -> marked (t_visited st') q = true) ->
  (t_black st = true -> t_black st' = true) ->
  (t_white st = true -> t_white st' = true) ->
  neighbourSeen g st r -> neighbourSeen g st' r.
Proof.
  intros Hm Hb Hw (He & Hbl & Hwh). split; [|split].
  - intros Hc. by apply Hm, He.
  - intros Hc. by apply Hb, Hbl.
  - intros Hc. by apply Hw, Hwh.
Qed.

(** One neighbour of a cell taken from the queue. *)
Lemma territoryStep_inv (g : Grid) (v0 : list (list bool)) (start : Position)
    (popped : list Position) (chk : Position -> Position -> Prop) (st : Territory)
    (cur n : Position) :
  fillInv g v0 start popped chk st -> cur ∈ popped -> n ∈ neighbours cur ->
  fillInv g v0 start popped (fun d r => chk d r \/ (d = cur /\ r = n)) (territoryStep g st n)
  /\ (territoryMeasure (territoryStep g st n) <= territoryMeasure st)%nat.
Proof.
  intros (H1 & H2 & H3 & H4 & H5 & H6 & H7 & H8 & H9) Hcur Hn.
  assert (Hcur' : emptyPath g start cur).
  { apply H5. apply elem_of_app. by left. }
  unfold territoryStep. rewrite bounds_test.
  destruct (isValidPosition n) eqn:Hv; cbn [negb].
  2:{ split; [|lia].
      assert (H7' : forall d r, chk d r \/ d = cur /\ r = n ->
                isValidPosition r = true -> neighbourSeen g st r).
      { intros d r [Hc|[_ ->]] Hr; [by eapply H7|congruence]. }
      exact (conj H1 (conj H2 (conj H3 (conj H4 (conj H5 (conj H6
               (conj H7' (conj H8 H9)))))))). }
  destruct (stone_eqb (cell g n) EMPTY) eqn:He.
  - apply stone_eqb_eq in He.
    destruct (marked (t_visited st) n) eqn:Hm; cbn [negb andb].
    + rewrite He. cbn [stone_eqb]. split; [|lia].
      assert (H7' : forall d r, chk d r \/ d = cur /\ r = n ->
                isValidPosition r = true -> neighbourSeen g st r).
      { intros d r [Hc|[_ ->]] Hr; [by eapply H7|].
        split; [done|]. split; intros Hc; congruence. }
      exact (conj H1 (conj H2 (conj H3 (conj H4 (conj H5 (conj H6
               (conj H7' (conj H8 H9)))))))).
    + assert (Hnot : n ∉ popped ++ t_queue st).
      { intros Hin. assert (marked (t_visited st) n = true) by (apply H4; by right).
        congruence. }
      assert (Hv0 : marked v0 n = false).
      { destruct (marked v0 n) eqn:Hv0; [|done].
        assert (marked (t_visited st) n = true) by (apply H4; by left). congruence. }
      split.
      * unfold fillInv. cbn [t_visited t_queue t_size t_black t_white].
        rewrite !app_assoc.
        split; [by apply wf2_set2|].
        split.
        { apply list.NoDup_app. split; [done|]. split; [|apply NoDup_singleton].
          intros x Hx Hx'. apply list_elem_of_singleton in Hx'. by subst. }
        split; [apply elem_of_app; by left|].
        split.
        { intros q. rewrite marked_set_iff by done. rewrite H4, !elem_of_app, list_elem_of_singleton. tauto. }
        split.
        { intros q Hq. apply elem_of_app in Hq as [Hq|Hq]; [by apply H5|].
          apply list_elem_of_singleton in Hq as ->. split; [|done].
          eapply emptyPath_step; [exact Hcur'|exact Hn|by split]. }
        split; [rewrite length_app; cbn [length]; lia|].
        split.
        { intros d r [Hc|[_ ->]] Hr.
          - eapply (neighbourSeen_mono g st); [| | |by eapply H7].
            + cbn [t_visited]. intros q. by apply marked_set_mono.
            + done.
            + done.
          - split; [intros _; cbn [t_visited]; by apply marked_set_same|].
            split; intros Hc; congruence. }
        split; done.
      * unfold territoryMeasure. cbn [t_visited t_queue].
        pose proof (unmarkedCount_set (t_visited st) n H1 Hv Hm).
        rewrite length_app. cbn [length]. lia.
  - cbn [andb]. apply stone_eqb_neq in He.
    destruct (cell g n) eqn:Hc; [done| |]; cbn [stone_eqb].
    + split; [|unfold territoryMeasure; cbn [t_visited t_queue]; lia].
      unfold fillInv. cbn [t_visited t_queue t_size t_black t_white].
      split; [done|]. split; [done|]. split; [done|]. split; [done|].
      split; [done|]. split; [done|]. split; [|split; [|done]].
      * intros d r [Hk|[_ ->]] Hr.
        -- eapply (neighbourSeen_mono g st); [| | |by eapply H7]; by cbn.
        -- split; [intros; congruence|]. split; [done|intros; congruence].
      * intros _. exists cur, n. by repeat split.
    + split; [|unfold territoryMeasure; cbn [t_visited t_queue]; lia].
      unfold fillInv. cbn [t_visited t_queue t_size t_black t_white].
      split; [done|]. split; [done|]. split; [done|]. split; [done|].
      split; [done|]. split; [done|]. split; [|split; [done|]].
      * intros d r [Hk|[_ ->]] Hr.
        -- eapply (neighbourSeen_mono g st); [| | |by eapply H7]; by cbn.
        -- split; [intros; congruence|]. split; [intros; congruence|done].
      * intros _. exists cur, n. by repeat split.
Qed.

(** The four neighbours of a cell taken from the queue. *)
Lemma territoryFold_inv (g : Grid) (v0 : list (list bool)) (start : Position)
    (popped : list Position) (chk : Position -> Position -> Prop) (cur : Position)
    (todo : list Position) (st : Territory) :
  fillInv g v0 start popped chk st -> cur ∈ popped ->
  (forall n, n ∈ todo -> n ∈ neighbours cur) ->
  fillInv g v0 start popped (fun d r => chk d r \/ (d = cur /\ r ∈ todo))
    (fold_left (territoryStep g) todo st)
  /\ (territoryMeasure (fold_left (territoryStep g) todo st) <= territoryMeasure st)%nat.
Proof.
  revert chk st. induction todo as [|n todo IH]; intros chk st Hinv Hcur Hsub;
    cbn [fold_left].
  - split; [|lia]. eapply fillInv_weaken; [|exact Hinv].
    intros d r [Hc|[_ Hr]]; [done|]. by apply elem_of_nil in Hr.
  - destruct (territoryStep_inv g v0 start popped chk st cur n Hinv Hcur) as [Hinv1 Hm1].
    { apply Hsub. by left. }
    destruct (IH _ _ Hinv1 Hcur) as [Hinv2 Hm2].
    { intros m Hm. apply Hsub. by right. }
    split; [|lia]. eapply fillInv_weaken; [|exact Hinv2].
    intros d r [Hc|[Hd Hr]]; [by left; left|].
    apply elem_of_cons in Hr as [->|Hr]; [left; right; done|right; done].
Qed.

Lemma territoryLoop_S (fuel : nat) (g : Grid) (st : Territory) :
  territoryLoop (S fuel) g st
  = match t_queue st with
    | [] => st
    | current :: rest =>
      territoryLoop fuel g
        (fold_left (territoryStep g) (neighbours current)
           (mkTerritory (t_visited st) rest (t_size st) (t_black st) (t_white st)))
    end.
Proof. reflexivity. Qed.

(** The flood fill runs until its queue is empty, within the fuel. *)
Lemma territoryLoop_inv (g : Grid) (v0 : list (list bool)) (start : Position) (fuel : nat)
    (popped : list Position) (st : Territory) :
  fillInv g v0 start popped (fun d r => d ∈ popped /\ r ∈ neighbours d) st ->
  (territoryMeasure st <= fuel)%nat ->
  exists popped',
    fillInv g v0 start popped' (fun d r => d ∈ popped' /\ r ∈ neighbours d)
      (territoryLoop fuel g st)
    /\ t_queue (territoryLoop fuel g st) = [].
Proof.
  revert popped st. induction fuel as [|fuel IH]; intros popped st Hinv Hm.
  - exists popped. split; [exact Hinv|]. cbn [territoryLoop].
    unfold territoryMeasure in Hm. destruct (t_queue st); [done|]. cbn [length] in Hm. lia.
  - rewrite territoryLoop_S. destruct (t_queue st) as [|cur rest] eqn:Hq.
    + exists popped. by split.
    + set (st1 := mkTerritory (t_visited st) rest (t_size st) (t_black st) (t_white st)).
      assert (Hinv1 : fillInv g v0 start (popped ++ [cur])
                        (fun d r => d ∈ popped /\ r ∈ neighbours d) st1).
      { destruct Hinv as (H1 & H2 & H3 & H4 & H5 & H6 & H7 & H8 & H9).
        rewrite Hq in *. unfold fillInv, st1.
        cbn [t_visited t_queue t_size t_black t_white].
        rewrite <- !app_assoc. cbn [app].
        exact (conj H1 (conj H2 (conj H3 (conj H4 (conj H5 (conj H6
                 (conj H7 (conj H8 H9)))))))). }
      assert (Hm1 : (territoryMeasure st1 < territoryMeasure st)%nat).
      { unfold territoryMeasure, st1. cbn [t_visited t_queue]. rewrite Hq.
        cbn [length]. lia. }
      destruct (territoryFold_inv g v0 start (popped ++ [cur]) _ cur (neighbours cur) st1
                  Hinv1) as [Hinv2 Hm2].
      { apply elem_of_app. right. by apply list_elem_of_singleton. }
      { done. }
      apply (IH (popped ++ [cur])); [|lia].
      eapply fillInv_weaken; [|exact Hinv2].
      intros d r [Hd Hr]. apply elem_of_app in Hd as [Hd|Hd]; [by left|].
      apply list_elem_of_singleton in Hd as ->. by right.
Qed.

(** One flood fill of [determineWinner], started at an empty cell that is
    not marked yet: it marks exactly the empty region of the start cell,
    counts its cells, and its two flags say which colours border it. *)
Lemma territoryLoop_correct (g : Grid) (v0 : list (list bool)) (pos : Position) :
  wf2 v0 -> regionClosed g v0 -> emptyAt g pos -> marked v0 pos = false ->
  forall t, t = territoryLoop loopFuel g (mkTerritory (set2 v0 pos true) [pos] 1 false false) ->
  wf2 (t_visited t) /\
  (forall q, marked (t_visited t) q = true <-> marked v0 q = true \/ emptyPath g pos q) /\
  (exists R, NoDup R /\ (forall q, q ∈ R <-> emptyPath g pos q)
             /\ t_size t = Z.of_nat (length R)) /\
  (t_black t = true <-> regionTouches g pos BLACK) /\
  (t_white t = true <-> regionTouches g pos WHITE) /\
  t_queue t = [].
Proof.
  intros Hwf Hclosed [Hv He] Hm t ->.
  set (st0 := mkTerritory (set2 v0 pos true) [pos] 1 false false).
  assert (Hinv0 : fillInv g v0 pos [] (fun d r => d ∈ @nil Position /\ r ∈ neighbours d) st0).
  { unfold fillInv, st0. cbn [t_visited t_queue t_size t_black t_white app length].
    split; [by apply wf2_set2|]. split; [apply NoDup_singleton|].
    split; [by apply list_elem_of_singleton|].
    split; [intros q; rewrite marked_set_iff by done; by rewrite list_elem_of_singleton|].
    split.
    { intros q Hq. apply list_elem_of_singleton in Hq as ->.
      split; [by constructor|done]. }
    split; [done|]. split; [|done].
    intros d r [Hd _]. by apply elem_of_nil in Hd. }
  assert (Hfuel : (territoryMeasure st0 <= loopFuel)%nat).
  { unfold territoryMeasure, st0. cbn [t_visited t_queue length].
    pose proof (unmarkedCount_set v0 pos Hwf Hv Hm).
    pose proof (unmarkedCount_le_fuel v0). rewrite loopFuel_eq. lia. }
  destruct (territoryLoop_inv g v0 pos loopFuel [] st0 Hinv0 Hfuel) as (P & Hinv & Hq).
  revert Hinv Hq. generalize (territoryLoop loopFuel g st0). intros t Hinv Hq.
  destruct Hinv as (H1 & H2 & H3 & H4 & H5 & H6 & H7 & H8 & H9).
  rewrite Hq, app_nil_r in *.
  assert (Hstep : forall a q, emptyPath g a q -> a ∈ P -> q ∈ P).
  { intros a q Hpath. induction Hpath as [p Hp|p q r Hpq IH Hn Hr]; [done|].
    intros Ha. specialize (IH Ha). destruct Hr as [Hrv Hre].
    destruct (H7 q r (conj IH Hn) Hrv) as [Hseen _].
    apply H4 in Hseen; [|done]. destruct Hseen as [Hseen|Hseen]; [|done].
    assert (marked v0 pos = true); [|congruence].
    eapply Hclosed; [exact Hseen|]. apply emptyPath_sym.
    eapply emptyPath_step; [exact (proj1 (H5 q IH))|exact Hn|by split]. }
  assert (Hall : forall q, emptyPath g pos q -> q ∈ P).
  { intros q Hpath. by apply (Hstep pos q). }
  split; [done|]. split.
  { intros q. rewrite H4. split; intros [Hq'|Hq']; auto.
    right. by apply H5. }
  split.
  { exists P. split; [done|]. split; [|done].
    intros q. split; [apply H5|apply Hall]. }
  split.
  { split; [done|]. intros (q & r & Hpath & Hn & Hrv & Hc).
    by destruct (H7 q r (conj (Hall q Hpath) Hn) Hrv) as (_ & Hb & _); apply Hb. }
  split; [|done].
  split; [done|]. intros (q & r & Hpath & Hn & Hrv & Hc).
  by destruct (H7 q r (conj (Hall q Hpath) Hn) Hrv) as (_ & _ & Hw); apply Hw.
Qed.

Lemma territoryOf_region (g : Grid) (c : Stone) (p q : Position) :
  emptyPath g p q ->
  territoryOf g c q <-> regionTouches g p c /\ ~ regionTouches g p (otherPlayer c).
Proof.
  intros Hpq. split.
  - intros (_ & Ht & Hn). split.
    + eapply regionTouches_path; [by apply emptyPath_sym|done].
    + intros Ht'. apply Hn. by eapply regionTouches_path.
  - intros [Ht Hn]. split; [by eapply emptyPath_empty_r|]. split.
    + by eapply regionTouches_path.
    + intros Ht'. apply Hn. eapply regionTouches_path; [by apply emptyPath_sym|done].
Qed.

(** Adding the cells of a freshly marked region to a list of territory
    cells, or leaving the list as it is. *)
Lemma territory_list_extend (g : Grid) (c : Stone) (v v' : list (list bool)) (pos : Position)
    (tl R : list Position) (take : bool) :
  (forall q, marked v' q = true <-> marked v q = true \/ emptyPath g pos q) ->
  marked v pos = false -> regionClosed g v ->
  NoDup tl -> (forall p, p ∈ tl <-> marked v p = true /\ territoryOf g c p) ->
  NoDup R -> (forall q, q ∈ R <-> emptyPath g pos q) ->
  (take = true <-> regionTouches g pos c /\ ~ regionTouches g pos (otherPlayer c)) ->
  let tl' := if take then tl ++ R else tl in
  NoDup tl' /\ (forall p, p ∈ tl' <-> marked v' p = true /\ territoryOf g c p).
Proof.
  intros Hv' Hm Hclosed Hnd Htl HndR HR Htake.
  assert (Hfresh : forall q, emptyPath g pos q -> marked v q = false).
  { intros q Hq. destruct (marked v q) eqn:Hmq; [|done].
    assert (marked v pos = true); [|congruence].
    eapply Hclosed; [exact Hmq|by apply emptyPath_sym]. }
  destruct take; cbn zeta.
  - destruct (proj1 Htake eq_refl) as [Ht Hn]. split.
    + apply list.NoDup_app. split; [done|]. split; [|done].
      intros x Hx HxR. apply Htl in Hx as [Hx _]. apply HR, Hfresh in HxR. congruence.
    + intros p. rewrite elem_of_app, Htl, HR, Hv'. split.
      * intros [[Hp Hter]|Hp]; [by split; [left|]|].
        split; [by right|]. by apply (territoryOf_region g c pos p).
      * intros [[Hp|Hp] Hter]; [by left|by right].
  - split; [done|]. intros p. rewrite Htl, Hv'. split.
    + intros [Hp Hter]. by split; [left|].
    + intros [[Hp|Hp] Hter]; [done|].
      apply (territoryOf_region g c pos p) in Hter; [|done].
      apply Htake in Hter. congruence.
Qed.

Lemma flag_pair (P Q : Prop) (x y : bool) :
  (x = true <-> P) -> (y = true <-> Q) -> (x && negb y = true <-> P /\ ~ Q).
Proof.
  intros Hx Hy. destruct x, y; cbn [andb negb]; split; try done.
  - intros [_ Hn]. destruct Hn. by apply Hy.
  - intros _. split; [by apply Hx|]. intros HQ. by apply Hy in HQ.
  - intros [HP _]. by apply Hx in HP.
  - intros [HP _]. by apply Hx in HP.
Qed.

(** The second pass of [determineWinner] at one cell. *)
Lemma scoreStep_inv (g : Grid) (bb bw : Z) (seen : list Position) (st : ScoreScan)
    (pos : Position) :
  isValidPosition pos = true ->
  scoreInv g bb bw seen st -> scoreInv g bb bw (seen ++ [pos]) (scoreStep g st pos).
Proof.
  intros Hv (Hwf & Hempty & Hclosed & Hseen & tb & tw & Hndb & Htb & Hb & Hndw & Htw & Hw).
  unfold scoreStep.
  destruct (stone_eqb (cell g pos) EMPTY && negb (marked (ss_visited st) pos)) eqn:Hcond.
  2:{ split; [done|]. split; [done|]. split; [done|]. split.
      - intros p Hp Hpe. apply elem_of_app in Hp as [Hp|Hp]; [by apply Hseen|].
        apply list_elem_of_singleton in Hp as ->. destruct Hpe as [_ Hpe].
        rewrite Hpe in Hcond. cbn [stone_eqb andb] in Hcond.
        by destruct (marked (ss_visited st) pos).
      - by exists tb, tw. }
  apply andb_true_iff in Hcond as [He Hm]. apply stone_eqb_eq in He.
  apply negb_true_iff in Hm.
  destruct (territoryLoop_correct g (ss_visited st) pos Hwf Hclosed (conj Hv He) Hm _ eq_refl)
    as (Hwf' & Hmarks & (R & HndR & HR & Hsize) & Hblack & Hwhite & _).
  revert Hwf' Hmarks Hsize Hblack Hwhite.
  generalize (territoryLoop loopFuel g
                (mkTerritory (set2 (ss_visited st) pos true) [pos] 1 false false)).
  intros t Hwf' Hmarks Hsize Hblack Hwhite.
  pose proof (flag_pair _ _ _ _ Hblack Hwhite) as Hbw.
  pose proof (flag_pair _ _ _ _ Hwhite Hblack) as Hwb.
  rewrite andb_comm in Hwb.
  destruct (territory_list_extend g BLACK (ss_visited st) (t_visited t) pos tb R
              (t_black t && negb (t_white t)) Hmarks Hm Hclosed Hndb Htb HndR HR Hbw)
    as [Hndb' Htb'].
  destruct (territory_list_extend g WHITE (ss_visited st) (t_visited t) pos tw R
              (negb (t_black t) && t_white t) Hmarks Hm Hclosed Hndw Htw HndR HR Hwb)
    as [Hndw' Htw'].
  assert (Hexcl : t_black t && negb (t_white t) = true ->
                  negb (t_black t) && t_white t = false).
  { by destruct (t_black t), (t_white t). }
  assert (Hcommon :
    (forall p, marked (t_visited t) p = true -> emptyAt g p) /\
    regionClosed g (t_visited t) /\
    (forall p, p ∈ seen ++ [pos] -> emptyAt g p -> marked (t_visited t) p = true)).
  { split; [|split].
    - intros p Hp. apply Hmarks in Hp as [Hp|Hp]; [by apply Hempty|].
      by eapply emptyPath_empty_r.
    - intros p q Hp Hpq. apply Hmarks. apply Hmarks in Hp as [Hp|Hp].
      + left. by eapply Hclosed.
      + right. by eapply emptyPath_trans.
    - intros p Hp Hpe. apply Hmarks. apply elem_of_app in Hp as [Hp|Hp].
      + left. by apply Hseen.
      + apply list_elem_of_singleton in Hp as ->. right. by constructor. }
  destruct Hcommon as (Hc1 & Hc2 & Hc3).
  destruct (t_black t && negb (t_white t)) eqn:Hbk.
  - rewrite (Hexcl eq_refl) in Hndw', Htw'. cbn zeta in *.
    split; [done|]. split; [done|]. split; [done|]. split; [done|].
    exists (tb ++ R), tw. cbn [ss_visited ss_black ss_white].
    split; [done|]. split; [done|]. split; [rewrite length_app; lia|].
    split; [done|]. split; done.
  - destruct (negb (t_black t) && t_white t) eqn:Hwt; cbn zeta in *.
    + split; [done|]. split; [done|]. split; [done|]. split; [done|].
      exists tb, (tw ++ R). cbn [ss_visited ss_black ss_white].
      split; [done|]. split; [done|]. split; [done|].
      split; [done|]. split; [done|]. rewrite length_app; lia.
    + split; [done|]. split; [done|]. split; [done|]. split; [done|].
      exists tb, tw. cbn [ss_visited ss_black ss_white].
      split; [done|]. split; [done|]. split; [done|].
      split; [done|]. split; done.
Qed.

Lemma scoreScan_inv (g : Grid) (bb bw : Z) (cells seen : list Position) (st : ScoreScan) :
  (forall p, p ∈ cells -> isValidPosition p = true) ->
  scoreInv g bb bw seen st ->
  scoreInv g bb bw (seen ++ cells) (fold_left (scoreStep g) cells st).
Proof.
  revert seen st. induction cells as [|p cells IH]; intros seen st Hv Hinv; cbn [fold_left].
  - by rewrite app_nil_r.
  - replace (seen ++ p :: cells) with ((seen ++ [p]) ++ cells)
      by (by rewrite <- app_assoc).
    apply IH; [intros q Hq; apply Hv; by right|].
    apply scoreStep_inv; [apply Hv; by left|done].
Qed.

Lemma scoreInv_start (g : Grid) (bb bw : Z) :
  scoreInv g bb bw [] (mkScoreScan noMarks bb bw).
Proof.
  unfold scoreInv. cbn [ss_visited ss_black ss_white].
  split; [apply wf2_mkArray2|].
  split; [intros p Hp; by rewrite marked_noMarks in Hp|].
  split; [intros p q Hp; by rewrite marked_noMarks in Hp|].
  split; [intros p Hp; by apply elem_of_nil in Hp|].
  exists [], []. split; [constructor|]. split.
  { intros p. rewrite marked_noMarks. split; [intros Hp; by apply elem_of_nil in Hp|].
    by intros [? _]. }
  split; [cbn [length]; lia|]. split; [constructor|]. split.
  { intros p. rewrite marked_noMarks. split; [intros Hp; by apply elem_of_nil in Hp|].
    by intros [? _]. }
  cbn [length]; lia.
Qed.

(** The two passes of [determineWinner] leave in [blackPoints] and
    [whitePoints] the stones of each colour plus the empty cells of the
    regions that border that colour alone. *)
Lemma scorePasses_area (g : Grid) :
  exists tb tw : list Position,
    NoDup tb /\ (forall p, p ∈ tb <-> territoryOf g BLACK p) /\
    NoDup tw /\ (forall p, p ∈ tw <-> territoryOf g WHITE p) /\
    let st := fold_left (scoreStep g) allCells
                (mkScoreScan noMarks (countStones g BLACK) (countStones g WHITE)) in
    ss_black st = Z.of_nat (stoneCount g BLACK) + Z.of_nat (length tb) /\
    ss_white st = Z.of_nat (stoneCount g WHITE) + Z.of_nat (length tw).
Proof.
  pose proof (scoreScan_inv g (countStones g BLACK) (countStones g WHITE) allCells [] _
                (fun p Hp => proj1 (allCells_valid p) Hp)
                (scoreInv_start g _ _)) as Hinv.
  cbv zeta. revert Hinv.
  generalize (fold_left (scoreStep g) allCells
                (mkScoreScan noMarks (countStones g BLACK) (countStones g WHITE))).
  intros st (Hwf & Hempty & Hclosed & Hseen & tb & tw & Hndb & Htb & Hb & Hndw & Htw & Hw).
  assert (Hall : forall c p, territoryOf g c p -> marked (ss_visited st) p = true).
  { intros c p [Hp _]. apply Hseen; [|done].
    rewrite app_nil_l. apply allCells_valid. by destruct Hp. }
  exists tb, tw.
  split; [done|]. split.
  { intros p. rewrite Htb. split; [by intros [_ ?]|]. intros Ht. split; [by eapply Hall|done]. }
  split; [done|]. split.
  { intros p. rewrite Htw. split; [by intros [_ ?]|]. intros Ht. split; [by eapply Hall|done]. }
  rewrite Hb, Hw, !countStones_stoneCount. by split.
Qed.

Lemma finalPoints_unfold (b : Board) :
  finalPoints b
  = (intAdd (ss_black (fold_left (scoreStep (board b)) allCells
               (mkScoreScan noMarks (countStones (board b) BLACK)
                  (countStones (board b) WHITE)))) (whiteCaptures b),
     intAdd (intAdd (ss_white (fold_left (scoreStep (board b)) allCells
               (mkScoreScan noMarks (countStones (board b) BLACK)
                  (countStones (board b) WHITE)))) (blackCaptures b)) 4).
Proof. reflexivity. Qed.

Lemma intAdd_exact (a b : Z) : INT_MIN <= a + b <= INT_MAX -> intAdd a b = a + b.
Proof.
  unfold intAdd, INT_MIN, INT_MAX. intros H. rewrite Z.mod_small; lia.
Qed.

(** X1. [determineWinner] scores by area: each side gets its stones on the
    board, the empty cells of the regions that border its stones and no
    stone of the other side, and the stones it has captured; White gets 4
    points more. The side with more points wins, equal points give 0. The
    counters are added as [int]s: a total that passes [INT_MAX] comes back
    from [INT_MIN]. *)
Theorem determineWinner_area_score (b : Board) :
  exists tb tw : list Position,
    NoDup tb /\ (forall p, p ∈ tb <-> territoryOf (board b) BLACK p) /\
    NoDup tw /\ (forall p, p ∈ tw <-> territoryOf (board b) WHITE p) /\
    let blackPoints :=
      intAdd (Z.of_nat (stoneCount (board b) BLACK) + Z.of_nat (length tb))
        (whiteCaptures b) in
    let whitePoints :=
      intAdd (intAdd (Z.of_nat (stoneCount (board b) WHITE) + Z.of_nat (length tw))
                (blackCaptures b)) 4 in
    finalPoints b = (blackPoints, whitePoints) /\
    determineWinner b = (if whitePoints <? blackPoints then BLACK
                         else if blackPoints <? whitePoints then WHITE
                         else EMPTY).
Proof.
  destruct (scorePasses_area (board b)) as (tb & tw & Hndb & Htb & Hndw & Htw & Hpts).
  cbv zeta in Hpts. destruct Hpts as [Hb Hw].
  exists tb, tw. split; [done|]. split; [done|]. split; [done|]. split; [done|].
  cbv zeta. unfold determineWinner. rewrite finalPoints_unfold, Hb, Hw. by split.
Qed.

(** ** game.c: the handlers *)

Lemma state_eqb_eq (a b : GameState) : state_eqb a b = true <-> a = b.
Proof. destruct a, b; cbn; split; congruence. Qed.

Lemma mode_eqb_eq (a b : GameMode) : mode_eqb a b = true <-> a = b.
Proof. destruct a, b; cbn; split; congruence. Qed.

Lemma with_game_board_same (game : Game) : with_game_board game (game_board game) = game.
Proof. by destruct game. Qed.

Lemma countEmptyCells_spec (g : Grid) (cells : list Position) (n : Z) :
  countEmptyCells g cells n
  = let k := Z.of_nat (length (filter (fun p => cell g p = EMPTY) cells)) in
    if (0 <? k) && (10 <? n + k) then None else Some (n + k).
Proof.
  revert n. induction cells as [|p cells IH]; intros n; cbn [countEmptyCells].
  - rewrite filter_nil. cbn [length]. cbn. f_equal. lia.
  - rewrite filter_cons. destruct (decide (cell g p = EMPTY)) as [He|He].
    + rewrite He. cbn [stone_eqb length].
      destruct (Z.ltb_spec 10 (n + 1)) as [Hgt|Hle].
      * cbv zeta.
        destruct (Z.ltb_spec 0 (Z.of_nat (S (length (filter (fun p => cell g p = EMPTY) cells)))));
          [|lia].
        destruct (Z.ltb_spec 10
                    (n + Z.of_nat (S (length (filter (fun p => cell g p = EMPTY) cells)))));
          [done|lia].
      * rewrite IH. cbv zeta.
        destruct (Z.ltb_spec 0 (Z.of_nat (length (filter (fun p => cell g p = EMPTY) cells)))),
          (Z.ltb_spec 0 (Z.of_nat (S (length (filter (fun p => cell g p = EMPTY) cells))))),
          (Z.ltb_spec 10
             (n + 1 + Z.of_nat (length (filter (fun p => cell g p = EMPTY) cells)))),
          (Z.ltb_spec 10
             (n + Z.of_nat (S (length (filter (fun p => cell g p = EMPTY) cells)))));
          cbn [andb]; try lia; try done; f_equal; lia.
    + apply stone_eqb_neq in He. rewrite He. apply IH.
Qed.

Lemma determineWinner_liberties (b : Board) (nb nw : Z) :
  determineWinner (with_liberties b nb nw) = determineWinner b.
Proof. reflexivity. Qed.

(** X10. [updateGame] ends a running game exactly when at most 10 cells of the
    board are empty, and then stores the winner [determineWinner] gives;
    otherwise it only refreshes the two liberty totals. *)
Theorem updateGame_ends_full_board (game : Game) :
  let refreshed := with_game_board game (calculateLiberties (game_board game)) in
  if state_eqb (state game) STATE_PLAYING
     && (Z.of_nat (emptyCells (board (game_board game))) <=? 10)
  then updateGame game
       = mkGame (calculateLiberties (game_board refreshed)) (mode game) STATE_GAMEOVER
           (showHints game) (aiThinking game) (determineWinner (game_board game))
  else updateGame game = refreshed.
Proof.
  cbv zeta. unfold updateGame, emptyCells, stoneCount.
  assert (Hb : board (game_board (with_game_board game (calculateLiberties (game_board game))))
               = board (game_board game)) by reflexivity.
  rewrite Hb, countEmptyCells_spec. cbv zeta. clear Hb.
  generalize (Z.of_nat (length (filter (fun p => cell (board (game_board game)) p = EMPTY)
                                  allCells))).
  intros k.
  assert (Hend : state (with_game_board game (calculateLiberties (game_board game)))
                 = state game) by reflexivity.
  unfold endGameManually. rewrite Hend.
  destruct (state_eqb (state game) STATE_PLAYING) eqn:Hs; cbn [negb andb].
  - destruct (Z.leb_spec k 10) as [Hle|Hgt].
    + replace ((0 <? k) && (10 <? 0 + k)) with false
        by (symmetry; apply andb_false_iff; right; apply Z.ltb_ge; lia).
      replace (0 + k <=? 10) with true by (symmetry; apply Z.leb_le; lia).
      reflexivity.
    + replace ((0 <? k) && (10 <? 0 + k)) with true
        by (symmetry; apply andb_true_iff; split; apply Z.ltb_lt; lia).
      reflexivity.
  - destruct ((0 <? k) && (10 <? 0 + k)); [done|]. by destruct (0 + k <=? 10).
Qed.

(** *** Invariants of the boards a game reaches *)

Lemma runOps_inv (P : Board -> Prop) :
  P initBoard ->
  (forall b pos, P b -> P (snd (placeStone b pos))) ->
  (forall b, P b -> P (snd (undoMove b))) ->
  (forall b, P b -> P (snd (redoMove b))) ->
  forall ops, P (runOps ops).
Proof.
  intros H0 Hp Hu Hr ops. unfold runOps. revert H0. generalize initBoard.
  induction ops as [|op ops IH]; intros b Hb; cbn [fold_left]; [done|].
  apply IH. destruct op; cbn [runOp]; auto.
Qed.

Lemma endGameManually_board_inv (P : Board -> Prop) (game : Game) :
  (forall b, P b -> P (calculateLiberties b)) ->
  P (game_board game) -> P (game_board (endGameManually game)).
Proof.
  intros Hc Hg. unfold endGameManually. destruct (negb _); [done|].
  cbn [game_board]. by apply Hc.
Qed.

Lemma updateGame_board_inv (P : Board -> Prop) (game : Game) :
  (forall b, P b -> P (calculateLiberties b)) ->
  P (game_board game) -> P (game_board (updateGame game)).
Proof.
  intros Hc Hg. unfold updateGame.
  assert (H1 : P (game_board (with_game_board game (calculateLiberties (game_board game)))))
    by (cbn [game_board with_game_board]; by apply Hc).
  revert H1. generalize (with_game_board game (calculateLiberties (game_board game))).
  intros game1 H1.
  destruct (countEmptyCells _ _ _) as [n|]; [|done].
  destruct (n <=? 10); [|done]. by apply endGameManually_board_inv.
Qed.

Lemma runGameOp_board_inv (P : Board -> Prop) (game : Game) (op : GameOp) :
  (forall b pos, P b -> P (snd (placeStone b pos))) ->
  (forall b, P b -> P (snd (undoMove b))) ->
  (forall b, P b -> P (snd (redoMove b))) ->
  (forall b, P b -> P (calculateLiberties b)) ->
  P (game_board game) -> P (game_board (runGameOp game op)).
Proof.
  intros Hp Hu Hr Hc Hg.
  assert (Hplace : forall g0 pos, P (game_board g0) ->
            P (game_board (if fst (placeStone (game_board g0) pos)
                           then updateGame (with_game_board g0 (snd (placeStone (game_board g0) pos)))
                           else with_game_board g0 (snd (placeStone (game_board g0) pos))))).
  { intros g0 pos Hg0. pose proof (Hp _ pos Hg0) as Hnew. revert Hnew.
    generalize (placeStone (game_board g0) pos). intros [ok b'] Hnew. cbn [fst snd] in *.
    destruct ok; [apply updateGame_board_inv; [done|]|]; by cbn [game_board with_game_board]. }
  destruct op; cbn [runGameOp].
  - unfold handlePlayerMove. destruct (negb _); [done|]. destruct (_ && _); [done|].
    specialize (Hplace game pos Hg). revert Hplace.
    generalize (placeStone (game_board game) pos). intros [[] b'] Hnew; exact Hnew.
  - unfold handleAIMove. destruct (_ || _); [done|].
    specialize (Hplace game
      (bestMove (findBestMove randSeq ticks clog (game_board game) initAIConfig)) Hg).
    revert Hplace.
    generalize (placeStone (game_board game)
                  (bestMove (findBestMove randSeq ticks clog (game_board game) initAIConfig))).
    intros [[] b'] Hnew; exact Hnew.
  - unfold makeAIMoveForCurrentPlayer. destruct (negb _); [done|].
    cbn [snd game_board with_aiThinking].
    specialize (Hplace (with_aiThinking game true)
      (bestMove (findBestMove randSeq ticks clog (game_board game) initAIConfig)) Hg).
    revert Hplace. cbn [game_board with_aiThinking].
    generalize (placeStone (game_board game)
                  (bestMove (findBestMove randSeq ticks clog (game_board game) initAIConfig))).
    intros [[] b'] Hnew; cbn [fst snd] in *; revert Hnew.
    + generalize (updateGame (with_game_board (with_aiThinking game true) b')).
      by intros [].
    + done.
  - done.
  - done.
  - unfold handleUndo. destruct (negb _); [done|].
    pose proof (Hu _ Hg) as H1. revert H1.
    generalize (undoMove (game_board game)). intros [ok b'] H1. cbn [fst snd] in *.
    destruct (_ && _); cbn [snd game_board with_game_board]; [by apply Hu|done].
  - unfold handleRedo. destruct (negb _); [done|].
    pose proof (Hr _ Hg) as H1. revert H1.
    generalize (redoMove (game_board game)). intros [ok b'] H1. cbn [fst snd] in *.
    destruct (_ && _); cbn [snd game_board with_game_board]; [by apply Hr|done].
  - by apply updateGame_board_inv.
  - by apply endGameManually_board_inv.
  - unfold getViolationHint. destruct (negb _); [done|]. destruct (_ || _); [done|].
    destruct (negb _); [done|]. destruct (isKoMove _ _); [done|].
    rewrite isSuicideMove_restores. rewrite with_game_board_same.
    by destruct (fst _).
Qed.

Lemma runGame_board_inv (P : Board -> Prop) :
  P initBoard ->
  (forall b pos, P b -> P (snd (placeStone b pos))) ->
  (forall b, P b -> P (snd (undoMove b))) ->
  (forall b, P b -> P (snd (redoMove b))) ->
  (forall b, P b -> P (calculateLiberties b)) ->
  forall ops, P (game_board (runGame ops)).
Proof.
  intros H0 Hp Hu Hr Hc ops. unfold runGame.
  assert (Hinit : P (game_board initGame)) by exact H0.
  revert Hinit. generalize initGame.
  induction ops as [|op ops IH]; intros game Hg; cbn [fold_left]; [done|].
  apply IH. by apply runGameOp_board_inv.
Qed.

Lemma otherPlayer_turn (n : nat) :
  otherPlayer (if Nat.even n then BLACK else WHITE) = if Nat.even (S n) then BLACK else WHITE.
Proof. rewrite Nat.even_succ, <- Nat.negb_even. by destruct (Nat.even n). Qed.

Lemma otherPlayer_turn_pred (n : nat) :
  otherPlayer (if Nat.even (S n) then BLACK else WHITE) = if Nat.even n then BLACK else WHITE.
Proof. rewrite Nat.even_succ, <- Nat.negb_even. by destruct (Nat.even n). Qed.

Lemma turn_placeStone (b : Board) (pos : Position) :
  currentPlayer b = turnOf b ->
  currentPlayer (snd (placeStone b pos)) = turnOf (snd (placeStone b pos)).
Proof.
  intros Hb. destruct (validMove b pos) eqn:Hv.
  - destruct (placeStone_accepted b pos Hv) as (Hh & _ & Hc & _). cbv zeta in Hh, Hc.
    unfold turnOf. rewrite Hc, Hh, Hb. cbn [h_prev length]. apply otherPlayer_turn.
  - by rewrite (placeStone_rejected b pos Hv).
Qed.

Lemma turn_undoMove (b : Board) :
  currentPlayer b = turnOf b -> currentPlayer (snd (undoMove b)) = turnOf (snd (undoMove b)).
Proof.
  intros Hb. destruct (undoMove_cases b) as [[_ ->]|(p & ps & Hp & ->)]; [done|].
  unfold turnOf in *. cbn [snd restoreFrom currentPlayer history h_prev].
  rewrite Hb, Hp. cbn [length]. apply otherPlayer_turn_pred.
Qed.

Lemma turn_redoMove (b : Board) :
  currentPlayer b = turnOf b -> currentPlayer (snd (redoMove b)) = turnOf (snd (redoMove b)).
Proof.
  intros Hb. destruct (redoMove_cases b) as [[_ ->]|(n & ns & Hn & ->)]; [done|].
  unfold turnOf in *. cbn [snd restoreFrom currentPlayer history h_prev].
  rewrite Hb. cbn [length]. apply otherPlayer_turn.
Qed.

Lemma turn_runGame (ops : list GameOp) :
  currentPlayer (game_board (runGame ops)) = turnOf (game_board (runGame ops)).
Proof.
  apply (runGame_board_inv (fun b => currentPlayer b = turnOf b)).
  - reflexivity.
  - intros b pos. apply turn_placeStone.
  - apply turn_undoMove.
  - apply turn_redoMove.
  - done.
Qed.

(** X9. Whose turn it is follows from the snapshot list: on every board a
    game reaches, through the rule engine or through the handlers of
    game.c, Black is to move when an even number of snapshots lies before
    the current one and White otherwise; [currentPlayer] is never [EMPTY]. *)
Theorem turn_follows_history :
  (forall ops, currentPlayer (runOps ops) = turnOf (runOps ops)) /\
  (forall ops, currentPlayer (game_board (runGame ops)) = turnOf (game_board (runGame ops))) /\
  (forall ops, currentPlayer (game_board (runGame ops)) <> EMPTY).
Proof.
  split; [|split].
  - apply (runOps_inv (fun b => currentPlayer b = turnOf b)).
    + reflexivity.
    + intros b pos. apply turn_placeStone.
    + apply turn_undoMove.
    + apply turn_redoMove.
  - apply turn_runGame.
  - intros ops. rewrite turn_runGame. unfold turnOf. by destruct (Nat.even _).
Qed.

(** *** The handlers *)

(** X11. [handlePlayerMove] accepts a move exactly when the game is running, it
    is not the computer's turn (White in the mode [MODE_PVE]) and
    [isValidMove] accepts the position; a move it rejects leaves the game
    as it was. *)
Theorem handlePlayerMove_accepts_iff (game : Game) (pos : Position) :
  fst (handlePlayerMove game pos)
  = state_eqb (state game) STATE_PLAYING
    && negb (mode_eqb (mode game) MODE_PVE
             && stone_eqb (currentPlayer (game_board game)) WHITE)
    && validMove (game_board game) pos
  /\ (if fst (handlePlayerMove game pos)
      then snd (handlePlayerMove game pos)
           = updateGame (with_game_board game (snd (placeStone (game_board game) pos)))
      else snd (handlePlayerMove game pos) = game).
Proof.
  unfold handlePlayerMove.
  destruct (state_eqb (state game) STATE_PLAYING); cbn [negb andb fst snd]; [|done].
  destruct (mode_eqb (mode game) MODE_PVE
            && stone_eqb (currentPlayer (game_board game)) WHITE); cbn [negb andb fst snd];
    [done|].
  destruct (validMove (game_board game) pos) eqn:Hv.
  - pose proof (placeStone_result (game_board game) pos) as Hr. rewrite Hv in Hr.
    revert Hr. generalize (placeStone (game_board game) pos). intros [ok b'] Hr.
    cbn [fst snd] in *. subst ok. by cbn [fst snd].
  - rewrite (placeStone_rejected _ _ Hv). cbn [fst snd]. by rewrite with_game_board_same.
Qed.

(** X12. The computer's move: [handleAIMove] acts only in a running game in the
    mode [MODE_PVE] with White to move; when it returns [false] the game is
    as it was, and when it returns [true] the move it played was accepted by
    [isValidMove] and Black is to move. *)
Theorem handleAIMove_outcome (randSeq : nat -> nat) (ticks : nat -> Z)
    (clog : float -> float) (game : Game) :
  let best := bestMove (findBestMove randSeq ticks clog (game_board game) initAIConfig) in
  if fst (handleAIMove randSeq ticks clog game)
  then state game = STATE_PLAYING /\ mode game = MODE_PVE
       /\ currentPlayer (game_board game) = WHITE
       /\ validMove (game_board game) best = true
       /\ snd (handleAIMove randSeq ticks clog game)
          = updateGame (with_game_board game (snd (placeStone (game_board game) best)))
       /\ currentPlayer (game_board (snd (handleAIMove randSeq ticks clog game))) = BLACK
  else snd (handleAIMove randSeq ticks clog game) = game.
Proof.
  cbv zeta. unfold handleAIMove.
  destruct (state_eqb (state game) STATE_PLAYING) eqn:Hs; cbn [negb orb fst snd]; [|done].
  destruct (mode_eqb (mode game) MODE_PVE) eqn:Hm; cbn [negb orb fst snd]; [|done].
  destruct (stone_eqb (currentPlayer (game_board game)) WHITE) eqn:Hw;
    cbn [negb orb fst snd]; [|done].
  apply state_eqb_eq in Hs. apply mode_eqb_eq in Hm. apply stone_eqb_eq in Hw.
  generalize (bestMove (findBestMove randSeq ticks clog (game_board game) initAIConfig)).
  intros best. destruct (validMove (game_board game) best) eqn:Hv.
  - pose proof (placeStone_result (game_board game) best) as Hr. rewrite Hv in Hr.
    destruct (placeStone_accepted (game_board game) best Hv) as (_ & _ & Hc & _).
    cbv zeta in Hc. rewrite Hw in Hc. change (otherPlayer WHITE) with BLACK in Hc.
    revert Hr Hc. generalize (placeStone (game_board game) best). intros [ok b'] Hr Hc.
    cbn [fst snd] in *. subst ok. cbn [fst snd].
    split; [done|]. split; [done|]. split; [done|]. split; [done|]. split; [done|].
    apply (updateGame_board_inv (fun b => currentPlayer b = BLACK)); [done|].
    by cbn [game_board with_game_board].
  - rewrite (placeStone_rejected _ _ Hv). cbn [fst snd]. by rewrite with_game_board_same.
Qed.

(** X13. A game that is not running ([STATE_GAMEOVER], [STATE_MENU],
    [STATE_QUIT]) is closed to every handler: moves of the player and of the
    computer, undo and redo return [false] and leave the game as it was,
    [endGameManually] does nothing, and [updateGame] only refreshes the two
    liberty totals. *)
Theorem stopped_game_is_closed (game : Game) (pos : Position) (randSeq : nat -> nat)
    (ticks : nat -> Z) (clog : float -> float) :
  state game <> STATE_PLAYING ->
  handlePlayerMove game pos = (false, game) /\
  handleAIMove randSeq ticks clog game = (false, game) /\
  makeAIMoveForCurrentPlayer randSeq ticks clog game = (false, game) /\
  handleUndo game = (false, game) /\
  handleRedo game = (false, game) /\
  endGameManually game = game /\
  updateGame game = with_game_board game (calculateLiberties (game_board game)).
Proof.
  intros Hs.
  assert (Hb : state_eqb (state game) STATE_PLAYING = false).
  { destruct (state_eqb (state game) STATE_PLAYING) eqn:H; [|done].
    by apply state_eqb_eq in H. }
  unfold handlePlayerMove, handleAIMove, makeAIMoveForCurrentPlayer, handleUndo, handleRedo,
    endGameManually.
  rewrite Hb. cbn [negb orb]. do 6 (split; [reflexivity|]).
  unfold updateGame.
  assert (Hend : forall g1, state g1 = state game -> endGameManually g1 = g1).
  { intros g1 H1. unfold endGameManually. by rewrite H1, Hb. }
  specialize (Hend (with_game_board game (calculateLiberties (game_board game))) eq_refl).
  revert Hend.
  generalize (with_game_board game (calculateLiberties (game_board game))). intros g1 Hend.
  destruct (countEmptyCells _ _ _) as [n|]; [|done].
  destruct (n <=? 10); [|done]. exact Hend.
Qed.

Lemma stopped_game_is_closed_witness :
  let game := mkGame initBoard MODE_PVP STATE_GAMEOVER true false WHITE in
  state game <> STATE_PLAYING /\
  handlePlayerMove game (mkPos 3 3) = (false, game) /\
  handleUndo game = (false, game).
Proof.
  cbv zeta. split; [discriminate|].
  pose proof (stopped_game_is_closed
                (mkGame initBoard MODE_PVP STATE_GAMEOVER true false WHITE)
                (mkPos 3 3) rand0 ticks0 log0) as H.
  split; apply H; discriminate.
Defined.

(** X14. Undo in a game: on every game reached from [initGame], [handleUndo]
    that returns [false] has left the game as it was, and in the mode
    [MODE_PVE] a successful [handleUndo] ends with Black, the human player,
    to move (it takes back the computer's move too). *)
Theorem handleUndo_reachable (ops : list GameOp) :
  let game := runGame ops in
  if fst (handleUndo game)
  then mode game = MODE_PVE -> currentPlayer (game_board (snd (handleUndo game))) = BLACK
  else snd (handleUndo game) = game.
Proof.
  cbv zeta. pose proof (turn_runGame ops) as Ht. revert Ht.
  generalize (runGame ops). intros game Ht.
  unfold handleUndo. destruct (negb _); cbn [fst snd]; [done|].
  pose proof (turn_undoMove _ Ht) as Ht1.
  destruct (undoMove_cases (game_board game)) as [[_ Hu]|(p & ps & Hp & Hu)].
  { rewrite Hu. cbn [fst snd andb]. by rewrite with_game_board_same. }
  rewrite Hu in Ht1 |- *. cbn [fst snd andb] in *.
  revert Ht1.
  generalize (restoreFrom (game_board game)
                (mkHistory ps p (h_cur (history (game_board game))
                                 :: h_next (history (game_board game))))).
  intros b1 Ht1. cbn [mode with_game_board game_board].
  destruct (mode_eqb (mode game) MODE_PVE) eqn:Hm; cbn [andb].
  - destruct (stone_eqb (currentPlayer b1) WHITE) eqn:Hw;
      cbn [fst snd game_board with_game_board].
    + apply stone_eqb_eq in Hw.
      destruct (undoMove_cases b1) as [[Hnil _]|(p' & ps' & Hp' & Hu')].
      { unfold turnOf in Ht1. rewrite Hnil in Ht1. cbn in Ht1. congruence. }
      rewrite Hu'. cbn [fst snd game_board with_game_board restoreFrom currentPlayer].
      intros _. by rewrite Hw.
    + intros _. unfold turnOf in Ht1. rewrite Ht1 in Hw |- *.
      by destruct (Nat.even _).
  - intros Hmode. apply mode_eqb_eq in Hmode. congruence.
Qed.

(** X15. Redo at the end of the snapshot list: in the mode [MODE_PVE], with
    Black to move and exactly one snapshot after the current one,
    [handleRedo] replays that snapshot, fails to replay a second one, and
    returns [false] although the board has changed. *)
Theorem handleRedo_reports_failure_after_one_step (ops : list GameOp) (n : BoardHistory) :
  let game := runGame ops in
  state game = STATE_PLAYING -> mode game = MODE_PVE ->
  currentPlayer (game_board game) = BLACK ->
  h_next (history (game_board game)) = [n] ->
  fst (handleRedo game) = false /\
  game_board (snd (handleRedo game)) = snd (redoMove (game_board game)) /\
  h_cur (history (game_board (snd (handleRedo game)))) = n /\
  snd (handleRedo game) <> game.
Proof.
  cbv zeta. generalize (runGame ops). intros game Hs Hm Hc Hn.
  unfold handleRedo. rewrite Hs. cbn [state_eqb negb].
  destruct (redoMove_cases (game_board game)) as [[Hnil _]|(n' & ns & Hn' & Hr)];
    [congruence|].
  rewrite Hn in Hn'. injection Hn' as <- <-.
  rewrite Hr. cbn [fst snd andb mode with_game_board game_board restoreFrom currentPlayer].
  rewrite Hm, Hc. cbn [mode_eqb andb otherPlayer stone_eqb].
  set (b1 := restoreFrom (game_board game)
               (mkHistory (h_cur (history (game_board game))
                           :: h_prev (history (game_board game))) n [])).
  assert (Hr2 : redoMove b1 = (false, b1)) by reflexivity.
  rewrite Hr2. cbn [fst snd game_board with_game_board].
  split; [done|]. split; [done|]. split; [done|].
  intros Heq. apply (f_equal (fun g => length (h_prev (history (game_board g))))) in Heq.
  unfold b1 in Heq.
  cbn [game_board with_game_board history restoreFrom h_prev length] in Heq. lia.
Qed.

Lemma handleRedo_reports_failure_after_one_step_witness :
  let ops := [GoPlayerMove (mkPos 3 3); GoUndo; GoToggleMode] in
  h_next (history (game_board (runGame ops)))
  = [h_cur (history (game_board (runGame [GoPlayerMove (mkPos 3 3)])))] /\
  fst (handleRedo (runGame ops)) = false /\
  snd (handleRedo (runGame ops)) <> runGame ops.
Proof.
  cbv zeta.
  assert (H4 : h_next (history (game_board
                 (runGame [GoPlayerMove (mkPos 3 3); GoUndo; GoToggleMode])))
               = [h_cur (history (game_board (runGame [GoPlayerMove (mkPos 3 3)])))])
    by (vm_compute; reflexivity).
  split; [exact H4|].
  pose proof (handleRedo_reports_failure_after_one_step
                [GoPlayerMove (mkPos 3 3); GoUndo; GoToggleMode]
                (h_cur (history (game_board (runGame [GoPlayerMove (mkPos 3 3)]))))) as H.
  cbv zeta in H.
  destruct H as (H & _ & _ & Hne);
    [vm_compute; reflexivity|vm_compute; reflexivity|vm_compute; reflexivity|exact H4|].
  by split.
Defined.

(** X16. [getViolationHint] and [isValidMove] agree: with hints switched on,
    the hint is [NULL] exactly for the positions [isValidMove] accepts; with
    hints switched off it is always [NULL]. The game is never changed. *)
Theorem getViolationHint_iff_valid (game : Game) (pos : Position) :
  snd (getViolationHint game pos) = game /\
  (fst (getViolationHint game pos) = None
   <-> showHints game = false \/ validMove (game_board game) pos = true).
Proof.
  unfold getViolationHint, validMove, isValidMove. rewrite bounds_test.
  destruct (showHints game); cbn [negb fst snd]; [|split; [done|]; split; auto].
  destruct (isValidPosition pos); cbn [negb fst snd].
  2:{ split; [done|]. split; [done|]. by intros [|]. }
  destruct (stone_eqb (cell (board (game_board game)) pos) EMPTY); cbn [negb fst snd].
  2:{ split; [done|]. split; [done|]. by intros [|]. }
  destruct (isKoMove (game_board game) pos); cbn [fst snd].
  { split; [done|]. split; [done|]. by intros [|]. }
  pose proof (isSuicideMove_restores (game_board game) pos) as Hr. revert Hr.
  generalize (isSuicideMove (game_board game) pos). intros [s b'] Hr. cbn [fst snd] in *.
  subst b'. rewrite with_game_board_same.
  destruct s; cbn [fst snd]; split; try done.
  - split; [done|]. by intros [|].
  - split; [|done]. by right.
Qed.

(** X17. [makeAIMoveForCurrentPlayer] in a running game: [aiThinking] is
    [false] when it returns; a move it plays was accepted by [isValidMove]
    and hands the turn to the other side; when it returns [false] nothing
    else of the game has changed. *)
Theorem makeAIMoveForCurrentPlayer_outcome (randSeq : nat -> nat) (ticks : nat -> Z)
    (clog : float -> float) (game : Game) :
  state game = STATE_PLAYING ->
  let best := bestMove (findBestMove randSeq ticks clog (game_board game) initAIConfig) in
  let r := makeAIMoveForCurrentPlayer randSeq ticks clog game in
  aiThinking (snd r) = false /\
  fst r = validMove (game_board game) best /\
  (if fst r
   then currentPlayer (game_board (snd r)) = otherPlayer (currentPlayer (game_board game))
   else snd r = with_aiThinking game false).
Proof.
  intros Hs. cbv zeta. unfold makeAIMoveForCurrentPlayer. rewrite Hs.
  cbn [state_eqb negb fst snd game_board with_aiThinking].
  generalize (bestMove (findBestMove randSeq ticks clog (game_board game) initAIConfig)).
  intros best. split; [reflexivity|].
  rewrite placeStone_result. split; [done|].
  destruct (validMove (game_board game) best) eqn:Hv.
  - destruct (placeStone_accepted (game_board game) best Hv) as (_ & _ & Hc & _).
    cbv zeta in Hc. revert Hc. generalize (snd (placeStone (game_board game) best)).
    intros b' Hc.
    assert (Hu : currentPlayer (game_board
                   (updateGame (with_game_board (with_aiThinking game true) b')))
                 = otherPlayer (currentPlayer (game_board game))).
    { apply (updateGame_board_inv
               (fun b => currentPlayer b = otherPlayer (currentPlayer (game_board game))));
        [done|]. by cbn [game_board with_game_board]. }
    revert Hu. generalize (updateGame (with_game_board (with_aiThinking game true) b')).
    by intros [].
  - rewrite (placeStone_rejected _ _ Hv). cbn [snd]. by destruct game.
Qed.

Lemma makeAIMoveForCurrentPlayer_outcome_witness :
  state initGame = STATE_PLAYING /\
  aiThinking (snd (makeAIMoveForCurrentPlayer rand0 ticks0 log0 initGame)) = false.
Proof.
  split; [reflexivity|].
  exact (proj1 (makeAIMoveForCurrentPlayer_outcome rand0 ticks0 log0 initGame eq_refl)).
Defined.

(** ** utils.c *)

(** X18. [randomInt(min, max)] stays within its bounds: for [min <= max] (and a
    non-negative value of [rand()]) the result lies between [min] and [max],
    both included. *)
Theorem randomInt_in_range (r min max : Z) :
  0 <= r -> min <= max -> min <= randomInt r min max <= max.
Proof.
  intros Hr Hle. unfold randomInt.
  pose proof (Z.rem_bound_pos r (max - min + 1) Hr ltac:(lia)). lia.
Qed.

Lemma randomInt_in_range_witness : 1 <= randomInt 41 1 6 <= 6.
Proof. apply randomInt_in_range; lia. Defined.

(** ** Groups and liberties *)

Lemma stonePath_valid_r (g : Grid) (c : Stone) (p q : Position) :
  stonePath g c p q -> isValidPosition q = true /\ cell g q = c.
Proof. by destruct 1. Qed.

Lemma stonePath_valid_l (g : Grid) (c : Stone) (p q : Position) :
  stonePath g c p q -> isValidPosition p = true /\ cell g p = c.
Proof. induction 1; done. Qed.

Lemma stonePath_trans (g : Grid) (c : Stone) (p q r : Position) :
  stonePath g c p q -> stonePath g c q r -> stonePath g c p r.
Proof.
  intros Hpq Hqr. induction Hqr as [q Hq|q r s Hqr IH Hn Hs Hc]; [done|].
  eapply stonePath_step; [by apply IH|done|done|done].
Qed.

Lemma stonePath_sym (g : Grid) (c : Stone) (p q : Position) :
  stonePath g c p q -> stonePath g c q p.
Proof.
  induction 1 as [p Hp Hc|p q r Hpq IH Hn Hr Hc]; [by constructor|].
  eapply stonePath_trans; [|exact IH].
  destruct (stonePath_valid_r _ _ _ _ Hpq) as [Hq Hcq].
  eapply stonePath_step; [by constructor|by apply neighbours_sym|done|done].
Qed.

Lemma stonePath_neighbour (g : Grid) (c : Stone) (p n : Position) :
  isValidPosition p = true -> cell g p = c -> n ∈ neighbours p ->
  isValidPosition n = true -> cell g n = c -> stonePath g c p n.
Proof. intros. eapply stonePath_step; [by constructor|done|done|done]. Qed.

Lemma unmarkedCount_pos (m : list (list bool)) (p : Position) :
  wf2 m -> isValidPosition p = true -> marked m p = false -> (0 < unmarkedCount m)%nat.
Proof. intros Hw Hp Hm. pose proof (unmarkedCount_set m p Hw Hp Hm). lia. Qed.

(** The walk of [dfsMarkGroup], started on an unmarked stone with enough
    fuel: it appends the start cell and then cells not marked before, each
    once, each joined to the start cell by stones of the colour; the marks
    are the old ones and the cells appended; and every neighbour of the
    colour of an appended cell is marked in the end. *)
Lemma dfsMarkGroup_spec (fuel : nat) (g : Grid) (c : Stone) (pos : Position)
    (st : list (list bool) * list Position) :
  wf2 (fst st) -> isValidPosition pos = true -> cell g pos = c ->
  marked (fst st) pos = false -> (unmarkedCount (fst st) <= fuel)%nat ->
  exists new,
    dfsInv g c (fst st) (snd st) pos (unmarkedCount (fst st))
      (dfsMarkGroup fuel g pos c st) new /\
    (forall n, n ∈ neighbours pos -> isValidPosition n = true -> cell g n = c ->
               marked (fst (dfsMarkGroup fuel g pos c st)) n = true).
Proof.
  revert pos st. induction fuel as [|fuel IH]; intros pos st Hw Hp Hc Hm Hfuel.
  { pose proof (unmarkedCount_pos _ _ Hw Hp Hm). lia. }
  rewrite dfsMarkGroup_S.
  pose proof (unmarkedCount_set _ _ Hw Hp Hm) as Hlt.
  set (m0 := fst st) in *. set (grp0 := snd st) in *.
  assert (Hfold : forall l acc new,
    dfsInv g c m0 grp0 pos fuel acc new ->
    (forall n, n ∈ l -> n ∈ neighbours pos) ->
    exists new',
      dfsInv g c m0 grp0 pos fuel (fold_left (dfsStep fuel g c) l acc) new' /\
      (forall q, marked (fst acc) q = true ->
                 marked (fst (fold_left (dfsStep fuel g c) l acc)) q = true) /\
      (forall n, n ∈ l -> isValidPosition n = true -> cell g n = c ->
                 marked (fst (fold_left (dfsStep fuel g c) l acc)) n = true)).
  { induction l as [|n l IHl]; intros acc new Hinv Hsub; cbn [fold_left].
    { exists new. split; [done|]. split; [done|]. intros n Hn. by apply elem_of_nil in Hn. }
    assert (Hstep : exists new1,
      dfsInv g c m0 grp0 pos fuel (dfsStep fuel g c acc n) new1 /\
      (forall q, marked (fst acc) q = true ->
                 marked (fst (dfsStep fuel g c acc n)) q = true) /\
      (isValidPosition n = true -> cell g n = c ->
       marked (fst (dfsStep fuel g c acc n)) n = true)).
    { pose proof Hinv as (H1 & H2 & H3 & H4 & H5 & H6 & H7). unfold dfsStep.
      destruct (isValidPosition n) eqn:Hnv; cbn [andb].
      2:{ exists new. split; [exact Hinv|]. split; [done|]. done. }
      destruct (marked (fst acc) n) eqn:Hnm; cbn [negb andb].
      { exists new. split; [exact Hinv|]. split; done. }
      destruct (stone_eqb (cell g n) c) eqn:Hnc.
      2:{ exists new. split; [exact Hinv|]. split; [done|].
          intros _ Hcn. apply stone_eqb_neq in Hnc. done. }
      apply stone_eqb_eq in Hnc.
      destruct (IH n acc H3 Hnv Hnc Hnm H7) as (new' & Hinv' & Hnb').
      revert Hinv' Hnb'. generalize (dfsMarkGroup fuel g n c acc). intros r Hinv' Hnb'.
      destruct Hinv' as (R1 & R2 & R3 & R4 & R5 & R6 & R7).
      assert (Hpn : stonePath g c pos n).
      { apply stonePath_neighbour; [done|done| |done|done]. apply Hsub. by left. }
      exists (new ++ n :: new'). split; [|split].
      - split; [|split; [|split; [|split; [|split; [|split]]]]].
        + rewrite R1, H1. by rewrite <- app_assoc.
        + rewrite app_comm_cons. apply list.NoDup_app. split; [done|]. split; [|done].
          intros q Hq Hq'. apply R5 in Hq' as [Hq' _].
          assert (marked (fst acc) q = true) by (apply H4; by right). congruence.
        + done.
        + intros q. rewrite R4, H4, app_comm_cons, elem_of_app. tauto.
        + intros q Hq. rewrite app_comm_cons in Hq. apply elem_of_app in Hq as [Hq|Hq].
          * by apply H5.
          * destruct (R5 q Hq) as [Hqm Hqp]. split.
            -- destruct (marked m0 q) eqn:Hq0; [|done].
               assert (marked (fst acc) q = true) by (apply H4; by left). congruence.
            -- by eapply stonePath_trans.
        + intros q k Hq Hk Hkv Hkc. apply elem_of_app in Hq as [Hq|Hq].
          * apply R4. left. by eapply H6.
          * apply elem_of_cons in Hq as [->|Hq].
            -- by apply Hnb'.
            -- by eapply R6.
        + lia.
      - intros q Hq. apply R4. by left.
      - intros _ _. apply R4. right. by left. }
    destruct Hstep as (new1 & Hinv1 & Hmono1 & Hn1).
    destruct (IHl _ new1 Hinv1) as (new2 & Hinv2 & Hmono2 & Hl2).
    { intros k Hk. apply Hsub. by right. }
    exists new2. split; [done|]. split; [by auto|].
    intros k Hk Hkv Hkc. apply elem_of_cons in Hk as [->|Hk]; [|by apply Hl2].
    apply Hmono2. by apply Hn1. }
  destruct (Hfold (neighbours pos) (set2 m0 pos true, grp0 ++ [pos]) []) as (new & Hinv & _ & Hnb).
  { unfold dfsInv. cbn [fst snd]. split; [done|]. split; [apply NoDup_singleton|].
    split; [by apply wf2_set2|]. split.
    { intros q. rewrite marked_set_iff by done. by rewrite list_elem_of_singleton. }
    split.
    { intros q Hq. apply list_elem_of_singleton in Hq as ->. split; [done|by constructor]. }
    split; [intros q n Hq; by apply elem_of_nil in Hq|]. lia. }
  { done. }
  exists new. split; [|done].
  destruct Hinv as (H1 & H2 & H3 & H4 & H5 & H6 & H7).
  split; [done|]. split; [done|]. split; [done|]. split; [done|]. split; [done|].
  split; [done|]. apply unmarkedCount_mono. split; [done|].
  intros q Hq. apply H4. by left.
Qed.

(** The walk from an unmarked stone, on marks that cut no group: it
    collects the group of the stone, once each, and nothing else. *)
Lemma dfsMarkGroup_component (g : Grid) (c : Stone) (pos : Position)
    (m0 : list (list bool)) (grp0 : list Position) :
  wf2 m0 -> isValidPosition pos = true -> cell g pos = c -> marked m0 pos = false ->
  groupClosed g c m0 ->
  forall r, r = dfsMarkGroup cellFuel g pos c (m0, grp0) ->
  exists new,
    snd r = grp0 ++ pos :: new /\ NoDup (pos :: new) /\ wf2 (fst r) /\
    (forall q, marked (fst r) q = true <-> marked m0 q = true \/ stonePath g c pos q) /\
    (forall q, q ∈ pos :: new <-> stonePath g c pos q) /\
    (forall q, stonePath g c pos q -> marked m0 q = false) /\
    groupClosed g c (fst r).
Proof.
  intros Hw Hp Hc Hm Hclosed r ->.
  destruct (dfsMarkGroup_spec cellFuel g c pos (m0, grp0) Hw Hp Hc Hm
              (unmarkedCount_le_fuel m0)) as (new & Hinv & Hnb).
  revert Hinv Hnb. generalize (dfsMarkGroup cellFuel g pos c (m0, grp0)).
  intros r (H1 & H2 & H3 & H4 & H5 & H6 & _) Hnb. cbn [fst snd] in *.
  assert (Hcl : forall q n, q ∈ pos :: new -> n ∈ neighbours q -> isValidPosition n = true ->
                  cell g n = c -> marked (fst r) n = true).
  { intros q n Hq. apply elem_of_cons in Hq as [->|Hq]; [apply Hnb|by apply H6]. }
  assert (Hall : forall a q, stonePath g c a q -> a ∈ pos :: new -> q ∈ pos :: new).
  { intros a q Hpath. induction Hpath as [a Ha Hca|a q n Haq IH Hn Hnv Hnc]; [done|].
    intros Ha. specialize (IH Ha).
    pose proof (Hcl q n IH Hn Hnv Hnc) as Hmn. apply H4 in Hmn as [Hmn|Hmn]; [|done].
    destruct (H5 q IH) as [Hq0 Hpq]. destruct (stonePath_valid_r _ _ _ _ Hpq) as [Hqv Hqc].
    assert (marked m0 q = true); [|congruence].
    apply (Hclosed n q Hmn Hnc); [by apply neighbours_sym|done|done]. }
  assert (Hiff : forall q, q ∈ pos :: new <-> stonePath g c pos q).
  { intros q. split; [apply H5|]. intros Hq. apply (Hall pos q Hq). by left. }
  exists new. split; [done|]. split; [done|]. split; [done|]. split.
  { intros q. rewrite H4. by rewrite Hiff. }
  split; [done|]. split.
  { intros q Hq. apply Hiff in Hq. by apply H5. }
  intros p n Hpm Hpc Hn Hnv Hnc. apply H4 in Hpm as [Hpm|Hpm].
  - apply H4. left. by eapply Hclosed.
  - by eapply Hcl.
Qed.

Lemma groupClosed_noMarks (g : Grid) (c : Stone) : groupClosed g c noMarks.
Proof. intros p n Hp. by rewrite marked_noMarks in Hp. Qed.

(** One neighbour in [calculateGroupLiberties]. *)
Lemma libertyStep_inv (g : Grid) (group libs : list Position)
    (seen : Position -> Position -> Prop) (acc : list (list bool) * Z) (q n : Position) :
  libertyInv g group libs seen acc -> q ∈ group -> n ∈ neighbours q ->
  exists libs',
    libertyInv g group libs' (fun a b => seen a b \/ (a = q /\ b = n))
      (if isValidPosition n && stone_eqb (cell g n) EMPTY && negb (marked (fst acc) n)
       then (set2 (fst acc) n true, snd acc + 1) else acc).
Proof.
  intros (H1 & H2 & H3 & H4 & H5 & H6) Hq Hn.
  destruct (isValidPosition n) eqn:Hnv; cbn [andb].
  2:{ exists libs. split; [done|]. split; [done|]. split; [done|]. split; [done|].
      split; [done|]. intros a b [Hs|[-> ->]] Hb; [by eapply H6|].
      destruct Hb as [Hbv _]. congruence. }
  destruct (stone_eqb (cell g n) EMPTY) eqn:Hne; cbn [andb].
  2:{ exists libs. split; [done|]. split; [done|]. split; [done|]. split; [done|].
      split; [done|]. intros a b [Hs|[-> ->]] Hb; [by eapply H6|].
      destruct Hb as [_ Hbe]. apply stone_eqb_neq in Hne. done. }
  apply stone_eqb_eq in Hne.
  destruct (marked (fst acc) n) eqn:Hnm; cbn [negb].
  { exists libs. split; [done|]. split; [done|]. split; [done|]. split; [done|].
    split; [done|]. intros a b [Hs|[-> ->]] Hb; [by eapply H6|]. by apply H3. }
  exists (libs ++ [n]). unfold libertyInv. cbn [fst snd].
  split; [by apply wf2_set2|]. split.
  { apply list.NoDup_app. split; [done|]. split; [|apply NoDup_singleton].
    intros x Hx Hx'. apply list_elem_of_singleton in Hx' as ->. apply H3 in Hx. congruence. }
  split.
  { intros r. rewrite marked_set_iff by done.
    rewrite H3, elem_of_app, list_elem_of_singleton. tauto. }
  split; [rewrite length_app; cbn [length]; lia|]. split.
  { intros r Hr. apply elem_of_app in Hr as [Hr|Hr]; [by apply H5|].
    apply list_elem_of_singleton in Hr as ->. split; [done|]. by exists q. }
  intros a b [Hs|[-> ->]] Hb; apply elem_of_app; [left; by eapply H6|right].
  by apply list_elem_of_singleton.
Qed.

Lemma libertyInv_weaken (g : Grid) (group libs : list Position)
    (seen seen' : Position -> Position -> Prop) (acc : list (list bool) * Z) :
  (forall a b, seen' a b -> seen a b) ->
  libertyInv g group libs seen acc -> libertyInv g group libs seen' acc.
Proof.
  intros Hsub (H1 & H2 & H3 & H4 & H5 & H6).
  split; [done|]. split; [done|]. split; [done|]. split; [done|]. split; [done|].
  intros a b Hs. apply (H6 a b). by apply Hsub.
Qed.

(** [calculateGroupLiberties] counts the empty cells next to the stones it
    is given, each cell once. *)
Lemma calculateGroupLiberties_spec (g : Grid) (group : list Position) :
  exists libs,
    NoDup libs /\
    (forall r, r ∈ libs <-> emptyAt g r /\ exists q, q ∈ group /\ r ∈ neighbours q) /\
    calculateGroupLiberties g group = Z.of_nat (length libs).
Proof.
  unfold calculateGroupLiberties.
  set (inner := fun (acc' : list (list bool) * Z) (next : Position) =>
         if isValidPosition next && stone_eqb (cell g next) EMPTY
            && negb (marked (fst acc') next)
         then (set2 (fst acc') next true, snd acc' + 1) else acc').
  assert (Hinner : forall q l libs seen acc,
    libertyInv g group libs seen acc -> q ∈ group -> (forall n, n ∈ l -> n ∈ neighbours q) ->
    exists libs',
      libertyInv g group libs' (fun a b => seen a b \/ (a = q /\ b ∈ l))
        (fold_left inner l acc)).
  { intros q. induction l as [|n l IHl]; intros libs seen acc Hinv Hq Hsub; cbn [fold_left].
    - exists libs. eapply libertyInv_weaken; [|exact Hinv].
      intros a b [Hs|[_ Hb]]; [done|]. by apply elem_of_nil in Hb.
    - destruct (libertyStep_inv g group libs seen acc q n Hinv Hq) as (libs1 & Hinv1).
      { apply Hsub. by left. }
      destruct (IHl libs1 _ _ Hinv1 Hq) as (libs2 & Hinv2).
      { intros k Hk. apply Hsub. by right. }
      exists libs2. eapply libertyInv_weaken; [|exact Hinv2].
      intros a b [Hs|[-> Hb]]; [by left; left|].
      apply elem_of_cons in Hb as [->|Hb]; [left; by right|by right]. }
  assert (Houter : forall l libs seen acc,
    libertyInv g group libs seen acc -> (forall q, q ∈ l -> q ∈ group) ->
    exists libs',
      libertyInv g group libs' (fun a b => seen a b \/ (a ∈ l /\ b ∈ neighbours a))
        (fold_left (fun acc pos => fold_left inner (neighbours pos) acc) l acc)).
  { induction l as [|q l IHl]; intros libs seen acc Hinv Hsub; cbn [fold_left].
    - exists libs. eapply libertyInv_weaken; [|exact Hinv].
      intros a b [Hs|[Ha _]]; [done|]. by apply elem_of_nil in Ha.
    - destruct (Hinner q (neighbours q) libs seen acc Hinv) as (libs1 & Hinv1).
      { apply Hsub. by left. }
      { done. }
      destruct (IHl libs1 _ _ Hinv1) as (libs2 & Hinv2).
      { intros k Hk. apply Hsub. by right. }
      exists libs2. eapply libertyInv_weaken; [|exact Hinv2].
      intros a b [Hs|[Ha Hb]]; [by left; left|].
      apply elem_of_cons in Ha as [->|Ha]; [left; by right|by right]. }
  destruct (Houter group [] (fun _ _ => False) (noMarks, 0)) as (libs & Hinv).
  { unfold libertyInv. cbn [fst snd]. split; [apply wf2_mkArray2|]. split; [constructor|]. split.
    { intros r. rewrite marked_noMarks. split; [done|]. intros Hr. by apply elem_of_nil in Hr. }
    split; [done|]. split; [intros r Hr; by apply elem_of_nil in Hr|]. done. }
  { done. }
  revert Hinv.
  generalize (fold_left (fun acc pos => fold_left inner (neighbours pos) acc) group
                (noMarks, 0)).
  intros acc (H1 & H2 & H3 & H4 & H5 & H6).
  exists libs. split; [done|]. split; [|done].
  intros r. split; [apply H5|]. intros [Hr (q & Hq & Hn)]. apply (H6 q r); [|done]. by right.
Qed.

(** The group of a stone, as the three callers with fresh marks compute
    it. *)
Lemma dfsMarkGroup_fresh (g : Grid) (pos : Position) :
  isValidPosition pos = true ->
  forall r, r = dfsMarkGroup cellFuel g pos (cell g pos) (noMarks, []) ->
  NoDup (snd r) /\ (forall q, q ∈ snd r <-> stonePath g (cell g pos) pos q) /\
  (forall q, marked (fst r) q = true <-> q ∈ snd r).
Proof.
  intros Hp r Hr.
  destruct (dfsMarkGroup_component g (cell g pos) pos noMarks [] (wf2_mkArray2 false) Hp eq_refl
              (marked_noMarks pos) (groupClosed_noMarks g _) r Hr)
    as (new & H1 & H2 & H3 & H4 & H5 & H6 & H7).
  rewrite H1, app_nil_l. split; [done|]. split; [done|].
  intros q. rewrite H4, marked_noMarks, H5. split; [by intros [|]|by right].
Qed.

Lemma group_liberties (g : Grid) (pos : Position) :
  isValidPosition pos = true ->
  exists libs,
    NoDup libs /\ (forall r, r ∈ libs <-> libertyOf g pos r) /\
    calculateGroupLiberties g (snd (dfsMarkGroup cellFuel g pos (cell g pos) (noMarks, [])))
    = Z.of_nat (length libs).
Proof.
  intros Hp.
  destruct (dfsMarkGroup_fresh g pos Hp _ eq_refl) as (_ & Hgroup & _).
  revert Hgroup. generalize (dfsMarkGroup cellFuel g pos (cell g pos) (noMarks, [])).
  intros r Hgroup.
  destruct (calculateGroupLiberties_spec g (snd r)) as (libs & Hnd & Hlibs & Hcount).
  exists libs. split; [done|]. split; [|done].
  intros x. rewrite Hlibs. unfold libertyOf. split.
  - intros [Hx (q & Hq & Hn)]. exists q. split; [by apply Hgroup|done].
  - intros (q & Hq & Hn & Hx). split; [done|]. exists q. split; [by apply Hgroup|done].
Qed.

(** X4. The group [dfsMarkGroup] returns for a cell of the board, on fresh
    marks: exactly the cells joined to the start cell through cells of its
    colour, each once (so never more than the 361 entries of the array
    [group]), and exactly the cells it has marked. *)
Theorem dfsMarkGroup_collects_group (g : Grid) (pos : Position) :
  isValidPosition pos = true ->
  let r := dfsMarkGroup cellFuel g pos (cell g pos) (noMarks, []) in
  NoDup (snd r) /\
  (forall q, q ∈ snd r <-> stonePath g (cell g pos) pos q) /\
  (forall q, marked (fst r) q = true <-> q ∈ snd r) /\
  (length (snd r) <= Z.to_nat (BOARD_SIZE * BOARD_SIZE))%nat.
Proof.
  intros Hp. cbv zeta.
  destruct (dfsMarkGroup_fresh g pos Hp _ eq_refl) as (Hnd & Hgroup & Hmarks).
  revert Hnd Hgroup Hmarks.
  generalize (dfsMarkGroup cellFuel g pos (cell g pos) (noMarks, [])).
  intros r Hnd Hgroup Hmarks.
  split; [done|]. split; [done|]. split; [done|].
  change (Z.to_nat (BOARD_SIZE * BOARD_SIZE)) with cellFuel. rewrite <- allCells_length.
  apply submseteq_length, NoDup_submseteq; [done|].
  intros q Hq. apply allCells_valid. apply Hgroup in Hq.
  by destruct (stonePath_valid_r _ _ _ _ Hq).
Qed.

Lemma dfsMarkGroup_collects_group_witness :
  isValidPosition (mkPos 5 5) = true /\
  NoDup (snd (dfsMarkGroup cellFuel (board koExampleBoard) (mkPos 5 5)
                (cell (board koExampleBoard) (mkPos 5 5)) (noMarks, []))).
Proof.
  split; [reflexivity|].
  exact (proj1 (dfsMarkGroup_collects_group (board koExampleBoard) (mkPos 5 5) eq_refl)).
Defined.

Lemma hasLiberty_stone (g : Grid) (pos : Position) :
  isValidPosition pos = true -> cell g pos <> EMPTY ->
  hasLiberty g pos = true <-> exists r, libertyOf g pos r.
Proof.
  intros Hp He. unfold hasLiberty. rewrite Hp. cbn [negb].
  apply stone_eqb_neq in He. rewrite He. cbv zeta.
  destruct (group_liberties g pos Hp) as (libs & Hnd & Hlibs & ->).
  rewrite Z.ltb_lt. split.
  - intros Hlen. destruct libs as [|r libs]; [cbn in Hlen; lia|].
    exists r. apply Hlibs. by left.
  - intros [r Hr]. apply Hlibs in Hr.
    destruct libs; [by apply elem_of_nil in Hr|]. cbn [length]. lia.
Qed.

Lemma cell_stone_valid (g : Grid) (p : Position) :
  cell g p <> EMPTY -> isValidPosition p = true.
Proof.
  intros Hc. destruct (isValidPosition p) eqn:Hp; [done|].
  destruct Hc. by apply get2_invalid.
Qed.

(** X2. [hasLiberty] is true exactly for the cells of the board that are empty
    or hold a stone whose group has a liberty: an empty cell next to one of
    the stones joined to it through stones of its colour. *)
Theorem hasLiberty_iff_liberty (g : Grid) (pos : Position) :
  hasLiberty g pos = true
  <-> isValidPosition pos = true /\ (cell g pos = EMPTY \/ exists r, libertyOf g pos r).
Proof.
  destruct (isValidPosition pos) eqn:Hp.
  2:{ unfold hasLiberty. rewrite Hp. cbn [negb]. split; [done|]. by intros [? _]. }
  destruct (decide (cell g pos = EMPTY)) as [He|He].
  - unfold hasLiberty. rewrite Hp, He. cbn [negb stone_eqb]. split; [|done].
    intros _. split; [done|by left].
  - rewrite (hasLiberty_stone g pos Hp He). split.
    + intros Hr. split; [done|by right].
    + by intros [_ [Hc|Hr]].
Qed.

(** X3. [countLiberties] gives the number of liberties of the group of a
    stone, each empty cell counted once; it gives 0 outside the board and
    on an empty cell. *)
Theorem countLiberties_counts_liberties (g : Grid) (pos : Position) :
  exists libs,
    NoDup libs /\
    (forall r, r ∈ libs
               <-> isValidPosition pos = true /\ cell g pos <> EMPTY /\ libertyOf g pos r) /\
    countLiberties g pos = Z.of_nat (length libs).
Proof.
  unfold countLiberties. destruct (isValidPosition pos) eqn:Hp; cbn [negb].
  2:{ exists []. split; [constructor|]. split; [|done].
      intros r. split; [intros Hr; by apply elem_of_nil in Hr|by intros [? _]]. }
  destruct (stone_eqb (cell g pos) EMPTY) eqn:He.
  { apply stone_eqb_eq in He. exists []. split; [constructor|]. split; [|done].
    intros r. split; [intros Hr; by apply elem_of_nil in Hr|by intros (_ & ? & _)]. }
  apply stone_eqb_neq in He. cbv zeta.
  destruct (group_liberties g pos Hp) as (libs & Hnd & Hlibs & ->).
  exists libs. split; [done|]. split; [|done].
  intros r. rewrite Hlibs. split; [by intros ?|by intros (_ & _ & ?)].
Qed.

(** ** Captures *)

Lemma cell_set2_empty (g : Grid) (p : Position) : cell (set2 g p EMPTY) p = EMPTY.
Proof.
  destruct (decide (cell g p = EMPTY)) as [He|He].
  - destruct (set2_written_or_same EMPTY g p EMPTY) as [H|H]; [done|]. by rewrite H.
  - by apply get2_set2_written.
Qed.

Lemma cell_set2_keeps_empty (g : Grid) (p q : Position) :
  cell g p = EMPTY -> cell (set2 g q EMPTY) p = EMPTY.
Proof.
  intros He. destruct (decide (q = p)) as [->|Hne]; [apply cell_set2_empty|].
  unfold cell. by rewrite get2_set2_other.
Qed.

Lemma cell_removeGroup_in (g : Grid) (group : list Position) (p : Position) :
  p ∈ group -> cell (removeGroup g group) p = EMPTY.
Proof.
  unfold removeGroup.
  assert (Hkeep : forall l g1, cell g1 p = EMPTY ->
            cell (fold_left (fun acc q => set2 acc q EMPTY) l g1) p = EMPTY).
  { induction l as [|a l IH]; intros g1 H1; cbn [fold_left]; [done|].
    apply IH. by apply cell_set2_keeps_empty. }
  revert g. induction group as [|a l IH]; intros g Hp; [by apply elem_of_nil in Hp|].
  cbn [fold_left]. apply elem_of_cons in Hp as [->|Hp]; [|by apply IH].
  apply Hkeep, cell_set2_empty.
Qed.

Lemma cell_removeGroup_out (g : Grid) (group : list Position) (p : Position) :
  p ∉ group -> cell (removeGroup g group) p = cell g p.
Proof.
  unfold removeGroup. revert g. induction group as [|a l IH]; intros g Hp; [done|].
  cbn [fold_left]. apply not_elem_of_cons in Hp as [Hne Hp]. rewrite IH by done.
  unfold cell. by rewrite get2_set2_other.
Qed.

Lemma libertyOf_path (g : Grid) (p q r : Position) :
  stonePath g (cell g p) p q -> libertyOf g q r <-> libertyOf g p r.
Proof.
  intros Hpq. destruct (stonePath_valid_r _ _ _ _ Hpq) as [_ Hc].
  unfold libertyOf. rewrite Hc. split.
  - intros (s & Hqs & Hn & Hr). exists s. split; [by eapply stonePath_trans|done].
  - intros (s & Hps & Hn & Hr). exists s. split; [|done].
    eapply stonePath_trans; [by apply stonePath_sym|done].
Qed.

Lemma deadStone_path (g : Grid) (c : Stone) (p q : Position) :
  stonePath g c p q -> deadStone g c p -> deadStone g c q.
Proof.
  intros Hpq (Hp & Hc & Hdead). destruct (stonePath_valid_r _ _ _ _ Hpq) as [Hq Hcq].
  split; [done|]. split; [done|]. intros [r Hr]. apply Hdead. exists r.
  subst c. by apply (libertyOf_path g p q r).
Qed.

(** The scan of [captureDeadStones] at one cell of the board. *)
Lemma captureStep_inv (g0 : Grid) (c : Stone) (seen removed : list Position)
    (st : CaptureScan) (pos : Position) :
  c <> EMPTY -> isValidPosition pos = true ->
  captureInv g0 c seen st removed ->
  exists removed',
    captureInv g0 c (seen ++ [pos]) (captureStep c st pos) removed'.
Proof.
  intros Hc Hp Hinv.
  pose proof Hinv as (H1 & H2 & H3 & H4 & H5 & H6 & H7 & H8 & H9).
  unfold captureStep.
  destruct (stone_eqb (cell (board (cs_board st)) pos) c) eqn:Hcol; cbn [andb].
  2:{ exists removed. apply stone_eqb_neq in Hcol.
      split; [done|]. split; [done|]. split; [done|]. split; [done|]. split; [done|].
      split; [done|]. split; [done|]. split; [|done].
      intros p Hps Hpc. apply elem_of_app in Hps as [Hps|Hps]; [by apply H8|].
      apply list_elem_of_singleton in Hps as ->.
      destruct (marked (cs_visited st) pos) eqn:Hm; [done|].
      destruct Hcol. rewrite H5; [done|]. intros Hr. apply H3 in Hr as [Hr _]. congruence. }
  apply stone_eqb_eq in Hcol.
  destruct (marked (cs_visited st) pos) eqn:Hm; cbn [negb].
  { exists removed.
    split; [done|]. split; [done|]. split; [done|]. split; [done|]. split; [done|].
    split; [done|]. split; [done|]. split; [|done].
    intros p Hps Hpc. apply elem_of_app in Hps as [Hps|Hps]; [by apply H8|].
    by apply list_elem_of_singleton in Hps as ->. }
  set (g1 := board (cs_board st)) in *.
  assert (Hnr : pos ∉ removed) by (intros Hr; apply H3 in Hr as [Hr _]; congruence).
  assert (Hc0 : cell g0 pos = c) by (by rewrite <- H5).
  assert (Hsub : forall p, isValidPosition p = true -> cell g1 p = c -> cell g0 p = c).
  { intros p Hpv Hpc. destruct (decide (p ∈ removed)) as [Hr|Hr].
    - rewrite H4 in Hpc by done. congruence.
    - by rewrite <- H5. }
  assert (Hclosed1 : groupClosed g1 c (cs_visited st)).
  { intros p n Hpm Hpc Hn Hnv Hnc. apply (H7 p n); [done| |done|done|by apply Hsub].
    by apply H6. }
  destruct (dfsMarkGroup_component g1 c pos (cs_visited st) [] H1 Hp Hcol Hm Hclosed1 _
              eq_refl) as (new & R1 & R2 & R3 & R4 & R5 & R6 & R7).
  revert R1 R2 R3 R4 R5 R6 R7.
  generalize (dfsMarkGroup cellFuel g1 pos c (cs_visited st, [])).
  intros r R1 R2 R3 R4 R5 R6 R7. rewrite app_nil_l in R1.
  assert (Hfresh' : forall a q, stonePath g0 c a q ->
            stonePath g1 c pos a /\ marked (cs_visited st) a = false ->
            stonePath g1 c pos q /\ marked (cs_visited st) q = false).
  { intros a q Hq. induction Hq as [q Hqv Hqc|a q n Haq IH Hn Hnv Hnc]; [done|].
    intros Ha. destruct (IH Ha) as [IH1 IH2].
    destruct (stonePath_valid_r _ _ _ _ Haq) as [Hqv Hqc].
    assert (Hnm : marked (cs_visited st) n = false).
    { destruct (marked (cs_visited st) n) eqn:Hnm; [|done].
      assert (marked (cs_visited st) q = true); [|congruence].
      apply (H7 n q Hnm Hnc); [by apply neighbours_sym|done|done]. }
    split; [|done]. eapply stonePath_step; [exact IH1|done|done|].
    rewrite H5; [done|]. intros Hr. apply H3 in Hr as [Hr _]. congruence. }
  assert (Hfresh : forall q, stonePath g0 c pos q ->
            stonePath g1 c pos q /\ marked (cs_visited st) q = false).
  { intros q Hq. apply (Hfresh' pos q Hq). split; [by constructor|done]. }
  assert (Hback' : forall a q, stonePath g1 c a q -> stonePath g0 c pos a ->
            stonePath g0 c pos q).
  { intros a q Hq. induction Hq as [q Hqv Hqc|a q n Haq IH Hn Hnv Hnc]; [done|].
    intros Ha. eapply stonePath_step; [by apply IH|done|done|by apply Hsub]. }
  assert (Hback : forall q, stonePath g1 c pos q -> stonePath g0 c pos q).
  { intros q Hq. apply (Hback' pos q Hq). by constructor. }
  assert (Hgroup : forall q, q ∈ snd r <-> stonePath g0 c pos q).
  { intros q. rewrite R1, R5. split; [apply Hback|apply Hfresh]. }
  destruct (calculateGroupLiberties_spec g1 (snd r)) as (libs & Hnd & Hlibs & Hcount).
  assert (Hdead : libs = [] <-> deadStone g0 c pos).
  { split.
    - intros ->. split; [done|]. split; [done|]. intros (x & q & Hq & Hn & Hxv & Hxe).
      rewrite Hc0 in Hq. assert (Hx : x ∈ @nil Position); [|by apply elem_of_nil in Hx].
      apply Hlibs. split.
      + split; [done|]. destruct (decide (x ∈ removed)) as [Hr|Hr]; [by apply H4|].
        by rewrite H5.
      + exists q. split; [by apply Hgroup|done].
    - intros (_ & _ & Hno). destruct libs as [|x libs]; [done|]. destruct Hno.
      assert (Hx : x ∈ x :: libs) by (by left). apply Hlibs in Hx as [[Hxv Hxe] (q & Hq & Hn)].
      apply Hgroup in Hq. exists x, q. rewrite Hc0. split; [done|]. split; [done|].
      split; [done|]. destruct (decide (x ∈ removed)) as [Hr|Hr]; [|by rewrite <- H5].
      apply H3 in Hr as [Hxm (_ & Hxc & _)].
      destruct (stonePath_valid_r _ _ _ _ Hq) as [Hqv Hqc].
      assert (marked (cs_visited st) q = true).
      { apply (H7 x q Hxm Hxc); [by apply neighbours_sym|done|done]. }
      destruct (Hfresh q Hq) as [_ Hqm]. congruence. }
  assert (Hmarks : forall p, marked (fst r) p = true
            <-> marked (cs_visited st) p = true \/ p ∈ snd r).
  { intros p. rewrite R4, R1, R5. done. }
  assert (Hcommon :
    (forall p, marked (fst r) p = true -> cell g0 p = c) /\
    groupClosed g0 c (fst r) /\
    (forall p, p ∈ seen ++ [pos] -> cell g0 p = c -> marked (fst r) p = true)).
  { split; [|split].
    - intros p Hpm. apply Hmarks in Hpm as [Hpm|Hpm]; [by apply H6|].
      apply Hgroup in Hpm. by destruct (stonePath_valid_r _ _ _ _ Hpm).
    - intros p n Hpm Hpc Hn Hnv Hnc. apply Hmarks. apply Hmarks in Hpm as [Hpm|Hpm].
      + left. by apply (H7 p n).
      + right. apply Hgroup. apply Hgroup in Hpm. by eapply stonePath_step.
    - intros p Hps Hpc. apply Hmarks. apply elem_of_app in Hps as [Hps|Hps].
      + left. by apply H8.
      + apply list_elem_of_singleton in Hps as ->. right. apply Hgroup. by constructor. }
  destruct Hcommon as (C1 & C2 & C3).
  rewrite Hcount.
  destruct libs as [|x libs]; cbn [length].
  - (* the group has no liberty and is taken off the board *)
    change (Z.of_nat 0 =? 0) with true. cbv iota.
    destruct (proj1 Hdead eq_refl) as (_ & _ & Hno).
    exists (removed ++ snd r). unfold captureInv.
    cbn [cs_board cs_visited cs_count board with_board with_koPosition].
    fold g1.
    split; [done|]. split.
    { apply list.NoDup_app. split; [done|]. split; [|by rewrite R1].
      intros p Hpr Hpg. apply H3 in Hpr as [Hpr _]. apply Hgroup, Hfresh in Hpg as [_ Hpg].
      congruence. }
    split.
    { intros p. rewrite elem_of_app, H3, Hmarks. split.
      - intros [[Hpm Hpd]|Hpg]; [by split; [left|]|]. split; [by right|].
        apply Hgroup in Hpg. eapply deadStone_path; [exact Hpg|]. by apply Hdead.
      - intros [[Hpm|Hpg] Hpd]; [left; by split|by right]. }
    split.
    { intros p Hpr. apply elem_of_app in Hpr as [Hpr|Hpr].
      - destruct (decide (p ∈ snd r)) as [Hg|Hg]; [by apply cell_removeGroup_in|].
        rewrite cell_removeGroup_out by done. by apply H4.
      - by apply cell_removeGroup_in. }
    split.
    { intros p Hpr. apply not_elem_of_app in Hpr as [Hpr Hpg].
      rewrite cell_removeGroup_out by done. by apply H5. }
    split; [done|]. split; [done|]. split; [done|].
    rewrite H9, length_app. lia.
  - (* the group has a liberty and stays *)
    replace (Z.of_nat (S (length libs)) =? 0) with false by (symmetry; apply Z.eqb_neq; lia).
    cbv iota.
    exists removed. unfold captureInv. cbn [cs_board cs_visited cs_count]. fold g1.
    split; [done|]. split; [done|]. split.
    { intros p. rewrite H3, Hmarks. split; [intros [Hpm Hpd]; by split; [left|]|].
      intros [[Hpm|Hpg] Hpd]; [done|]. apply Hgroup in Hpg.
      assert (deadStone g0 c pos); [|by apply Hdead in H].
      eapply deadStone_path; [by apply stonePath_sym|done]. }
    split; [done|]. split; [done|]. split; [done|]. split; [done|]. split; done.
Qed.

Lemma captureScan_inv (g0 : Grid) (c : Stone) (cells seen removed : list Position)
    (st : CaptureScan) :
  c <> EMPTY -> (forall p, p ∈ cells -> isValidPosition p = true) ->
  captureInv g0 c seen st removed ->
  exists removed',
    captureInv g0 c (seen ++ cells) (fold_left (captureStep c) cells st) removed'.
Proof.
  intros Hc. revert seen removed st.
  induction cells as [|p cells IH]; intros seen removed st Hv Hinv; cbn [fold_left].
  - exists removed. by rewrite app_nil_r.
  - destruct (captureStep_inv g0 c seen removed st p Hc) as (removed1 & Hinv1); [|done|].
    { apply Hv. by left. }
    destruct (IH (seen ++ [p]) removed1 (captureStep c st p)) as (removed2 & Hinv2); [|done|].
    { intros q Hq. apply Hv. by right. }
    exists removed2. by rewrite <- app_assoc in Hinv2.
Qed.

(** One scan of [captureDeadStones]: the stones taken off the board are
    the stones of the colour whose group has no liberty, and the count is
    their number. *)
Lemma captureDeadStones_spec (b : Board) (c : Stone) :
  c <> EMPTY ->
  exists removed,
    NoDup removed /\
    (forall p, p ∈ removed <-> deadStone (board b) c p) /\
    (forall p, p ∈ removed -> cell (board (snd (captureDeadStones b c))) p = EMPTY) /\
    (forall p, p ∉ removed ->
               cell (board (snd (captureDeadStones b c))) p = cell (board b) p) /\
    fst (captureDeadStones b c) = Z.of_nat (length removed).
Proof.
  intros Hc. destruct (captureDeadStones_board b c) as (Hcount & Hboard & _).
  cbv zeta in *. rewrite Hcount, Hboard. clear Hcount Hboard.
  destruct (captureScan_inv (board b) c allCells [] [] (mkCaptureScan b noMarks 0) Hc)
    as (removed & Hinv).
  { intros p Hp. by apply allCells_valid. }
  { unfold captureInv. cbn [cs_board cs_visited cs_count].
    split; [apply wf2_mkArray2|]. split; [constructor|]. split.
    { intros p. rewrite marked_noMarks. split; [intros Hp; by apply elem_of_nil in Hp|].
      by intros [? _]. }
    split; [intros p Hp; by apply elem_of_nil in Hp|]. split; [done|].
    split; [intros p Hp; by rewrite marked_noMarks in Hp|].
    split; [apply groupClosed_noMarks|]. split; [|done].
    intros p Hp. by apply elem_of_nil in Hp. }
  revert Hinv. rewrite app_nil_l.
  generalize (fold_left (captureStep c) allCells (mkCaptureScan b noMarks 0)).
  intros st (H1 & H2 & H3 & H4 & H5 & H6 & H7 & H8 & H9).
  exists removed. split; [done|]. split; [|by repeat split].
  intros p. rewrite H3. split; [by intros [_ ?]|]. intros Hd. split; [|done].
  destruct Hd as (Hpv & Hpc & _). apply H8; [|done]. by apply allCells_valid.
Qed.

Lemma deadStone_hasLiberty (g : Grid) (c : Stone) (p : Position) :
  c <> EMPTY -> deadStone g c p <-> cell g p = c /\ hasLiberty g p = false.
Proof.
  intros Hc. split.
  - intros (Hp & Hpc & Hno). split; [done|].
    destruct (hasLiberty g p) eqn:Hl; [|done].
    apply hasLiberty_stone in Hl; [done|done|congruence].
  - intros [Hpc Hl]. assert (Hp : isValidPosition p = true).
    { apply (cell_stone_valid g). congruence. }
    split; [done|]. split; [done|]. intros Hr.
    apply hasLiberty_stone in Hr; [congruence|done|congruence].
Qed.

Lemma captureDeadStones_cells (b : Board) (c : Stone) (p : Position) :
  c <> EMPTY ->
  cell (board (snd (captureDeadStones b c))) p
  = if stone_eqb (cell (board b) p) c && negb (hasLiberty (board b) p)
    then EMPTY else cell (board b) p.
Proof.
  intros Hc.
  destruct (captureDeadStones_spec b c Hc) as (removed & Hnd & Hrem & Hin & Hout & _).
  revert Hin Hout. generalize (captureDeadStones b c). intros r Hin Hout.
  destruct (decide (p ∈ removed)) as [Hp|Hp].
  - rewrite Hin by done. apply Hrem, deadStone_hasLiberty in Hp as [Hpc Hl]; [|done].
    rewrite Hpc, Hl, stone_eqb_refl. done.
  - rewrite Hout by done.
    destruct (stone_eqb (cell (board b) p) c) eqn:Hpc; [|done].
    destruct (hasLiberty (board b) p) eqn:Hl; [done|].
    destruct Hp. apply Hrem, deadStone_hasLiberty; [done|].
    by apply stone_eqb_eq in Hpc.
Qed.

Lemma captureDeadStones_count (b : Board) (c : Stone) :
  c <> EMPTY ->
  fst (captureDeadStones b c)
  = Z.of_nat (length (filter (fun p => cell (board b) p = c
                                       /\ hasLiberty (board b) p = false) allCells)).
Proof.
  intros Hc.
  destruct (captureDeadStones_spec b c Hc) as (removed & Hnd & Hrem & _ & _ & ->).
  f_equal. apply Permutation_length, NoDup_Permutation; [done| |].
  - apply list.NoDup_filter, allCells_NoDup.
  - intros p. rewrite Hrem, list_elem_of_filter, deadStone_hasLiberty by done.
    split; [|by intros [? _]]. intros [Hpc Hl]. split; [done|].
    apply allCells_valid, (cell_stone_valid (board b)). congruence.
Qed.

(** X5. [captureDeadStones] for a colour takes off the board exactly the
    stones of that colour for which [hasLiberty] is false, leaves every
    other cell as it is, and returns the number of stones it took. *)
Theorem captureDeadStones_removes_dead (b : Board) (c : Stone) :
  c <> EMPTY ->
  let r := captureDeadStones b c in
  (forall p, cell (board (snd r)) p
             = if stone_eqb (cell (board b) p) c && negb (hasLiberty (board b) p)
               then EMPTY else cell (board b) p) /\
  fst r = Z.of_nat (length (filter (fun p => cell (board b) p = c
                                             /\ hasLiberty (board b) p = false) allCells)).
Proof.
  intros Hc. cbv zeta. split.
  - intros p. by apply captureDeadStones_cells.
  - by apply captureDeadStones_count.
Qed.

Lemma captureDeadStones_removes_dead_witness :
  WHITE <> EMPTY /\
  fst (captureDeadStones koExampleBoard WHITE)
  = Z.of_nat (length (filter (fun p => cell (board koExampleBoard) p = WHITE
                                       /\ hasLiberty (board koExampleBoard) p = false)
                        allCells)).
Proof.
  split; [discriminate|].
  exact (proj2 (captureDeadStones_removes_dead koExampleBoard WHITE ltac:(discriminate))).
Defined.

Lemma captureDeadStones_none (b : Board) (c : Stone) :
  fst (captureDeadStones b c) = 0 -> snd (captureDeadStones b c) = b.
Proof.
  unfold captureDeadStones. cbv zeta.
  pose proof (captureScan_frame c allCells (mkCaptureScan b noMarks 0)) as [Hf _].
  assert (Hs : scanShape c b (fold_left (captureStep c) allCells (mkCaptureScan b noMarks 0))).
  { apply captureScan_shape. left. by repeat split. }
  revert Hf Hs. generalize (fold_left (captureStep c) allCells (mkCaptureScan b noMarks 0)).
  intros [b1 v n]. cbn [fst snd cs_board cs_count]. intros Hf Hs H0. subst n.
  destruct Hs as [(_ & Hb & Hk)|[(H1 & _)|H2]]; cbn [cs_count cs_board] in *; [|lia|lia].
  destruct Hf as (F1 & F2 & F3 & F4 & F5 & F6 & F7 & F8).
  destruct b1, b. cbn in *. subst. rewrite !Z.add_0_r.
  by destruct (stone_eqb c BLACK), (stone_eqb c WHITE).
Qed.

Lemma stonePath_transfer (g g' : Grid) (c : Stone) (p q : Position) :
  stonePath g c p q -> (forall a, stonePath g c p a -> cell g' a = c) ->
  stonePath g' c p q.
Proof.
  induction 1 as [p Hp Hc|p q r Hpq IH Hn Hr Hc]; intros Hall.
  - constructor; [done|]. apply Hall. by constructor.
  - eapply stonePath_step; [by apply IH|done|done|].
    apply Hall. by eapply stonePath_step.
Qed.

(** What a scan leaves on the board has liberties: a stone of the colour
    that is still there, its group and one of its liberties are as before. *)
Lemma captureDeadStones_survivor (b : Board) (c : Stone) (p : Position) :
  c <> EMPTY -> cell (board (snd (captureDeadStones b c))) p = c ->
  cell (board b) p = c /\
  exists r, libertyOf (board (snd (captureDeadStones b c))) p r.
Proof.
  intros Hc.
  destruct (captureDeadStones_spec b c Hc) as (removed & _ & Hrem & Hin & Hout & _).
  revert Hin Hout. generalize (captureDeadStones b c). intros r1 Hin Hout Hp1.
  assert (Hnr : p ∉ removed) by (intros Hr; rewrite Hin in Hp1 by done; congruence).
  assert (Hp0 : cell (board b) p = c) by (by rewrite <- Hout).
  split; [done|].
  assert (Hpv : isValidPosition p = true) by (apply (cell_stone_valid (board b)); congruence).
  destruct (hasLiberty (board b) p) eqn:Hl.
  2:{ destruct Hnr. by apply Hrem, deadStone_hasLiberty. }
  apply hasLiberty_stone in Hl as [x (q & Hpq & Hn & Hx)]; [|done|congruence].
  rewrite Hp0 in Hpq.
  assert (Halive : forall a, stonePath (board b) c p a -> cell (board (snd r1)) a = c).
  { intros a Ha. destruct (stonePath_valid_r _ _ _ _ Ha) as [Hav Hac].
    rewrite Hout; [done|]. intros Hr. apply Hrem in Hr. apply Hnr, Hrem.
    eapply deadStone_path; [by apply stonePath_sym|done]. }
  exists x, q. rewrite Hp1. split; [by eapply stonePath_transfer|]. split; [done|].
  destruct Hx as [Hxv Hxe]. split; [done|]. rewrite Hout; [done|].
  intros Hr. apply Hrem in Hr as (_ & Hxc & _). congruence.
Qed.

Lemma captureDeadStones_twice (b : Board) (c : Stone) :
  c <> EMPTY -> fst (captureDeadStones (snd (captureDeadStones b c)) c) = 0.
Proof.
  intros Hc.
  destruct (captureDeadStones_spec (snd (captureDeadStones b c)) c Hc)
    as (removed & _ & Hrem & _ & _ & ->).
  destruct removed as [|p l]; [done|]. exfalso.
  assert (Hp : p ∈ p :: l) by (by left). apply Hrem in Hp as (_ & Hpc & Hno).
  by destruct (captureDeadStones_survivor b c p Hc Hpc) as [_ Hr].
Qed.

Lemma captureLoop_scan (b : Board) (c : Stone) (total : Z) :
  c <> EMPTY ->
  captureLoop loopFuel b c total
  = (total + fst (captureDeadStones b c), snd (captureDeadStones b c)).
Proof.
  intros Hc. rewrite loopFuel_succ, captureLoop_S.
  destruct (0 <? fst (captureDeadStones b c)); [|done].
  rewrite captureLoop_S, (captureDeadStones_twice b _ Hc).
  change (0 <? 0) with false. cbv iota.
  by rewrite (captureDeadStones_none _ _ (captureDeadStones_twice b _ Hc)), Z.add_0_r.
Qed.

(** X6. The [do ... while] loop of [placeStone] is one call of
    [captureDeadStones]: a second round never finds a stone to take, and
    leaves the board as the first round left it. *)
Theorem captureLoop_is_one_scan (b : Board) (mover : Stone) (total : Z) :
  let opponentColor := otherPlayer mover in
  captureLoop loopFuel b opponentColor total
  = (total + fst (captureDeadStones b opponentColor),
     snd (captureDeadStones b opponentColor))
  /\ fst (captureDeadStones (snd (captureDeadStones b opponentColor)) opponentColor) = 0.
Proof.
  cbv zeta. assert (Hc : otherPlayer mover <> EMPTY) by (by destruct mover).
  split; [by apply captureLoop_scan|by apply captureDeadStones_twice].
Qed.

(** ** The boards of a game hold no dead stone *)

Lemma removeGroup_wf (g : Grid) (group : list Position) : wf2 g -> wf2 (removeGroup g group).
Proof.
  unfold removeGroup. revert g. induction group as [|p l IH]; intros g Hw; cbn [fold_left];
    [done|]. by apply IH, wf2_set2.
Qed.

Lemma captureDeadStones_wf (b : Board) (c : Stone) :
  wf2 (board b) -> wf2 (board (snd (captureDeadStones b c))).
Proof.
  intros Hw. destruct (captureDeadStones_board b c) as (_ & -> & _).
  assert (H : forall cells st, wf2 (board (cs_board st)) ->
            wf2 (board (cs_board (fold_left (captureStep c) cells st)))).
  { induction cells as [|p cells IH]; intros st Hst; cbn [fold_left]; [done|].
    apply IH. unfold captureStep. destruct (_ && _); [|done].
    generalize (dfsMarkGroup cellFuel (board (cs_board st)) p c (cs_visited st, [])).
    intros r. destruct (_ =? 0); [|done].
    cbn [cs_board board with_board with_koPosition]. by apply removeGroup_wf. }
  by apply H.
Qed.

Lemma validMove_spec (b : Board) (pos : Position) :
  validMove b pos = true
  <-> isValidPosition pos = true /\ cell (board b) pos = EMPTY /\ isKoMove b pos = false
      /\ hasLiberty (set2 (board b) pos (currentPlayer b)) pos = true.
Proof.
  unfold validMove, isValidMove, isSuicideMove.
  destruct (isValidPosition pos); cbn [negb orb]; [|split; [done|by intros [? _]]].
  destruct (stone_eqb (cell (board b) pos) EMPTY) eqn:He; cbn [negb].
  2:{ apply stone_eqb_neq in He. split; [done|]. by intros (_ & ? & _). }
  apply stone_eqb_eq in He.
  destruct (isKoMove b pos); [split; [done|by intros (_ & _ & ? & _)]|].
  cbn [fst snd board with_board].
  destruct (hasLiberty (set2 (board b) pos (currentPlayer b)) pos); cbn [negb fst].
  - by split.
  - split; [done|]. by intros (_ & _ & _ & ?).
Qed.

Lemma two_in_NoDup {A : Type} (l : list A) (x y : A) :
  NoDup l -> x ∈ l -> y ∈ l -> x <> y -> (2 <= length l)%nat.
Proof.
  intros Hnd Hx Hy Hne. destruct l as [|a [|b l]]; cbn [length]; [|  |lia].
  - by apply elem_of_nil in Hx.
  - apply list_elem_of_singleton in Hx. apply list_elem_of_singleton in Hy. congruence.
Qed.

(** A stone that is not suicide, and the scan that follows it: no dead
    stone is left, the stone stands, and when the scan took one stone the
    stone played has two liberties. *)
Lemma place_capture_alive (g : Grid) (c : Stone) (pos : Position) (b1 : Board) :
  wf2 g -> noDeadStones g -> c = BLACK \/ c = WHITE ->
  isValidPosition pos = true -> cell g pos = EMPTY ->
  hasLiberty (set2 g pos c) pos = true -> board b1 = set2 g pos c ->
  noDeadStones (board (snd (captureDeadStones b1 (otherPlayer c)))) /\
  cell (board (snd (captureDeadStones b1 (otherPlayer c)))) pos = c /\
  (fst (captureDeadStones b1 (otherPlayer c)) = 1 ->
   exists s x, s <> x
     /\ libertyOf (board (snd (captureDeadStones b1 (otherPlayer c)))) pos s
     /\ libertyOf (board (snd (captureDeadStones b1 (otherPlayer c)))) pos x).
Proof.
  intros Hw Halive Hcol Hp He Hlib Hb1.
  set (o := otherPlayer c).
  assert (Hc : c <> EMPTY) by (by destruct Hcol as [->| ->]).
  assert (Ho : o <> EMPTY) by (by destruct Hcol as [->| ->]).
  assert (Hoc : o <> c) by (by destruct Hcol as [->| ->]).
  assert (Hkinds : forall k, k = EMPTY \/ k = c \/ k = o).
  { intros k. destruct Hcol as [->| ->], k; cbn; auto. }
  set (g1 := set2 g pos c) in *.
  assert (F1 : cell g1 pos = c) by (by apply get2_set2_same).
  assert (F2 : forall q, q <> pos -> cell g1 q = cell g q).
  { intros q Hq. unfold cell, g1. by rewrite get2_set2_other. }
  pose proof (captureDeadStones_survivor b1 o) as Hsurv.
  destruct (captureDeadStones_spec b1 o Ho) as (removed & Hnd & Hrem & Hin & Hout & Hcount).
  rewrite Hb1 in Hrem. revert Hsurv Hin Hout Hcount. rewrite Hb1.
  generalize (captureDeadStones b1 o). intros r Hsurv Hin Hout Hcount.
  set (g2 := board (snd r)) in *.
  assert (A : forall q, cell g1 q = c -> cell g2 q = c).
  { intros q Hq. rewrite Hout; [done|]. intros Hr. apply Hrem in Hr as (_ & Hqo & _).
    congruence. }
  assert (B : forall q, cell g1 q = EMPTY -> cell g2 q = EMPTY).
  { intros q Hq. rewrite Hout; [done|]. intros Hr. apply Hrem in Hr as (_ & Hqo & _).
    congruence. }
  assert (C : forall p x, cell g1 p = c -> libertyOf g1 p x -> libertyOf g2 p x).
  { intros p x Hpc (q & Hpq & Hn & Hxv & Hxe). rewrite Hpc in Hpq.
    exists q. rewrite (A p Hpc). split; [|split; [done|split; [done|by apply B]]].
    eapply stonePath_transfer; [exact Hpq|]. intros a Ha. apply A.
    by destruct (stonePath_valid_r _ _ _ _ Ha). }
  assert (D : exists x0, libertyOf g1 pos x0).
  { apply hasLiberty_stone; [done|congruence|done]. }
  destruct D as [x0 D].
  assert (Hg1 : forall a, cell g a <> EMPTY -> cell g1 a = cell g a).
  { intros a Ha. apply F2. intros ->. done. }
  split; [|split].
  - intros p Hpv Hp2.
    assert (Hnr : p ∉ removed) by (intros Hr; by apply Hin in Hr).
    pose proof (Hout p Hnr) as H21. fold g2 in H21.
    destruct (Hkinds (cell g2 p)) as [Hk|[Hk|Hk]]; [done| |].
    + (* a stone of the mover *)
      assert (Hp1 : cell g1 p = c) by congruence.
      assert (Hex : exists x, libertyOf g1 p x).
      { destruct (decide (p = pos)) as [->|Hne]; [by exists x0|].
        assert (Hpg : cell g p = c) by (by rewrite <- F2).
        destruct (Halive p Hpv) as (x & q & Hpq & Hn & Hxv & Hxe); [congruence|].
        rewrite Hpg in Hpq.
        assert (Hpq1 : stonePath g1 c p q).
        { eapply stonePath_transfer; [exact Hpq|]. intros a Ha.
          destruct (stonePath_valid_r _ _ _ _ Ha) as [_ Hac]. rewrite Hg1; congruence. }
        destruct (decide (x = pos)) as [->|Hxne].
        - exists x0. apply (libertyOf_path g1 p pos x0); [|done].
          rewrite Hp1. eapply stonePath_trans; [exact Hpq1|].
          destruct (stonePath_valid_r _ _ _ _ Hpq1) as [Hqv Hqc].
          by apply stonePath_neighbour.
        - exists x, q. rewrite Hp1.
          split; [done|]. split; [done|]. split; [done|]. by rewrite F2. }
      destruct Hex as [x Hx]. exists x. by apply C.
    + (* a stone of the other side that was not taken *)
      by destruct (Hsurv p Ho Hk) as [_ Hr].
  - by apply A.
  - intros H1. rewrite Hcount in H1.
    destruct removed as [|s [|s' l]]; cbn [length] in H1; [lia| |lia].
    assert (Hs : s ∈ [s]) by (by left).
    pose proof (proj1 (Hrem s) Hs) as (Hsv & Hso & Hsdead).
    assert (Hspos : s <> pos) by (intros ->; congruence).
    assert (Hsg : cell g s = o) by (by rewrite <- F2).
    destruct (Halive s Hsv) as (x & q & Hsq & Hn & Hxv & Hxe); [congruence|].
    rewrite Hsg in Hsq.
    assert (Hsq1 : stonePath g1 o s q).
    { eapply stonePath_transfer; [exact Hsq|]. intros a Ha.
      destruct (stonePath_valid_r _ _ _ _ Ha) as [_ Hao]. rewrite Hg1; congruence. }
    assert (Hxpos : x = pos).
    { destruct (decide (x = pos)) as [|Hxne]; [done|]. destruct Hsdead.
      exists x, q. rewrite Hso. split; [done|]. split; [done|]. split; [done|].
      by rewrite F2. }
    subst x.
    assert (Hqs : q = s).
    { apply list_elem_of_singleton. apply Hrem. eapply deadStone_path; [exact Hsq1|].
      by apply Hrem. }
    subst q.
    assert (Hpos2 : cell g2 pos = c) by (by apply A).
    exists s, x0. split.
    { intros ->. destruct D as (q & _ & _ & _ & Hx0e). congruence. }
    split; [|by apply C].
    exists pos. split; [by constructor|]. split; [by apply neighbours_sym|].
    split; [done|]. by apply Hin.
Qed.

Lemma noDeadStones_empty : noDeadStones (mkArray2 EMPTY).
Proof. intros p Hp Hc. destruct Hc. by apply get2_mkArray2. Qed.

Lemma boardAlive_init : boardAlive initBoard.
Proof.
  assert (Hs : snapAlive (mkSnapshot (mkArray2 EMPTY) noPosition 0 0 0 0)).
  { split; [apply wf2_mkArray2|apply noDeadStones_empty]. }
  split; [apply wf2_mkArray2|]. split; [apply noDeadStones_empty|].
  split; [reflexivity|]. split; [reflexivity|]. split; [exact Hs|].
  split; constructor.
Qed.

Lemma turnOf_colour (b : Board) :
  currentPlayer b = turnOf b -> currentPlayer b = BLACK \/ currentPlayer b = WHITE.
Proof. intros ->. unfold turnOf. destruct (Nat.even _); auto. Qed.

Lemma boardAlive_placeStone (b : Board) (pos : Position) :
  boardAlive b -> boardAlive (snd (placeStone b pos)).
Proof.
  intros Hb. pose proof Hb as (Hw & Halive & Hturn & Hko & Hcur & Hprev & Hnext).
  destruct (validMove b pos) eqn:Hv; [|by rewrite (placeStone_rejected b pos Hv)].
  pose proof (turn_placeStone b pos Hturn) as Hturn'.
  pose proof (placeStone_unfold b pos Hv) as Hu.
  pose proof (placeStone_ko b pos Hv) as Hk.
  cbv zeta in Hu, Hk.
  assert (Ho : otherPlayer (currentPlayer b) <> EMPTY) by (by destruct (currentPlayer b)).
  rewrite (captureLoop_scan _ _ 0 Ho) in Hu, Hk. cbn [fst snd] in Hu, Hk.
  apply validMove_spec in Hv as (Hp & He & _ & Hlib).
  destruct (place_capture_alive (board b) (currentPlayer b) pos (placedBoard b pos)
              Hw Halive (turnOf_colour b Hturn) Hp He Hlib eq_refl) as (Hal' & Hpos' & Htwo).
  assert (Hw' : wf2 (board (snd (captureDeadStones (placedBoard b pos)
                                   (otherPlayer (currentPlayer b)))))).
  { apply captureDeadStones_wf. cbn [placedBoard board with_koPosition with_koActive
      with_lastMove with_board]. by apply wf2_set2. }
  revert Hu Hk Hal' Hpos' Htwo Hw' Hturn'.
  generalize (captureDeadStones (placedBoard b pos) (otherPlayer (currentPlayer b))).
  generalize (snd (placeStone b pos)).
  intros b' r (Hb' & _ & _ & _ & _ & _ & Hc' & Hh') (_ & _ & _ & Hk') Hal' Hpos' Htwo Hw'
    Hturn'.
  rewrite <- Hb' in Hal', Hpos', Htwo, Hw'.
  split; [done|]. split; [done|]. split; [done|]. split.
  { rewrite Hk'. destruct (Z.eqb_spec (0 + fst r) 1) as [H1|H1]; [|done]. cbn [andb].
    destruct (Htwo ltac:(lia)) as (s & x & Hsx & Hs & Hx).
    destruct (group_liberties (board b') pos Hp) as (libs & Hnd & Hlibs & Hcount).
    rewrite Hpos' in Hcount. rewrite Hcount.
    pose proof (two_in_NoDup libs s x Hnd (proj2 (Hlibs s) Hs) (proj2 (Hlibs x) Hx) Hsx).
    replace (Z.of_nat (length libs) =? 1) with false by (symmetry; apply Z.eqb_neq; lia).
    apply andb_false_r. }
  rewrite Hh'. cbn [h_cur h_prev h_next createHistoryNode h_board].
  split; [by split|]. split; [by constructor|constructor].
Qed.

Lemma boardAlive_restore (b : Board) (ps ns : list BoardHistory) (n : BoardHistory) :
  currentPlayer (restoreFrom b (mkHistory ps n ns))
  = turnOf (restoreFrom b (mkHistory ps n ns)) ->
  snapAlive n -> Forall snapAlive ps -> Forall snapAlive ns ->
  boardAlive (restoreFrom b (mkHistory ps n ns)).
Proof.
  intros Ht [Hw Ha] Hps Hns. split; [done|]. split; [done|]. split; [done|].
  split; [reflexivity|]. cbn [restoreFrom history h_cur h_prev h_next].
  split; [by split|]. by split.
Qed.

Lemma boardAlive_undoMove (b : Board) : boardAlive b -> boardAlive (snd (undoMove b)).
Proof.
  intros Hb. pose proof Hb as (Hw & Halive & Hturn & Hko & Hcur & Hprev & Hnext).
  pose proof (turn_undoMove b Hturn) as Ht.
  destruct (undoMove_cases b) as [[_ Hu]|(p & ps & Hp & Hu)]; rewrite Hu in Ht |- *; [done|].
  cbn [snd] in *. rewrite Hp in Hprev. inversion Hprev as [|? ? Hp1 Hps]; subst.
  apply boardAlive_restore; [done|done|done|by constructor].
Qed.

Lemma boardAlive_redoMove (b : Board) : boardAlive b -> boardAlive (snd (redoMove b)).
Proof.
  intros Hb. pose proof Hb as (Hw & Halive & Hturn & Hko & Hcur & Hprev & Hnext).
  pose proof (turn_redoMove b Hturn) as Ht.
  destruct (redoMove_cases b) as [[_ Hu]|(n & ns & Hn & Hu)]; rewrite Hu in Ht |- *; [done|].
  cbn [snd] in *. rewrite Hn in Hnext. inversion Hnext as [|? ? Hn1 Hns]; subst.
  apply boardAlive_restore; [done|done|by constructor|done].
Qed.

Lemma boardAlive_runOps (ops : list Op) : boardAlive (runOps ops).
Proof.
  apply (runOps_inv boardAlive).
  - apply boardAlive_init.
  - intros b pos. apply boardAlive_placeStone.
  - apply boardAlive_undoMove.
  - apply boardAlive_redoMove.
Qed.

Lemma boardAlive_runGame (ops : list GameOp) : boardAlive (game_board (runGame ops)).
Proof.
  apply (runGame_board_inv boardAlive).
  - apply boardAlive_init.
  - intros b pos. apply boardAlive_placeStone.
  - apply boardAlive_undoMove.
  - apply boardAlive_redoMove.
  - done.
Qed.

Lemma boardAlive_hasLiberty (b : Board) (p : Position) :
  boardAlive b -> hasLiberty (board b) p = isValidPosition p.
Proof.
  intros (_ & Halive & _). destruct (isValidPosition p) eqn:Hp.
  - destruct (decide (cell (board b) p = EMPTY)) as [He|He].
    + unfold hasLiberty. by rewrite Hp, He.
    + apply hasLiberty_stone; [done|done|]. by apply Halive.
  - unfold hasLiberty. by rewrite Hp.
Qed.

(** X7. No dead stone is ever left on the board of a game: on every board
    reached from the initial one, through the rule engine or through the
    handlers of game.c, [hasLiberty] is true at every cell of the board
    (every group has a liberty), and the grid is a full 19 x 19 array. *)
Theorem no_dead_stones_in_play :
  (forall ops p, hasLiberty (board (runOps ops)) p = isValidPosition p) /\
  (forall ops p, hasLiberty (board (game_board (runGame ops))) p = isValidPosition p) /\
  (forall ops, wf2 (board (runOps ops))) /\
  (forall ops, wf2 (board (game_board (runGame ops)))).
Proof.
  split; [|split; [|split]].
  - intros ops p. apply boardAlive_hasLiberty, boardAlive_runOps.
  - intros ops p. apply boardAlive_hasLiberty, boardAlive_runGame.
  - intros ops. apply boardAlive_runOps.
  - intros ops. apply boardAlive_runGame.
Qed.

(** X8. The ko restriction is never in force in a game: [placeStone] refuses a
    stone without liberties before it looks for captures, so a move that
    captures one stone always leaves the stone played with two liberties.
    On every board reached from the initial one [koActive] is false and
    [isKoMove] rejects no position. *)
Theorem ko_never_active_in_play :
  (forall ops, koActive (runOps ops) = false) /\
  (forall ops, koActive (game_board (runGame ops)) = false) /\
  (forall ops pos, isKoMove (runOps ops) pos = false) /\
  (forall ops pos, isKoMove (game_board (runGame ops)) pos = false).
Proof.
  assert (H1 : forall ops, koActive (runOps ops) = false).
  { intros ops. apply boardAlive_runOps. }
  assert (H2 : forall ops, koActive (game_board (runGame ops)) = false).
  { intros ops. apply boardAlive_runGame. }
  split; [done|]. split; [done|].
  split; intros ops pos; apply isKoMove_inactive; [apply H1|apply H2].
Qed.

(** ** A move and its undo *)






Lemma validMove_without_ko (b1 b2 : Board) (pos : Position) :
  board b1 = board b2 -> currentPlayer b1 = currentPlayer b2 ->
  koActive b1 = false -> koActive b2 = false ->
  validMove b1 pos = validMove b2 pos.
Proof.
  intros Hb Hc Hk1 Hk2. unfold validMove, isValidMove, isKoMove, isSuicideMove.
  rewrite Hb, Hc, Hk1, Hk2.
  destruct (negb (isValidPosition pos)); [reflexivity|].
  destruct (negb (stone_eqb (cell (board b2) pos) EMPTY)); [reflexivity|].
  cbn [negb orb fst snd].
  destruct (negb (hasLiberty _ pos)); reflexivity.
Qed.

Lemma otherPlayer_twice (c : Stone) : c = BLACK \/ c = WHITE -> otherPlayer (otherPlayer c) = c.
Proof. by intros [->| ->]. Qed.

(** X20. Undo takes back a move exactly: on every board reached from the
    initial one, [undoMove] right after an accepted [placeStone] succeeds
    and gives back the grid, the player to move, [lastMove], the capture
    counters and the liberty totals of the board before the move, with the
    same snapshots before the current one; the move undone is the only
    snapshot after it, and the same positions are legal as before. *)
Theorem undo_takes_back_a_move (ops : list Op) (pos : Position) :
  let b := runOps ops in
  validMove b pos = true ->
  let r := undoMove (snd (placeStone b pos)) in
  fst r = true /\
  board (snd r) = board b /\ currentPlayer (snd r) = currentPlayer b /\
  lastMove (snd r) = lastMove b /\
  blackCaptures (snd r) = blackCaptures b /\ whiteCaptures (snd r) = whiteCaptures b /\
  blackLiberties (snd r) = blackLiberties b /\ whiteLiberties (snd r) = whiteLiberties b /\
  koActive (snd r) = koActive b /\
  h_prev (history (snd r)) = h_prev (history b) /\
  h_cur (history (snd r)) = h_cur (history b) /\
  h_next (history (snd r)) = [h_cur (history (snd (placeStone b pos)))] /\
  forall q, validMove (snd r) q = validMove b q.
Proof.
  cbv zeta. pose proof (historyOk_runOps ops) as (Hs & _).
  pose proof (boardAlive_runOps ops) as (_ & _ & Hturn & Hko & _).
  revert Hs Hturn Hko. generalize (runOps ops). intros b Hs Hturn Hko Hv.
  destruct (placeStone_accepted b pos Hv) as (Hh & _ & Hc & _). cbv zeta in Hh, Hc.
  revert Hh Hc. generalize (snd (placeStone b pos)). intros b1 Hh Hc.
  destruct (undoMove_cases b1) as [[Hnil _]|(p & ps & Hp & Hu)].
  { rewrite Hh in Hnil. discriminate. }
  rewrite Hu. rewrite Hh in Hp. cbn [h_prev] in Hp. injection Hp as <- <-.
  cbn [fst snd restoreFrom board currentPlayer lastMove blackCaptures whiteCaptures
       blackLiberties whiteLiberties koActive history h_prev h_cur h_next].
  unfold synced in Hs. rewrite <- Hs. cbn [createHistoryNode h_board h_lastMove
    h_blackCaptures h_whiteCaptures h_blackLiberties h_whiteLiberties].
  assert (Hpl : otherPlayer (currentPlayer b1) = currentPlayer b).
  { rewrite Hc. apply otherPlayer_twice. by apply turnOf_colour. }
  split; [done|]. split; [done|]. split; [done|]. split; [done|]. split; [done|].
  split; [done|]. split; [done|]. split; [done|]. split; [done|]. split; [done|].
  split; [done|]. split; [by rewrite Hh|].
  intros q. by apply validMove_without_ko.
Qed.

Lemma undo_takes_back_a_move_witness :
  validMove (runOps []) (mkPos 3 3) = true /\
  board (snd (undoMove (snd (placeStone (runOps []) (mkPos 3 3))))) = board (runOps []).
Proof.
  assert (Hv : validMove (runOps []) (mkPos 3 3) = true) by (vm_compute; reflexivity).
  split; [exact Hv|].
  pose proof (undo_takes_back_a_move [] (mkPos 3 3)) as H. cbv zeta in H.
  exact (proj1 (proj2 (H Hv))).
Defined.

(** ** ai.c: move lists *)

Lemma elem_of_flat_map {A B : Type} (f : A -> list B) (l : list A) (y : B) :
  y ∈ flat_map f l <-> exists x, x ∈ l /\ y ∈ f x.
Proof.
  rewrite list_elem_of_In, in_flat_map. split; intros (x & Hx & Hy); exists x.
  - by rewrite !list_elem_of_In.
  - by rewrite <- !list_elem_of_In.
Qed.

Lemma NoDup_flat_map {A B : Type} (f : A -> list B) (l : list A) :
  NoDup l -> (forall x, NoDup (f x)) ->
  (forall x y z, x <> y -> z ∈ f x -> z ∈ f y -> False) ->
  NoDup (flat_map f l).
Proof.
  intros Hl Hf Hdisj. induction Hl as [|a l Ha Hl IH]; cbn [flat_map]; [constructor|].
  apply list.NoDup_app. split; [apply Hf|]. split; [|exact IH].
  intros z Hz Hz'. apply elem_of_flat_map in Hz' as (y & Hy & Hzy).
  apply (Hdisj a y z); [|done|done]. intros ->. done.
Qed.

Lemma length_flat_map_le {A B : Type} (f : A -> list B) (l : list A) (k : nat) :
  (forall x, (length (f x) <= k)%nat) -> (length (flat_map f l) <= length l * k)%nat.
Proof.
  intros Hf. induction l as [|a l IH]; cbn [flat_map length]; [lia|].
  rewrite length_app. specialize (Hf a). lia.
Qed.

(** X21. [getLegalMoves] returns every position [isValidMove] accepts and no
    other, each once, in the order of the scan; there are at most 361. *)
Theorem getLegalMoves_all_legal_moves (b : Board) :
  NoDup (getLegalMoves b) /\
  (forall p, p ∈ getLegalMoves b <-> validMove b p = true) /\
  (length (getLegalMoves b) <= Z.to_nat (BOARD_SIZE * BOARD_SIZE))%nat.
Proof.
  unfold getLegalMoves. split; [apply list.NoDup_filter, allCells_NoDup|]. split.
  - intros p. rewrite list_elem_of_filter. split; [by intros [? _]|].
    intros Hv. split; [done|]. by apply allCells_valid, (validMove_position b).
  - change (Z.to_nat (BOARD_SIZE * BOARD_SIZE)) with cellFuel.
    rewrite <- allCells_length. apply length_filter.
Qed.

Lemma getValidMovesInRange_elem (b : Board) (centerX centerY range : Z) (p : Position) :
  p ∈ getValidMovesInRange b centerX centerY range
  <-> centerX - range <= px p <= centerX + range
      /\ centerY - range <= py p <= centerY + range
      /\ validMove b p = true.
Proof.
  unfold getValidMovesInRange. cbv zeta. rewrite elem_of_flat_map. split.
  - intros (dx & Hdx & Hp). apply elem_of_flat_map in Hp as (dy & Hdy & Hp).
    apply elem_of_seqZ in Hdx. apply elem_of_seqZ in Hdy.
    destruct (_ && validMove b _) eqn:Hc; [|by apply elem_of_nil in Hp].
    apply list_elem_of_singleton in Hp as ->. apply andb_true_iff in Hc as [_ Hv].
    cbn [px py]. split; [lia|]. split; [lia|done].
  - intros (Hx & Hy & Hv). exists (px p - centerX). split; [apply elem_of_seqZ; lia|].
    apply elem_of_flat_map. exists (py p - centerY). split; [apply elem_of_seqZ; lia|].
    replace (mkPos (centerX + (px p - centerX)) (centerY + (py p - centerY))) with p
      by (destruct p; cbn [px py]; f_equal; lia).
    pose proof (validMove_position b p Hv) as Hvalid. unfold isValidPosition in Hvalid.
    rewrite Hvalid, Hv. by apply list_elem_of_singleton.
Qed.

Lemma getValidMovesInRange_NoDup (b : Board) (centerX centerY range : Z) :
  NoDup (getValidMovesInRange b centerX centerY range).
Proof.
  unfold getValidMovesInRange. cbv zeta.
  apply NoDup_flat_map; [apply NoDup_seqZ| |].
  - intros dx. apply NoDup_flat_map; [apply NoDup_seqZ| |].
    + intros dy. destruct (_ && _); [apply NoDup_singleton|constructor].
    + intros dy dy' z Hne Hz Hz'.
      destruct (_ && validMove b _) in Hz; [|by apply elem_of_nil in Hz].
      destruct (_ && validMove b _) in Hz'; [|by apply elem_of_nil in Hz'].
      apply list_elem_of_singleton in Hz. apply list_elem_of_singleton in Hz'.
      subst z. injection Hz' as Heq. lia.
  - intros dx dx' z Hne Hz Hz'.
    apply elem_of_flat_map in Hz as (dy & _ & Hz).
    apply elem_of_flat_map in Hz' as (dy' & _ & Hz').
    destruct (_ && validMove b _) in Hz; [|by apply elem_of_nil in Hz].
    destruct (_ && validMove b _) in Hz'; [|by apply elem_of_nil in Hz'].
    apply list_elem_of_singleton in Hz. apply list_elem_of_singleton in Hz'.
    subst z. injection Hz' as Heq1 Heq2. lia.
Qed.

Lemma getValidMovesInRange_length (b : Board) (centerX centerY range : Z) :
  (length (getValidMovesInRange b centerX centerY range)
   <= Z.to_nat (2 * range + 1) * Z.to_nat (2 * range + 1))%nat.
Proof.
  unfold getValidMovesInRange. cbv zeta.
  etrans; [apply (length_flat_map_le _ _ (Z.to_nat (2 * range + 1)))|].
  - intros dx. etrans; [apply (length_flat_map_le _ _ 1)|].
    + intros dy. destruct (_ && _); cbn [length]; lia.
    + rewrite length_seqZ. lia.
  - rewrite length_seqZ. lia.
Qed.

(** X22. [getValidMovesInRange] returns exactly the positions of the square
    window of the given range around the centre that [isValidMove] accepts,
    each once; there are at most [(2 range + 1)^2] of them. *)
Theorem getValidMovesInRange_window (b : Board) (centerX centerY range : Z) :
  NoDup (getValidMovesInRange b centerX centerY range) /\
  (forall p, p ∈ getValidMovesInRange b centerX centerY range
             <-> centerX - range <= px p <= centerX + range
                 /\ centerY - range <= py p <= centerY + range
                 /\ validMove b p = true) /\
  (length (getValidMovesInRange b centerX centerY range)
   <= Z.to_nat (2 * range + 1) * Z.to_nat (2 * range + 1))%nat.
Proof.
  split; [apply getValidMovesInRange_NoDup|]. split.
  - intros p. apply getValidMovesInRange_elem.
  - apply getValidMovesInRange_length.
Qed.

Lemma existsIn_elem (l : list Position) (p : Position) : existsIn l p = true <-> p ∈ l.
Proof.
  unfold existsIn. rewrite existsb_exists. split.
  - intros (q & Hq & Heq). apply pos_eqb_eq in Heq as ->. by apply list_elem_of_In.
  - intros Hp. exists p. split; [by apply list_elem_of_In|by apply pos_eqb_eq].
Qed.

Lemma NoDup_snoc_new (l : list Position) (p : Position) :
  NoDup l -> existsIn l p = false -> NoDup (l ++ [p]).
Proof.
  intros Hl Hp. apply list.NoDup_app. split; [done|]. split; [|apply NoDup_singleton].
  intros x Hx Hx'. apply list_elem_of_singleton in Hx' as ->.
  apply existsIn_elem in Hx. congruence.
Qed.

(** The second tier of [expandNode]: the star points. *)
Lemma starTier_spec (b : Board) (points acc : list Position) :
  NoDup acc ->
  let res := fold_left (fun acc pos =>
                 if validMove b pos then if existsIn acc pos then acc else acc ++ [pos]
                 else acc) points acc in
  NoDup res /\ (length res <= length acc + length points)%nat /\
  exists more, res = acc ++ more.
Proof.
  revert acc. induction points as [|s l IH]; intros acc Hnd; cbn [fold_left length].
  - split; [done|]. split; [lia|]. exists []. by rewrite app_nil_r.
  - destruct (validMove b s); [destruct (existsIn acc s) eqn:Hex|].
    + destruct (IH acc Hnd) as (H1 & H2 & H3). split; [done|]. split; [lia|done].
    + destruct (IH (acc ++ [s]) (NoDup_snoc_new _ _ Hnd Hex)) as (H1 & H2 & more & H3).
      split; [done|]. split; [rewrite length_app in H2; cbn [length] in H2; lia|].
      exists ([s] ++ more). by rewrite H3, <- app_assoc.
    + destruct (IH acc Hnd) as (H1 & H2 & H3). split; [done|]. split; [lia|done].
Qed.

(** The third tier of [expandNode]: the scan of the board that stops at 20
    moves. *)
Lemma scanTier_spec (b : Board) (cells acc : list Position) :
  NoDup acc ->
  let res := fold_left (fun acc pos =>
                 if 20 <=? Z.of_nat (length acc) then acc
                 else if existsIn acc pos then acc
                 else if validMove b pos then acc ++ [pos]
                 else acc) cells acc in
  NoDup res /\ (length res <= Nat.max (length acc) 20)%nat /\
  (exists more, res = acc ++ more) /\
  (forall p, p ∈ cells -> validMove b p = true -> res <> []).
Proof.
  revert acc. induction cells as [|s l IH]; intros acc Hnd; cbn [fold_left].
  - split; [done|]. split; [lia|]. split; [exists []; by rewrite app_nil_r|].
    intros p Hp. by apply elem_of_nil in Hp.
  - assert (Hkeep : forall acc', NoDup acc' -> (exists m, acc' = acc ++ m) ->
              (length acc' <= Nat.max (length acc) 20)%nat ->
              (validMove b s = true -> acc' <> []) ->
              let res := fold_left (fun acc pos =>
                 if 20 <=? Z.of_nat (length acc) then acc
                 else if existsIn acc pos then acc
                 else if validMove b pos then acc ++ [pos]
                 else acc) l acc' in
              NoDup res /\ (length res <= Nat.max (length acc) 20)%nat /\
              (exists more, res = acc ++ more) /\
              (forall p, p ∈ s :: l -> validMove b p = true -> res <> [])).
    { intros acc' Hnd' (m & Hm) Hlen Hs. cbv zeta.
      destruct (IH acc' Hnd') as (H1 & H2 & (more & H3) & H4). cbv zeta in *.
      split; [done|]. split; [lia|]. split; [exists (m ++ more); by rewrite H3, Hm, app_assoc|].
      intros p Hp Hv. apply elem_of_cons in Hp as [->|Hp]; [|by eapply H4].
      rewrite H3. intros Heq. apply app_eq_nil in Heq as [Heq _]. by apply Hs. }
    destruct (Z.leb_spec 20 (Z.of_nat (length acc))) as [Hfull|Hroom].
    { apply Hkeep; [done|exists []; by rewrite app_nil_r|lia|].
      intros _ ->. cbn [length] in Hfull. lia. }
    destruct (existsIn acc s) eqn:Hex.
    { apply Hkeep; [done|exists []; by rewrite app_nil_r|lia|].
      intros _ ->. done. }
    destruct (validMove b s) eqn:Hv.
    + apply Hkeep; [by apply NoDup_snoc_new|by exists [s]| |].
      * rewrite length_app. cbn [length]. lia.
      * intros _ Heq. by apply app_eq_nil in Heq as [_ ?].
    + apply Hkeep; [done|exists []; by rewrite app_nil_r|lia|done].
Qed.

(** X23. The candidate list of [expandNode]: the children of a node get
    pairwise different moves, each accepted by [isValidMove] on the board
    of the node; there are at most 20 of them, and there is one whenever
    the board has a legal move at all. *)
Theorem candidateMoves_distinct_legal (tempBoard : Board) :
  NoDup (candidateMoves tempBoard) /\
  (forall p, p ∈ candidateMoves tempBoard -> validMove tempBoard p = true) /\
  (length (candidateMoves tempBoard) <= 20)%nat /\
  (candidateMoves tempBoard = [] <-> forall p, validMove tempBoard p = false).
Proof.
  pose proof (candidateMoves_valid tempBoard) as Hvalid.
  assert (Hvalid' : forall p, p ∈ candidateMoves tempBoard -> validMove tempBoard p = true).
  { intros p Hp. rewrite Forall_forall in Hvalid. by apply Hvalid, list_elem_of_In. }
  assert (Hmain : NoDup (candidateMoves tempBoard) /\
                  (length (candidateMoves tempBoard) <= 20)%nat /\
                  ((exists p, validMove tempBoard p = true) -> candidateMoves tempBoard <> [])).
  { clear Hvalid Hvalid'. unfold candidateMoves. cbv zeta.
    set (tier1 := if _ : bool then getValidMovesInRange _ _ _ _ else []).
    assert (H1 : NoDup tier1 /\ (length tier1 <= 9)%nat).
    { unfold tier1. destruct (_ && _); [|split; [constructor|cbn; lia]].
      split; [apply getValidMovesInRange_NoDup|].
      etrans; [apply getValidMovesInRange_length|]. apply Nat.eq_le_incl. reflexivity. }
    clearbody tier1. destruct H1 as [Hnd1 Hlen1].
    destruct (starTier_spec tempBoard starPoints9 tier1 Hnd1) as (Hnd2 & Hlen2 & more2 & Heq2).
    cbv zeta in Hnd2, Hlen2, Heq2.
    change (length starPoints9) with 9%nat in Hlen2.
    set (tier2 := if Z.of_nat (length tier1) <? 5 then _ else tier1).
    assert (H2 : NoDup tier2 /\ ((length tier2 <= 20)%nat)).
    { unfold tier2. destruct (Z.ltb_spec (Z.of_nat (length tier1)) 5); [|split; [done|lia]].
      split; [done|lia]. }
    clearbody tier2. clear Hnd2 Hlen2 Heq2 more2. destruct H2 as [Hnd2 Hlen2].
    destruct (scanTier_spec tempBoard allCells tier2 Hnd2) as (Hnd3 & Hlen3 & _ & Hex3).
    cbv zeta in Hnd3, Hlen3, Hex3.
    destruct (Z.ltb_spec (Z.of_nat (length tier2)) 5) as [Hlt|Hge].
    - split; [done|]. split; [lia|]. intros [p Hp]. apply (Hex3 p); [|done].
      by apply allCells_valid, (validMove_position tempBoard).
    - split; [done|]. split; [done|]. intros _ ->. cbn [length] in Hge. lia. }
  destruct Hmain as (Hnd & Hlen & Hex).
  split; [done|]. split; [done|]. split; [done|]. split.
  - intros Hnil p. destruct (validMove tempBoard p) eqn:Hv; [|done].
    destruct Hex; [by exists p|done].
  - intros Hnone. destruct (candidateMoves tempBoard) as [|p l]; [done|].
    specialize (Hvalid' p ltac:(by left)). rewrite Hnone in Hvalid'. done.
Qed.

(** *** The child [selectBestChild] returns *)

Lemma selectBestChild_fold (l : list MCTSNode) :
  let res := fold_left (fun '(bestChild, bestScore) '(i, c) =>
                let better := match bestScore with
                              | None => true
                              | Some s => s <? visits c
                              end in
                if better then (Some i, Some (visits c)) else (bestChild, bestScore))
              (imap (fun i c => (i, c)) l) (None, None) in
  (l = [] /\ res = (None, None)) \/
  (exists i c, res = (Some i, Some (visits c)) /\ l !! i = Some c /\
     (forall j c', l !! j = Some c' -> visits c' <= visits c) /\
     (forall j c', l !! j = Some c' -> (j < i)%nat -> visits c' < visits c)).
Proof.
  induction l as [|x l IH] using rev_ind; [by left|]. right.
  rewrite imap_app, fold_left_app. cbn [imap fold_left]. rewrite Nat.add_0_r.
  cbv zeta in IH. destruct IH as [[-> ->]|(i & c & -> & Hi & Hmax & Hfirst)].
  - exists 0%nat, x. cbn. split; [done|]. split; [done|]. split.
    + intros [|j] c'; cbn; [intros [= ->]; lia|done].
    + intros j c' _ Hj. lia.
  - cbn beta iota. destruct (Z.ltb_spec (visits c) (visits x)) as [Hlt|Hge].
    + exists (length l), x. split; [done|]. split; [by apply list_lookup_middle|]. split.
      * intros j c' Hj. apply lookup_app_Some in Hj as [Hj|[_ Hj]].
        -- specialize (Hmax j c' Hj). lia.
        -- destruct (j - length l)%nat; cbn in Hj; [injection Hj as ->; lia|done].
      * intros j c' Hj Hlt'. rewrite lookup_app_l in Hj by done.
        specialize (Hmax j c' Hj). lia.
    + exists i, c. split; [done|]. split; [by apply lookup_app_l_Some|]. split.
      * intros j c' Hj. apply lookup_app_Some in Hj as [Hj|[_ Hj]]; [by eapply Hmax|].
        destruct (j - length l)%nat; cbn in Hj; [injection Hj as ->; lia|done].
      * intros j c' Hj Hlt'. apply lookup_lt_Some in Hi.
        rewrite lookup_app_l in Hj by lia. by eapply Hfirst.
Qed.

(** X24. [selectBestChild] returns [NULL] exactly for a node without children,
    and otherwise the first child among those with the greatest visit
    count. *)
Theorem selectBestChild_most_visited (node : MCTSNode) :
  match selectBestChild node with
  | None => children node = []
  | Some i =>
    exists c, children node !! i = Some c /\
      (forall j c', children node !! j = Some c' -> visits c' <= visits c) /\
      (forall j c', children node !! j = Some c' -> (j < i)%nat -> visits c' < visits c)
  end.
Proof.
  unfold selectBestChild. pose proof (selectBestChild_fold (children node)) as H.
  cbv zeta in H. destruct H as [[Hnil ->]|(i & c & -> & Hi & Hmax & Hfirst)]; [done|].
  cbn [fst]. by exists c.
Qed.

(** ** gui.c: clicks *)

(** X27. A click that [screenToBoardPos] accepts always gives a cell of the
    board, whatever the rectangle of the board and the pixel. *)
Theorem screenToBoardPos_on_board (gui : GUI) (screenX screenY : Z) (pos : Position) :
  screenToBoardPos gui screenX screenY = Some pos -> isValidPosition pos = true.
Proof.
  unfold screenToBoardPos. cbv zeta. destruct (_ || _); [done|].
  intros [= <-]. unfold isValidPosition, BOARD_SIZE. cbn [px py].
  repeat match goal with
         | |- context [if ?c then _ else _] => destruct c eqn:?
         end;
    repeat match goal with
           | H : (_ <? _) = true |- _ => apply Z.ltb_lt in H
           | H : (_ <? _) = false |- _ => apply Z.ltb_ge in H
           | H : (_ <=? _) = true |- _ => apply Z.leb_le in H
           | H : (_ <=? _) = false |- _ => apply Z.leb_gt in H
           end;
    rewrite !andb_true_iff, !Z.leb_le, !Z.ltb_lt; unfold BOARD_SIZE in *; lia.
Qed.

Lemma screenToBoardPos_on_board_witness :
  screenToBoardPos initGUI 40 100 = Some (mkPos 0 0) /\ isValidPosition (mkPos 0 0) = true.
Proof.
  assert (H : screenToBoardPos initGUI 40 100 = Some (mkPos 0 0))
    by (vm_compute; reflexivity).
  split; [exact H|]. exact (screenToBoardPos_on_board initGUI 40 100 (mkPos 0 0) H).
Defined.

Lemma quot_cell (i d : Z) :
  0 <= i -> 0 <= d < CELL_SIZE -> Z.quot (i * CELL_SIZE + d) CELL_SIZE = i.
Proof.
  intros Hi Hd. unfold CELL_SIZE in *. rewrite Z.quot_div_nonneg by lia.
  symmetry. apply (Z.div_unique _ _ i d); lia.
Qed.

(** X28. Clicks come back to the cell they are aimed at: with the layout of
    [initGUI], every pixel at most 12 to the right of or below, and at most
    13 to the left of or above, the pixel where [renderBoard] centres the
    stone of a cell is mapped to that cell (so every pixel of a drawn stone,
    whose radius is 11, selects its own cell). *)
Theorem screenToBoardPos_round_trip (pos : Position) (dx dy : Z) :
  isValidPosition pos = true -> -13 <= dx <= 12 -> -13 <= dy <= 12 ->
  screenToBoardPos initGUI (fst (stoneCentre initGUI pos) + dx)
    (snd (stoneCentre initGUI pos) + dy) = Some pos.
Proof.
  intros Hp Hdx Hdy. apply isValidPosition_true in Hp as (Hx & Hy).
  unfold BOARD_SIZE in *.
  unfold screenToBoardPos, stoneCentre. cbv zeta.
  change (boardRect initGUI) with (mkRect 50 110 468 468). cbn [rect_x rect_y rect_w rect_h fst snd].
  change (Z.quot CELL_SIZE 2) with 13.
  assert (Hc : CELL_SIZE = 26) by reflexivity.
  replace (50 + px pos * CELL_SIZE + dx - 50 + 13) with (px pos * CELL_SIZE + (dx + 13)) by lia.
  replace (110 + py pos * CELL_SIZE + dy - 110 + 13) with (py pos * CELL_SIZE + (dy + 13))
    by lia.
  rewrite !quot_cell by lia. rewrite Hc. unfold BOARD_SIZE.
  replace (50 + px pos * 26 + dx <? 50 - 13) with false by (symmetry; apply Z.ltb_ge; lia).
  replace (50 + 468 + 13 <? 50 + px pos * 26 + dx) with false
    by (symmetry; apply Z.ltb_ge; lia).
  replace (110 + py pos * 26 + dy <? 110 - 13) with false by (symmetry; apply Z.ltb_ge; lia).
  replace (110 + 468 + 13 <? 110 + py pos * 26 + dy) with false
    by (symmetry; apply Z.ltb_ge; lia).
  cbn [orb].
  replace (px pos <? 0) with false by (symmetry; apply Z.ltb_ge; lia).
  replace (py pos <? 0) with false by (symmetry; apply Z.ltb_ge; lia).
  replace (19 <=? px pos) with false by (symmetry; apply Z.leb_gt; lia).
  replace (19 <=? py pos) with false by (symmetry; apply Z.leb_gt; lia).
  by destruct pos.
Qed.

Lemma screenToBoardPos_round_trip_witness :
  screenToBoardPos initGUI (fst (stoneCentre initGUI (mkPos 3 15)) + 12)
    (snd (stoneCentre initGUI (mkPos 3 15)) + -13) = Some (mkPos 3 15).
Proof. apply screenToBoardPos_round_trip; [reflexivity|lia|lia]. Defined.

(** ** The flood fill of [determineWinner] *)

Lemma NoDup_valid_length (l : list Position) :
  NoDup l -> (forall p, p ∈ l -> isValidPosition p = true) -> (length l <= cellFuel)%nat.
Proof.
  intros Hnd Hv. rewrite <- allCells_length.
  apply submseteq_length, NoDup_submseteq; [done|].
  intros p Hp. by apply allCells_valid, Hv.
Qed.

(** X26. One flood fill of [determineWinner], started on an empty cell that is
    not marked, on marks that cut no empty region: the loop ends with an
    empty queue; it has marked exactly the empty region of the start cell,
    each cell entering the queue once (the 361 entries of [queue] are never
    exceeded); [territorySize] is the size of the region; [touchesBlack] and
    [touchesWhite] say whether a stone of that colour borders the region. *)
Theorem territory_fill_marks_region (g : Grid) (v0 : list (list bool)) (pos : Position) :
  wf2 v0 -> regionClosed g v0 -> emptyAt g pos -> marked v0 pos = false ->
  let t := territoryLoop loopFuel g (mkTerritory (set2 v0 pos true) [pos] 1 false false) in
  t_queue t = [] /\
  (forall q, marked (t_visited t) q = true <-> marked v0 q = true \/ emptyPath g pos q) /\
  (exists region, NoDup region /\ (forall q, q ∈ region <-> emptyPath g pos q)
                  /\ t_size t = Z.of_nat (length region)) /\
  1 <= t_size t <= BOARD_SIZE * BOARD_SIZE /\
  (t_black t = true <-> regionTouches g pos BLACK) /\
  (t_white t = true <-> regionTouches g pos WHITE).
Proof.
  intros Hw Hclosed Hpos Hm. cbv zeta.
  destruct (territoryLoop_correct g v0 pos Hw Hclosed Hpos Hm _ eq_refl)
    as (_ & Hmarks & (R & Hnd & HR & Hsize) & Hb & Hwh & Hq).
  revert Hmarks Hsize Hb Hwh Hq.
  generalize (territoryLoop loopFuel g (mkTerritory (set2 v0 pos true) [pos] 1 false false)).
  intros t Hmarks Hsize Hb Hwh Hq.
  split; [done|]. split; [done|]. split; [by exists R|]. split; [|by split].
  rewrite Hsize. split.
  - assert (Hin : pos ∈ R) by (apply HR; by constructor).
    destruct R; [by apply elem_of_nil in Hin|]. cbn [length]. lia.
  - pose proof (NoDup_valid_length R Hnd) as Hlen.
    assert (Hc : Z.of_nat cellFuel = BOARD_SIZE * BOARD_SIZE) by reflexivity.
    rewrite <- Hc. apply inj_le, Hlen. intros p Hp. apply HR in Hp.
    by destruct (emptyPath_empty_r _ _ _ Hp).
Qed.

Lemma regionClosed_noMarks (g : Grid) : regionClosed g noMarks.
Proof. intros p q Hp. by rewrite marked_noMarks in Hp. Qed.

Lemma territory_fill_marks_region_witness :
  emptyAt (mkArray2 EMPTY) (mkPos 0 0) /\
  t_queue (territoryLoop loopFuel (mkArray2 EMPTY)
             (mkTerritory (set2 noMarks (mkPos 0 0) true) [mkPos 0 0] 1 false false)) = [].
Proof.
  assert (He : emptyAt (mkArray2 EMPTY) (mkPos 0 0)) by (split; reflexivity).
  split; [exact He|].
  exact (proj1 (territory_fill_marks_region (mkArray2 EMPTY) noMarks (mkPos 0 0)
                  (wf2_mkArray2 false) (regionClosed_noMarks _) He
                  (marked_noMarks (mkPos 0 0)))).
Defined.

(** On the empty board White wins by the 4 points of compensation. *)
Example determineWinner_empty_board : determineWinner initBoard = WHITE.
Proof. vm_compute. reflexivity. Qed.

(** ** ai.c: the search loop *)

Lemma nodeAt_updateAt (f : MCTSNode -> MCTSNode) (path : list nat) (root node : MCTSNode) :
  nodeAt root path = Some node -> nodeAt (updateAt f path root) path = Some (f node).
Proof.
  revert root. induction path as [|i rest IH]; intros root; cbn [nodeAt updateAt].
  - by intros [= ->].
  - destruct (children root !! i) as [c|] eqn:Hi; [|done]. intros Hc.
    cbn [children with_children]. rewrite list_lookup_insert_eq by (by eapply lookup_lt_Some).
    by apply IH.
Qed.

Lemma nodeAt_snoc (root : MCTSNode) (path : list nat) (i : nat) :
  nodeAt root (path ++ [i])
  = match nodeAt root path with Some n => children n !! i | None => None end.
Proof.
  revert root. induction path as [|j rest IH]; intros root; cbn [nodeAt app].
  - by destruct (children root !! i).
  - destruct (children root !! j); [apply IH|done].
Qed.

Lemma fold_imap_index {S A : Type} (f : S * nat -> nat * A -> S * nat) (l : list A) (s0 : S) :
  (forall acc i m, snd (f acc (i, m)) = snd acc \/ snd (f acc (i, m)) = i) ->
  (0 < length l)%nat ->
  (snd (fold_left f (imap (fun i m => (i, m)) l) (s0, 0%nat)) < length l)%nat.
Proof.
  intros Hf. induction l as [|x l IH] using rev_ind; cbn [length]; [lia|]. intros _.
  rewrite imap_app, fold_left_app, length_app. cbn [imap fold_left length].
  rewrite Nat.add_0_r.
  destruct (Hf (fold_left f (imap (fun i m => (i, m)) l) (s0, 0%nat)) (length l) x)
    as [-> | ->]; [|lia].
  destruct l as [|y l']; [cbn; lia|]. specialize (IH ltac:(cbn; lia)). lia.
Qed.

Lemma edgeIndex_lt (legalMoves : list Position) (parentX parentY : Z) :
  (0 < length legalMoves)%nat -> (edgeIndex legalMoves parentX parentY < length legalMoves)%nat.
Proof.
  intros Hl. unfold edgeIndex. apply fold_imap_index; [|done].
  intros [d s] i m. cbn [snd]. destruct (_ <? _); cbn [snd]; auto.
Qed.

Lemma centerIndex_lt (tempBoard : Board) (nodePlayer : Stone) (legalMoves : list Position) :
  (0 < length legalMoves)%nat ->
  (centerIndex tempBoard nodePlayer legalMoves < length legalMoves)%nat.
Proof.
  intros Hl. unfold centerIndex. cbv zeta. apply fold_imap_index; [|done].
  intros [d s] i m. cbn [snd]. destruct (_ <? _); cbn [snd]; auto.
Qed.

Section SearchLoop.

Variable randSeq : nat -> nat.
Variable ticks : nat -> Z.
Variable clog : float -> float.

Lemma chooseChild_lt (tempBoard : Board) (nodePlayer : Stone) (legalMoves : list Position)
    (rs : nat) :
  (0 < length legalMoves)%nat ->
  (fst (chooseChild randSeq tempBoard nodePlayer legalMoves rs) < length legalMoves)%nat.
Proof.
  intros Hl. unfold chooseChild. cbv zeta.
  destruct (_ =? 0); cbn [fst].
  - apply mod_index_lt; [unfold rand; cbn [fst]; lia|done].
  - destruct (_ && _); cbn [fst]; [by apply edgeIndex_lt|by apply centerIndex_lt].
Qed.

(** [selectNode] returns a node of the tree. *)
Lemma selectNode_validPath (config : AIConfig) (node : MCTSNode) :
  forall rs, validPath node (fst (selectNode randSeq clog config node rs)).
Proof.
  induction node as [m p v w kids IH] using MCTSNode_tree_ind. intros rs.
  cbn [selectNode]. destruct (_ =? 0); [by eexists|]. cbv zeta.
  assert (Hstep : forall i rs',
            validPath (mkNode m p v w kids)
              (fst (match map (fun c => selectNode randSeq clog config c) kids !! i with
                    | Some k => let res := k rs' in (i :: fst res, snd res)
                    | None => ([], rs')
                    end))).
  { intros i rs'. rewrite list_lookup_fmap.
    destruct (kids !! i) as [c|] eqn:Hi; cbn [fmap option_fmap option_map fst];
      [|by eexists].
    rewrite List.Forall_forall in IH.
    destruct (IH c (proj1 (list_elem_of_In _ _) (list_elem_of_lookup_2 _ _ _ Hi)) rs')
      as [n Hn].
    exists n. cbn [nodeAt children]. by rewrite Hi. }
  destruct (_ && _); [apply Hstep|].
  destruct (bestUCTChild _ _ _) as [i|]; [apply Hstep|by eexists].
Qed.

(** [expandNode] returns a node of the tree it leaves. *)
Lemma expandNode_validPath (root : MCTSNode) (path : list nat) (b : Board) (rs : nat) :
  validPath root path ->
  validPath (fst (fst (expandNode randSeq root path b rs)))
    (snd (fst (expandNode randSeq root path b rs))).
Proof.
  intros [node Hn]. unfold expandNode. rewrite Hn. cbv zeta.
  generalize (reconstructBoard b (parentChain [] root path)). intros tempBoard.
  destruct (Z.eqb_spec (Z.of_nat (length (candidateMoves tempBoard))) 0) as [H0|H0];
    cbn [fst snd]; [by exists node|].
  pose proof (chooseChild_lt tempBoard (player node) (candidateMoves tempBoard) rs
                ltac:(lia)) as Hlt.
  revert Hlt. generalize (chooseChild randSeq tempBoard (player node)
                            (candidateMoves tempBoard) rs).
  intros sel Hlt. unfold validPath. rewrite nodeAt_snoc.
  rewrite (nodeAt_updateAt _ path root node Hn). cbn [children with_children].
  rewrite list_lookup_fmap.
  destruct (lookup_lt_is_Some_2 (candidateMoves tempBoard) (fst sel) Hlt) as [mv ->].
  by eexists.
Qed.

Lemma backpropagate_visits (root : MCTSNode) (path : list nat) (result : float) :
  validPath root path -> visits (backpropagate root path result) = visits root + 1.
Proof.
  intros [node Hn]. unfold backpropagate. rewrite Hn.
  destruct path as [|i rest]; cbn [backpropagateFrom]; [reflexivity|].
  by destruct (children root !! i).
Qed.

Lemma mctsIteration_counts (b : Board) (config : AIConfig) (st : SearchState) :
  let st' := mctsIteration randSeq clog b config st in
  visits (s_root st') = visits (s_root st) + 1 /\
  s_iterations st' = s_iterations st + 1.
Proof.
  cbv zeta. unfold mctsIteration. cbv zeta. cbn [s_root s_iterations]. split; [|done].
  pose proof (selectNode_validPath config (s_root st) (s_rs st)) as Hsel.
  revert Hsel. generalize (selectNode randSeq clog config (s_root st) (s_rs st)).
  intros sel Hsel.
  pose proof (expandNode_validPath (s_root st) (fst sel) b (snd sel) Hsel) as Hexp.
  assert (Hv : visits (fst (fst (expandNode randSeq (s_root st) (fst sel) b (snd sel))))
               = visits (s_root st)).
  { unfold expandNode. destruct (nodeAt (s_root st) (fst sel)); [|done]. cbv zeta.
    destruct (_ =? 0); [done|]. cbn [fst].
    destruct (fst sel) as [|i rest]; cbn [updateAt]; [done|].
    by destruct (children (s_root st) !! i). }
  revert Hexp Hv. generalize (expandNode randSeq (s_root st) (fst sel) b (snd sel)).
  intros ex Hexp Hv.
  generalize (simulateGame randSeq (fst (fst ex)) (snd (fst ex)) b (snd ex)). intros res.
  rewrite backpropagate_visits by done. lia.
Qed.

Lemma mctsLoop_counts (fuel : nat) (b : Board) (config : AIConfig) (startTime : Z)
    (st : SearchState) :
  let res := mctsLoop randSeq ticks clog fuel b config startTime st in
  visits (s_root res) - s_iterations res = visits (s_root st) - s_iterations st /\
  s_iterations st <= s_iterations res <= Z.max (s_iterations st) (simulationCount config).
Proof.
  revert st. induction fuel as [|fuel IH]; intros st; cbn [mctsLoop]; [lia|].
  destruct (Z.ltb_spec (s_iterations st) (simulationCount config)) as [Hlt|Hge]; [|lia].
  cbv zeta. destruct (_ <? MCTS_TIME_LIMIT); cbn [s_root s_iterations]; [|lia].
  set (st1 := mkSearchState (s_root st) (s_iterations st) (s_rs st)
                (snd (SDL_GetTicks ticks (s_clk st)))).
  pose proof (mctsIteration_counts b config st1) as [Hv Hi]. cbv zeta in Hv, Hi.
  specialize (IH (mctsIteration randSeq clog b config st1)). cbv zeta in IH.
  revert Hv Hi IH. generalize (mctsIteration randSeq clog b config st1). intros st2.
  cbn [st1 s_root s_iterations]. intros Hv Hi.
  generalize (mctsLoop randSeq ticks clog fuel b config startTime st2). intros res IH. lia.
Qed.

(** X25. Every round of [runMCTS] reaches the root: when the search returns,
    the visit count of the root has grown by the number of rounds, and that
    number is between 0 and [simulationCount]. *)
Theorem runMCTS_counts_rounds (b : Board) (config : AIConfig) (root : MCTSNode) (rs : nat) :
  let st := runMCTS randSeq ticks clog b config root rs in
  visits (s_root st) = visits root + s_iterations st /\
  0 <= s_iterations st <= Z.max 0 (simulationCount config).
Proof.
  cbv zeta. unfold runMCTS. cbv zeta.
  pose proof (mctsLoop_counts (Z.to_nat (simulationCount config)) b config
                (fst (SDL_GetTicks ticks 0%nat))
                (mkSearchState root 0 rs (snd (SDL_GetTicks ticks 0%nat)))) as H.
  cbv zeta in H. revert H.
  generalize (mctsLoop randSeq ticks clog (Z.to_nat (simulationCount config)) b config
                (fst (SDL_GetTicks ticks 0%nat))
                (mkSearchState root 0 rs (snd (SDL_GetTicks ticks 0%nat)))).
  intros st. cbn [s_root s_iterations]. lia.
Qed.

End SearchLoop.

(** ** The liberty totals *)

Lemma calculateGroupLiberties_same (g : Grid) (group1 group2 : list Position) :
  (forall q, q ∈ group1 <-> q ∈ group2) ->
  calculateGroupLiberties g group1 = calculateGroupLiberties g group2.
Proof.
  intros Hsame.
  destruct (calculateGroupLiberties_spec g group1) as (l1 & Hnd1 & Hl1 & ->).
  destruct (calculateGroupLiberties_spec g group2) as (l2 & Hnd2 & Hl2 & ->).
  f_equal. apply Permutation_length, NoDup_Permutation; [done|done|].
  intros r. rewrite Hl1, Hl2. split; intros [Hr (q & Hq & Hn)]; (split; [done|]); exists q;
    (split; [by apply Hsame|done]).
Qed.

Lemma libertySum_snoc (g : Grid) (c : Stone) (reps : list Position) (p : Position) :
  libertySum g c (reps ++ [p])
  = libertySum g c reps + (if decide (cell g p = c) then countLiberties g p else 0).
Proof.
  unfold libertySum. rewrite list.filter_app, foldr_app.
  rewrite list.filter_cons, list.filter_nil. destruct (decide (cell g p = c)); cbn [foldr].
  - generalize (filter (fun q => cell g q = c) reps). intros l.
    induction l as [|a l IH]; cbn [foldr]; [lia|]. rewrite IH. lia.
  - lia.
Qed.

(** The scan of [calculateLiberties] at one cell of the board. *)
Lemma libertyScanStep_inv (g : Grid) (seen reps : list Position) (st : LibertyScan)
    (pos : Position) :
  isValidPosition pos = true -> libertyScanInv g seen reps st ->
  exists reps', libertyScanInv g (seen ++ [pos]) reps' (libertyStep g st pos).
Proof.
  intros Hp Hinv. pose proof Hinv as (H1 & H2 & H3 & H4 & H5 & H6 & H7 & H8).
  unfold libertyStep. cbv zeta.
  assert (Hold : (stone_eqb (cell g pos) BLACK || stone_eqb (cell g pos) WHITE)
                 && negb (marked (ls_visited st) pos) = false ->
                 libertyScanInv g (seen ++ [pos]) reps st).
  { intros Hcond. split; [done|]. split; [done|]. split; [done|]. split; [done|].
    split; [done|]. split; [|by split].
    intros p Hps Hpc. apply elem_of_app in Hps as [Hps|Hps]; [by apply H6|].
    apply list_elem_of_singleton in Hps as ->.
    destruct (marked (ls_visited st) pos); [done|]. by destruct (cell g pos). }
  destruct ((stone_eqb (cell g pos) BLACK || stone_eqb (cell g pos) WHITE)
            && negb (marked (ls_visited st) pos)) eqn:Hcond; [|exists reps; by apply Hold].
  clear Hold. apply andb_true_iff in Hcond as [Hstone Hm]. apply negb_true_iff in Hm.
  assert (Hc : cell g pos <> EMPTY) by (intros He; by rewrite He in Hstone).
  assert (Hclosed : groupClosed g (cell g pos) (ls_visited st)).
  { intros p n Hpm Hpc Hn Hnv Hnc. apply H4. apply H4 in Hpm as (rp & Hrp & Hpath).
    exists rp. split; [done|]. destruct (stonePath_valid_r _ _ _ _ Hpath) as [_ Hcp].
    eapply stonePath_step; [exact Hpath|done|done|congruence]. }
  destruct (dfsMarkGroup_component g (cell g pos) pos (ls_visited st) [] H1 Hp eq_refl Hm
              Hclosed _ eq_refl) as (new & R1 & R2 & R3 & R4 & R5 & R6 & R7).
  assert (Hlib : calculateGroupLiberties g
                   (snd (dfsMarkGroup cellFuel g pos (cell g pos) (ls_visited st, [])))
                 = countLiberties g pos).
  { unfold countLiberties. rewrite Hp. cbn [negb].
    replace (stone_eqb (cell g pos) EMPTY) with false
      by (symmetry; by apply stone_eqb_neq).
    cbv zeta. apply calculateGroupLiberties_same. intros q.
    destruct (dfsMarkGroup_fresh g pos Hp _ eq_refl) as (_ & Hfresh & _).
    rewrite Hfresh, R1, app_nil_l. apply R5. }
  rewrite Hlib. clear Hlib. revert R1 R2 R3 R4 R5 R6 R7.
  generalize (dfsMarkGroup cellFuel g pos (cell g pos) (ls_visited st, [])).
  intros r R1 R2 R3 R4 R5 R6 R7.
  assert (Hnew : pos ∉ reps).
  { intros Hin. assert (marked (ls_visited st) pos = true); [|congruence].
    apply H4. exists pos. split; [done|]. by constructor. }
  assert (Hinv' : wf2 (fst r) /\ NoDup (reps ++ [pos]) /\
    (forall p, p ∈ reps ++ [pos] -> isValidPosition p = true /\ cell g p <> EMPTY) /\
    (forall q, marked (fst r) q = true
               <-> exists p, p ∈ reps ++ [pos] /\ stonePath g (cell g p) p q) /\
    (forall p p', p ∈ reps ++ [pos] -> p' ∈ reps ++ [pos] ->
                  stonePath g (cell g p) p p' -> p = p') /\
    (forall p, p ∈ seen ++ [pos] -> cell g p <> EMPTY -> marked (fst r) p = true)).
  { split; [done|]. split.
    { apply list.NoDup_app. split; [done|]. split; [|apply NoDup_singleton].
      intros x Hx Hx'. apply list_elem_of_singleton in Hx' as ->. done. }
    split.
    { intros p Hps. apply elem_of_app in Hps as [Hps|Hps]; [by apply H3|].
      by apply list_elem_of_singleton in Hps as ->. }
    split.
    { intros q. rewrite R4, H4. split.
      - intros [(p & Hpr & Hpath)|Hpath].
        + exists p. split; [apply elem_of_app; by left|done].
        + exists pos. split; [apply elem_of_app; right; by apply list_elem_of_singleton|done].
      - intros (p & Hps & Hpath). apply elem_of_app in Hps as [Hps|Hps].
        + left. by exists p.
        + apply list_elem_of_singleton in Hps as ->. by right. }
    split.
    { intros p p' Hps Hps' Hpath.
      apply elem_of_app in Hps as [Hps|Hps]; apply elem_of_app in Hps' as [Hps'|Hps'].
      - by apply H5.
      - apply list_elem_of_singleton in Hps' as ->.
        assert (marked (ls_visited st) pos = true); [|congruence].
        apply H4. by exists p.
      - apply list_elem_of_singleton in Hps as ->.
        assert (marked (ls_visited st) pos = true); [|congruence].
        apply H4. exists p'. split; [done|].
        destruct (stonePath_valid_r _ _ _ _ Hpath) as [_ Hcp']. rewrite Hcp'.
        by apply stonePath_sym.
      - apply list_elem_of_singleton in Hps as ->.
        by apply list_elem_of_singleton in Hps' as ->. }
    intros p Hps Hpc. apply R4. apply elem_of_app in Hps as [Hps|Hps].
    - left. by apply H6.
    - apply list_elem_of_singleton in Hps as ->. right. by constructor. }
  destruct Hinv' as (I1 & I2 & I3 & I4 & I5 & I6).
  exists (reps ++ [pos]).
  destruct (cell g pos) eqn:Hcol; [done| |]; cbn [stone_eqb].
  - split; [done|]. split; [done|]. split; [done|]. split; [done|]. split; [done|].
    split; [done|]. cbn [ls_black ls_white]. rewrite !libertySum_snoc, Hcol, H7, H8.
    destruct (decide (BLACK = BLACK)); [|done]. destruct (decide (BLACK = WHITE)); [done|].
    split; lia.
  - split; [done|]. split; [done|]. split; [done|]. split; [done|]. split; [done|].
    split; [done|]. cbn [ls_black ls_white]. rewrite !libertySum_snoc, Hcol, H7, H8.
    destruct (decide (WHITE = BLACK)); [done|]. destruct (decide (WHITE = WHITE)); [|done].
    split; lia.
Qed.

Lemma libertyScanFold_inv (g : Grid) (cells seen reps : list Position) (st : LibertyScan) :
  (forall p, p ∈ cells -> isValidPosition p = true) ->
  libertyScanInv g seen reps st ->
  exists reps', libertyScanInv g (seen ++ cells) reps' (fold_left (libertyStep g) cells st).
Proof.
  revert seen reps st. induction cells as [|p cells IH]; intros seen reps st Hv Hinv;
    cbn [fold_left].
  - exists reps. by rewrite app_nil_r.
  - destruct (libertyScanStep_inv g seen reps st p) as (reps1 & Hinv1); [|done|].
    { apply Hv. by left. }
    destruct (IH (seen ++ [p]) reps1 (libertyStep g st p)) as (reps2 & Hinv2); [|done|].
    { intros q Hq. apply Hv. by right. }
    exists reps2. by rewrite <- app_assoc in Hinv2.
Qed.

(** X29. [calculateLiberties] adds up the liberties group by group: there is
    one stone in every group of the board such that [blackLiberties] is the
    sum of [countLiberties] over the black ones and [whiteLiberties] the sum
    over the white ones (an empty cell next to two groups counts for each
    of them). Nothing else of the board changes. *)
Theorem calculateLiberties_sums_groups (b : Board) :
  exists reps,
    NoDup reps /\
    (forall p, p ∈ reps -> isValidPosition p = true /\ cell (board b) p <> EMPTY) /\
    (forall q, isValidPosition q = true -> cell (board b) q <> EMPTY ->
               exists p, p ∈ reps /\ stonePath (board b) (cell (board b) q) p q) /\
    (forall p p', p ∈ reps -> p' ∈ reps ->
                  stonePath (board b) (cell (board b) p) p p' -> p = p') /\
    calculateLiberties b
    = with_liberties b (libertySum (board b) BLACK reps) (libertySum (board b) WHITE reps).
Proof.
  destruct (libertyScanFold_inv (board b) allCells [] [] (mkLibertyScan noMarks 0 0))
    as (reps & Hinv).
  { intros p Hp. by apply allCells_valid. }
  { split; [apply wf2_mkArray2|]. split; [constructor|].
    split; [intros p Hp; by apply elem_of_nil in Hp|]. split.
    { intros q. cbn [ls_visited]. rewrite marked_noMarks. split; [done|].
      intros (p & Hp & _). by apply elem_of_nil in Hp. }
    split; [intros p p' Hp; by apply elem_of_nil in Hp|].
    split; [intros p Hp; by apply elem_of_nil in Hp|]. by split. }
  unfold calculateLiberties. revert Hinv. rewrite app_nil_l.
  generalize (fold_left (libertyStep (board b)) allCells (mkLibertyScan noMarks 0 0)).
  intros st (H1 & H2 & H3 & H4 & H5 & H6 & H7 & H8).
  exists reps. split; [done|]. split; [done|]. split; [|split; [done|by rewrite H7, H8]].
  intros q Hq Hqc. assert (Hm : marked (ls_visited st) q = true).
  { apply H6; [by apply allCells_valid|done]. }
  apply H4 in Hm as (p & Hp & Hpath). exists p. split; [done|].
  by destruct (stonePath_valid_r _ _ _ _ Hpath) as [_ ->].
Qed.

(** ** The rollout *)

Section RolloutMoves.

Variable randSeq : nat -> nat.

Lemma probeMoves_valid (attempts : nat) (b : Board) (rs : nat) :
  Forall (fun p => validMove b p = true) (fst (probeMoves randSeq attempts b rs)).
Proof.
  revert rs. induction attempts as [|n IH]; intros rs; cbn [probeMoves]; [constructor|].
  cbv zeta. destruct (validMove b _) eqn:Hv; [|apply IH].
  cbn [fst]. constructor; [exact Hv|constructor].
Qed.

Lemma rolloutLoop_plays (fuel : nat) (maxMoves : Z) (st : Rollout) :
  exists moves,
    playAll (ro_board st) moves = Some (ro_board (rolloutLoop randSeq fuel maxMoves st)) /\
    (length moves <= fuel)%nat.
Proof.
  revert st. induction fuel as [|fuel IH]; intros st.
  { exists []. split; [reflexivity|cbn; lia]. }
  cbn [rolloutLoop].
  destruct (negb (ro_moveCount st <? maxMoves)).
  { exists []. split; [reflexivity|cbn; lia]. }
  cbv zeta.
  set (near := if (0 <=? px (lastMove (ro_board st))) && (0 <=? py (lastMove (ro_board st)))
               then getValidMovesInRange (ro_board st) (px (lastMove (ro_board st)))
                      (py (lastMove (ro_board st))) MCTS_RANGE_SMALL
               else []).
  assert (Hnear : Forall (fun p => validMove (ro_board st) p = true) near).
  { unfold near. destruct (_ && _); [apply getValidMovesInRange_valid|constructor]. }
  clearbody near.
  set (found := if Z.of_nat (length near) =? 0 then probeMoves randSeq 10 (ro_board st) (ro_rs st)
                else (near, ro_rs st)).
  assert (Hfound : Forall (fun p => validMove (ro_board st) p = true) (fst found)).
  { unfold found. destruct (_ =? 0); [apply probeMoves_valid|exact Hnear]. }
  clearbody found.
  destruct (Z.of_nat (length (fst found)) =? 0) eqn:Hlen.
  { exists []. split; [reflexivity|cbn; lia]. }
  apply Z.eqb_neq in Hlen.
  set (movePos := nth _ (fst found) noPosition).
  assert (Hv : validMove (ro_board st) movePos = true).
  { unfold movePos, rand. cbn [fst]. apply nth_Forall_valid; [exact Hfound|lia|lia]. }
  clearbody movePos.
  pose proof (placeStone_result (ro_board st) movePos) as Hres. rewrite Hv in Hres.
  assert (Hstep : forall st',
            ro_board st' = snd (placeStone (ro_board st) movePos) ->
            exists moves,
              playAll (ro_board st) moves
              = Some (ro_board (rolloutLoop randSeq fuel maxMoves st')) /\
              (length moves <= S fuel)%nat).
  { intros st' Hb. destruct (IH st') as (moves & Hplay & Hn).
    exists (movePos :: moves). split; [|cbn [length]; lia].
    cbn [playAll]. cbv zeta. rewrite Hres, <- Hb. exact Hplay. }
  assert (Hstop : forall st',
            ro_board st' = snd (placeStone (ro_board st) movePos) ->
            exists moves,
              playAll (ro_board st) moves = Some (ro_board st') /\
              (length moves <= S fuel)%nat).
  { intros st' Hb. exists [movePos]. split; [|cbn [length]; lia].
    cbn [playAll]. cbv zeta. by rewrite Hres, <- Hb. }
  revert Hstep Hstop. generalize (placeStone (ro_board st) movePos). intros r Hstep Hstop.
  destruct ((20 <? ro_moveCount st + 1) && ((ro_moveCount st + 1) mod 5 =? 0)).
  - destruct (negb _); [apply Hstep|apply Hstop]; reflexivity.
  - apply Hstep. reflexivity.
Qed.

(** X30. A rollout plays only moves that [placeStone] accepts, and at most 59 of
    them: the board [simulateGame] scores is reached from the board it
    starts on by a sequence of accepted moves, and the score is 1.0 exactly
    when the node's player has captured more on that board than the other
    player. *)
Theorem simulateGame_plays_legal_moves (root : MCTSNode) (path : list nat) (b : Board)
    (rs : nat) :
  exists moves final,
    (length moves <= 59)%nat /\
    playAll (reconstructBoard b (parentChain [] root path)) moves = Some final /\
    fst (simulateGame randSeq root path b rs)
    = if stone_eqb (match nodeAt root path with Some n => player n | None => EMPTY end) BLACK
      then (if whiteCaptures final <? blackCaptures final then 1%float else 0%float)
      else (if blackCaptures final <? whiteCaptures final then 1%float else 0%float).
Proof.
  unfold simulateGame. cbv zeta.
  set (maxMoves := 40 + fst (rand randSeq rs) mod 20).
  assert (Hmax : 40 <= maxMoves <= 59).
  { unfold maxMoves. pose proof (Z.mod_pos_bound (fst (rand randSeq rs)) 20). lia. }
  clearbody maxMoves.
  set (st0 := mkRollout _ 0 _ _ _).
  destruct (rolloutLoop_plays (Z.to_nat maxMoves) maxMoves st0) as (moves & Hplay & Hn).
  exists moves, (ro_board (rolloutLoop randSeq (Z.to_nat maxMoves) maxMoves st0)).
  split; [lia|]. split; [exact Hplay|]. reflexivity.
Qed.

End RolloutMoves.

(** ** The final totals of [determineWinner] *)

(** The stones of a colour and the territory of a colour are different
    cells of the board: together they are at most 361. *)
Lemma area_le_cells (g : Grid) (c c' : Stone) (t : list Position) :
  c <> EMPTY -> NoDup t -> (forall p, p ∈ t -> territoryOf g c' p) ->
  Z.of_nat (stoneCount g c) + Z.of_nat (length t) <= 361.
Proof.
  intros Hc Hnd Ht. unfold stoneCount. rewrite <- Nat2Z.inj_add, <- length_app.
  assert (Hlen : (length (filter (fun p => cell g p = c) allCells ++ t) <= cellFuel)%nat).
  { apply NoDup_valid_length.
    - apply list.NoDup_app. split; [apply list.NoDup_filter, allCells_NoDup|]. split; [|done].
      intros p Hp Hp'. apply list_elem_of_filter in Hp as [Hp _].
      destruct (Ht p Hp') as [[_ He] _]. congruence.
    - intros p Hp. apply elem_of_app in Hp as [Hp|Hp].
      + apply list_elem_of_filter in Hp as [_ Hp]. by apply allCells_valid.
      + by destruct (Ht p Hp) as [[Hv _] _]. }
  assert (Hcf : Z.of_nat cellFuel = 361) by (vm_compute; reflexivity). lia.
Qed.

(** C6, amended. For every board whose capture counters leave room in an
    [int] for the totals ([whiteCaptures] at most [INT_MAX - 361] and
    [blackCaptures] at most [INT_MAX - 365]), [determineWinner] gives each
    side its stones on the board, the full size of every maximal empty
    region that borders stones of that colour only, and the capture
    counter of the other side; White gets 4 points more. The strictly
    higher total wins and equal totals give 0. In particular White wins on
    an empty board with no captures. *)
Theorem determineWinner_scores_area (b : Board) :
  INT_MIN <= whiteCaptures b <= INT_MAX - 361 ->
  INT_MIN <= blackCaptures b <= INT_MAX - 365 ->
  (exists tb tw : list Position,
     NoDup tb /\ (forall p, p ∈ tb <-> territoryOf (board b) BLACK p) /\
     NoDup tw /\ (forall p, p ∈ tw <-> territoryOf (board b) WHITE p) /\
     let blackPoints :=
       Z.of_nat (stoneCount (board b) BLACK) + Z.of_nat (length tb) + whiteCaptures b in
     let whitePoints :=
       Z.of_nat (stoneCount (board b) WHITE) + Z.of_nat (length tw) + blackCaptures b + 4 in
     finalPoints b = (blackPoints, whitePoints) /\
     determineWinner b = (if whitePoints <? blackPoints then BLACK
                          else if blackPoints <? whitePoints then WHITE
                          else EMPTY)) /\
  (board b = mkArray2 EMPTY -> whiteCaptures b = 0 -> blackCaptures b = 0 ->
   determineWinner b = WHITE).
Proof.
  intros Hwc Hbc. split.
  - destruct (scorePasses_area (board b)) as (tb & tw & Hndb & Htb & Hndw & Htw & Hpts).
    cbv zeta in Hpts. destruct Hpts as [Hb Hw].
    pose proof (area_le_cells (board b) BLACK BLACK tb ltac:(done) Hndb
                  (fun p Hp => proj1 (Htb p) Hp)) as Hab.
    pose proof (area_le_cells (board b) WHITE WHITE tw ltac:(done) Hndw
                  (fun p Hp => proj1 (Htw p) Hp)) as Haw.
    exists tb, tw. split; [done|]. split; [done|]. split; [done|]. split; [done|].
    cbv zeta. unfold determineWinner. rewrite finalPoints_unfold, Hb, Hw. clear Hb Hw.
    unfold INT_MIN, INT_MAX in Hwc, Hbc.
    rewrite (intAdd_exact _ (whiteCaptures b)) by (unfold INT_MIN, INT_MAX; lia).
    rewrite (intAdd_exact _ (blackCaptures b)) by (unfold INT_MIN, INT_MAX; lia).
    rewrite (intAdd_exact _ 4) by (unfold INT_MIN, INT_MAX; lia).
    by split.
  - intros Hg H0 H1. unfold determineWinner. rewrite finalPoints_unfold, Hg, H0, H1.
    vm_compute. reflexivity.
Qed.

Lemma determineWinner_scores_area_witness :
  INT_MIN <= whiteCaptures initBoard <= INT_MAX - 361 /\
  INT_MIN <= blackCaptures initBoard <= INT_MAX - 365 /\
  determineWinner initBoard = WHITE.
Proof.
  assert (Hwc : INT_MIN <= whiteCaptures initBoard <= INT_MAX - 361)
    by (vm_compute; split; discriminate).
  assert (Hbc : INT_MIN <= blackCaptures initBoard <= INT_MAX - 365)
    by (vm_compute; split; discriminate).
  split; [exact Hwc|]. split; [exact Hbc|].
  exact (proj2 (determineWinner_scores_area initBoard Hwc Hbc) eq_refl eq_refl eq_refl).
Defined.

(** The claim as stated fails for a counter near the end of the [int]
    range. One black stone stands on the board and [whiteCaptures] is
    [INT_MAX]: by the totals of the claim Black is far ahead (361 points of
    area and the counter against 4), but the sum of [int]s comes back
    negative and [determineWinner] answers White. *)
Lemma determineWinner_int_overflow :
  let b := overflowBoard in
  exists tb tw : list Position,
    NoDup tb /\ (forall p, p ∈ tb <-> territoryOf (board b) BLACK p) /\
    NoDup tw /\ (forall p, p ∈ tw <-> territoryOf (board b) WHITE p) /\
    Z.of_nat (stoneCount (board b) WHITE) + Z.of_nat (length tw) + blackCaptures b + 4
    < Z.of_nat (stoneCount (board b) BLACK) + Z.of_nat (length tb) + whiteCaptures b /\
    finalPoints b = (-2147483288, 4) /\
    determineWinner b = WHITE.
Proof.
  cbv zeta.
  destruct (scorePasses_area (board overflowBoard)) as (tb & tw & Hndb & Htb & Hndw & Htw & _).
  pose proof (area_le_cells (board overflowBoard) WHITE WHITE tw ltac:(done) Hndw
                (fun p Hp => proj1 (Htw p) Hp)) as Haw.
  exists tb, tw. split; [done|]. split; [done|]. split; [done|]. split; [done|].
  assert (Hbc : blackCaptures overflowBoard = 0) by (vm_compute; reflexivity).
  assert (Hwc : whiteCaptures overflowBoard = 2147483647) by (vm_compute; reflexivity).
  split; [rewrite Hbc, Hwc; lia|].
  split; vm_compute; reflexivity.
Qed.
